(** * SubtitleManager: the multi-layer subtitle cache and fetch arbitration

    A shallow embedding of [src/content/services/SubtitleManager.js], and
    of the caption segmentation of [src/content/services/CaptionService.js],
    which consumes what the manager fetches.

    The class keeps a bounded in-process [Map] (the volatile tier), an
    IndexedDB object store with a seven-day expiry (the persistent tier),
    asks a remote endpoint for a shared-cache hit or a quota decision, and
    finally fetches from the cloud transcript provider or the local
    extraction server.

    Conventions of the embedding:
    - an [async] method is a computation [M A] over an explicit [World];
      a rejected promise or a thrown exception is the outcome [Thrown];
    - everything the browser decides (clock, IndexedDB faults, chrome.storage
      faults, HTTP answers, [Math.random], [btoa]) is read from an [Env]
      oracle indexed by a counter that advances at every query;
    - objects that the code passes around by reference (the [captions]
      array, the [captionData] object) live in a [Heap]; the in-process
      [Map] stores references, IndexedDB stores structured clones;
    - an IndexedDB request takes effect on the store when it is made
      (requests of one connection are served in order), so a write that the
      code does not await is run in place with its outcome dropped
      ([detach]); an [async] method of the remote client that the code does
      not await is queued as a [Task] and runs after the caller has
      returned ([run_task]);
    - the trace of a caller lists the caller's own calls.  A method that
      is started and not awaited is entered at once and asks
      [chrome.storage.sync] for the token before it is suspended for the
      first time; these two calls, like the rest of its body, are listed
      when the task runs.  What is stated about the calls of a caller that
      detaches a task is therefore stated about its HTTP requests and its
      IndexedDB calls, of which that first part of a detached method has
      none;
    - a promise that never settles (a blocked [indexedDB.open], a hung
      [fetch]) has no counterpart: every oracle answers;
    - console logging and [performance.now] timing are observability only
      and are left out;
    - timestamps, ages and wait times are integers ([Z]), and [Math.round]
      and [Math.ceil] of their quotients are taken exactly; caption times
      are IEEE-754 doubles ([float]);
    - strings are strings of Latin-1 code units. *)

From Stdlib Require Import ZArith String Ascii Floats Lia.
From stdpp Require Import base option list gmap strings pretty sorting.

Local Set Warnings "-inexact-float".

(* ================================================================== *)
(** * JavaScript values *)
(* ================================================================== *)

(** A string is falsy exactly when it is empty. *)
Definition truthy (s : string) : bool :=
  match s with EmptyString => false | String _ _ => true end.

(** [o || d] for a possibly-undefined string [o]. *)
Definition or_else (o : option string) (d : string) : string :=
  match o with
  | Some s => if truthy s then s else d
  | None => d
  end.

(** [!o] for a possibly-undefined string. *)
Definition falsy_opt (o : option string) : bool :=
  match o with
  | Some s => negb (truthy s)
  | None => true
  end.

(** [Math.round(a / b)] for integers [a] and [b > 0]: round half up. *)
Definition Math_round_div (a b : Z) : Z := ((2 * a + b) / (2 * b))%Z.

(** [Math.ceil(a / b)] for integers [a] and [b > 0]. *)
Definition Math_ceil_div (a b : Z) : Z := (- ((- a) / b))%Z.

(** A template-literal rendering of a possibly-NaN integer. *)
Definition render_number (o : option Z) : string :=
  match o with
  | Some z => pretty z
  | None => "NaN"
  end.

(** ** An insertion-ordered [Map] with string keys

    [set] on a present key keeps the key's position; a new key goes last.
    [keys().next().value] is the first key in insertion order. *)
Module JsMap.
Section JsMap.
Context {V : Type}.

Definition t := list (string * V).

Definition empty : t := [].

Fixpoint get (k : string) (m : t) : option V :=
    match m with
    | [] => None
    | (k', v) :: m' => if decide (k = k') then Some v else get k m'
    end.

Definition has (k : string) (m : t) : bool :=
    match get k m with Some _ => true | None => false end.

Fixpoint set (k : string) (v : V) (m : t) : t :=
    match m with
    | [] => [(k, v)]
    | (k', v') :: m' =>
        if decide (k = k') then (k, v) :: m' else (k', v') :: set k v m'
    end.

Fixpoint delete (k : string) (m : t) : t :=
    match m with
    | [] => []
    | (k', v') :: m' =>
        if decide (k = k') then delete k m' else (k', v') :: delete k m'
    end.

Definition size (m : t) : nat := length m.

Definition keys (m : t) : list string := m.*1.

Definition first_key (m : t) : option string := head (keys m).

Definition clear (m : t) : t := [].
End JsMap.
Arguments t : clear implicits.
End JsMap.

(* ================================================================== *)
(** * Data model *)
(* ================================================================== *)

(** One entry of [extractWordsFromText]. *)
Module Word.
Record t := mk { text : string; punctuation : string }.
End Word.

(** A caption segment [{start, end, text, words}]. *)
Module Caption.
Record t := mk {
    start : float;
    end_ : float;
    text : string;
    words : list Word.t
  }.
End Caption.

(** The [captionData] object [{language, type, source}]; the server-cache
    path builds it without [type], the local path copies [language] and
    [type] from the response as they are. *)
Module CaptionData.
Record t := mk {
    language : option string;
    type : option string;
    source : option string
  }.
End CaptionData.

(** What a [captions] reference can point to: an array of segments, or
    (server-cache path, [subtitles.captions || subtitles] with no
    [captions] property) the [subtitles] object itself. *)
Inductive CaptionsObj :=
  | CaptionArray (segments : list Caption.t)
  | SubtitlesObject (language : option string).

(** ** The object heap

    References are indices; allocation appends, nothing is ever freed. *)
Definition capref := nat.
Definition cdref := nat.

Record Heap := mkHeap {
  captionsObjs : list CaptionsObj;
  captionDataObjs : list CaptionData.t
}.

Definition empty_heap : Heap := mkHeap [] [].

Definition alloc_captions (o : CaptionsObj) (h : Heap) : capref * Heap :=
  (length (captionsObjs h), mkHeap (captionsObjs h ++ [o]) (captionDataObjs h)).

Definition alloc_captionData (o : CaptionData.t) (h : Heap) : cdref * Heap :=
  (length (captionDataObjs h), mkHeap (captionsObjs h) (captionDataObjs h ++ [o])).

Definition deref_captions (h : Heap) (r : option capref) : option CaptionsObj :=
  r ≫= λ a, captionsObjs h !! a.

Definition deref_captionData (h : Heap) (r : option cdref) : option CaptionData.t :=
  r ≫= λ a, captionDataObjs h !! a.

(** An in-place mutation of the object behind a [captions] reference, as a
    holder of the reference can perform ([captions[i] = ...],
    [captions.push(...)], ...). *)
Definition mutate_captions (a : capref) (o : CaptionsObj) (h : Heap) : Heap :=
  mkHeap (<[a := o]> (captionsObjs h)) (captionDataObjs h).

(** ** Volatile tier entry: [{captions, captionData, timestamp}] *)
Module MemEntry.
Record t := mk {
    captions : option capref;
    captionData : option cdref;
    timestamp : Z
  }.
End MemEntry.

(** ** Persistent tier row: [{videoId, captions, captionData, cachedAt}]

    IndexedDB stores a structured clone, so a row holds the objects'
    contents, not references. *)
Module Row.
Record t := mk {
    videoId : string;
    captions : option CaptionsObj;
    captionData : option CaptionData.t;
    cachedAt : Z
  }.
End Row.

(** The record [request.result] of a read, deserialized into fresh objects. *)
Module RowData.
Record t := mk {
    videoId : string;
    captions : option capref;
    captionData : option cdref;
    cachedAt : Z
  }.
End RowData.

(** What [getFromIndexedDB] resolves with on a hit: [{data, age}]. *)
Module LocalHit.
Record t := mk { data : RowData.t; age : Z }.
End LocalHit.

(** ** Remote quota service *)
Module Usage.
Record t := mk { burst : string; hourly : string; daily : string }.
End Usage.

(** The [subtitles] member of a server-cache hit: an object (with or
    without a [captions] array) or a bare array. *)
Inductive ServerSubtitles :=
  | SubsObject (captions : option (list Caption.t)) (language : option string)
  | SubsArray (items : list Caption.t).

(** The JSON body of [/subtitles/fetch-or-cache], as far as the code reads
    it.  [cached] and [allowed] are the truthiness of the members. *)
Module ServerResponse.
Record t := mk {
    cached : bool;
    subtitles : option ServerSubtitles;
    hit_count : option Z;
    age_days : option float;
    allowed : bool;
    reason : option string;
    waitTime : option Z;
    usage : option Usage.t
  }.
End ServerResponse.

(** The fail-open decision [{ cached: false, allowed: true, usage: null }]. *)
Definition fail_open : ServerResponse.t :=
  ServerResponse.mk false None None None true None None None.

(** ** Cloud transcript provider *)
Module Snippet.
Record t := mk { start : float; duration : float; text : string }.
End Snippet.

(** [data.transcript]: absent, an object [{snippets, is_generated}], or a
    bare array of snippets. *)
Inductive Transcript :=
  | TranscriptObject (snippets : option (list Snippet.t)) (is_generated : bool)
  | TranscriptArray (items : list Snippet.t).

Module VocabuminData.
Record t := mk {
    success : bool;
    transcript : option Transcript;
    language : option string;
    error_type : option string;
    error : option string;
    warp_active : option bool
  }.
End VocabuminData.

(** ** Local extraction server *)
Module YtDlpData.
Record t := mk {
    success : bool;
    caption_groups : option (list Caption.t);
    content : option string;
    language : option string;
    subtitle_type : option string
  }.
End YtDlpData.

(** ** What the source fetcher returns *)
Module Failure.
Record t := mk {
    errorType : string;
    errorMessage : string;
    isUserSideIssue : bool;
    isServerIssue : bool;
    warpActive : option bool
  }.
End Failure.

Module FetchResult.
Record t := mk {
    success : bool;
    captions : option capref;
    content : option string;
    captionData : option cdref;
    failure : option Failure.t
  }.
End FetchResult.

(** [{ success: false }] *)
Definition fetch_failed : FetchResult.t :=
  FetchResult.mk false None None None None.

(** ** What [fetchSubtitles] returns

    One JavaScript object shape per [return]; a member that the returned
    object does not have is [None]. *)
Module Result.
Record t := mk {
    error : option string;
    cached : option bool;
    captions : option capref;
    captionData : option cdref;
    source : option string;
    age_seconds : option Z;
    age_minutes : option Z;
    hit_count : option Z;
    age_days : option float;
    wait_time : option Z;
    usage : option Usage.t;
    success : option bool;
    content : option string
  }.
End Result.

(** ** Performance counters *)
Module Stats.
Record t := mk {
    memoryHits : nat;
    indexedDBHits : nat;
    serverHits : nat;
    misses : nat
  }.
End Stats.

(* ================================================================== *)
(** * The world: instance fields, browser state, and what was called *)
(* ================================================================== *)

(** Remote endpoints. *)
Inductive Endpoint :=
  | FetchOrCache        (* POST {apiBase}/subtitles/fetch-or-cache *)
  | StoreCache          (* POST {apiBase}/subtitles/store-cache *)
  | LogFetch            (* POST {apiBase}/subtitles/log-fetch *)
  | RailwayHealthLog    (* POST {apiBase}/railway-health/log *)
  | TranscriptApi       (* GET  {vocabuminApi}/transcript/{videoId}?lang=en *)
  | ExtractSubsJson3    (* POST {ytdlpServer}/extract-subs-json3 *)
  | ExtractSubs.        (* POST {ytdlpServer}/extract-subs *)

(** Methods whose entry is recorded in the trace. *)
Inductive Method :=
  | M_checkCacheAndLimits
  | M_fetchFromYtDlp
  | M_fetchFromVocabumin
  | M_storeInServerCache
  | M_logFetch
  | M_logVocabuminAPIResponse.

(** Collaborator calls, in program order. *)
Inductive Call :=
  | IdbOpen
  | IdbTransaction (readwrite : bool)
  | IdbGet (videoId : string)
  | IdbPut (row : Row.t)
  | IdbDelete (videoId : string)
  | IdbClear
  | StorageSyncGet (key : string)
  | StorageLocalGet (key : string)
  | StorageLocalSet (key value : string)
  | HttpFetch (endpoint : Endpoint) (videoId : string)
  | Invoke (method : Method).

(** Calls of [async] methods that are started and not awaited on the
    caller's path; they run after the caller has gone on. *)
Inductive Task :=
  | TaskStoreInServerCache (videoId : string) (videoTitle channelName : option string)
      (subtitleData : FetchResult.t)
  | TaskLogFetch (videoId : string) (videoTitle : option string) (success : bool)
      (source : string) (fromCache : bool)
  | TaskLogVocabuminAPIResponse (videoId : string) (statusCode : Z) (success : bool)
      (errorMessage : option string).

Record World := mkWorld {
  (* fields of the SubtitleManager instance *)
  memoryCache : JsMap.t MemEntry.t;
  currentVideoId : option string;
  db : option unit;
  stats : Stats.t;
  (* the JavaScript heap *)
  heap : Heap;
  (* the browser: the 'subtitles' object store, chrome.storage.sync/.local *)
  idb_store : gmap string Row.t;
  storage_sync : gmap string string;
  storage_local : gmap string string;
  (* bookkeeping: oracle counter, calls so far, detached tasks so far *)
  tick : nat;
  trace : list Call;
  background : list Task
}.

(** [this.cacheExpiry = 7 * 24 * 60 * 60 * 1000] (milliseconds). *)
Definition cacheExpiry : Z := (7 * 24 * 60 * 60 * 1000)%Z.

(** [this.maxMemoryCacheSize = 3]. *)
Definition maxMemoryCacheSize : nat := 3.

Definition set_memoryCache (m : JsMap.t MemEntry.t) (w : World) : World :=
  mkWorld m (currentVideoId w) (db w) (stats w) (heap w) (idb_store w)
    (storage_sync w) (storage_local w) (tick w) (trace w) (background w).

Definition set_currentVideoId (v : option string) (w : World) : World :=
  mkWorld (memoryCache w) v (db w) (stats w) (heap w) (idb_store w)
    (storage_sync w) (storage_local w) (tick w) (trace w) (background w).

Definition set_db (d : option unit) (w : World) : World :=
  mkWorld (memoryCache w) (currentVideoId w) d (stats w) (heap w) (idb_store w)
    (storage_sync w) (storage_local w) (tick w) (trace w) (background w).

Definition set_stats (s : Stats.t) (w : World) : World :=
  mkWorld (memoryCache w) (currentVideoId w) (db w) s (heap w) (idb_store w)
    (storage_sync w) (storage_local w) (tick w) (trace w) (background w).

Definition set_heap (h : Heap) (w : World) : World :=
  mkWorld (memoryCache w) (currentVideoId w) (db w) (stats w) h (idb_store w)
    (storage_sync w) (storage_local w) (tick w) (trace w) (background w).

Definition set_idb_store (s : gmap string Row.t) (w : World) : World :=
  mkWorld (memoryCache w) (currentVideoId w) (db w) (stats w) (heap w) s
    (storage_sync w) (storage_local w) (tick w) (trace w) (background w).

Definition set_storage_local (s : gmap string string) (w : World) : World :=
  mkWorld (memoryCache w) (currentVideoId w) (db w) (stats w) (heap w) (idb_store w)
    (storage_sync w) s (tick w) (trace w) (background w).

Definition bump (w : World) : World :=
  mkWorld (memoryCache w) (currentVideoId w) (db w) (stats w) (heap w) (idb_store w)
    (storage_sync w) (storage_local w) (S (tick w)) (trace w) (background w).

Definition add_call (c : Call) (w : World) : World :=
  mkWorld (memoryCache w) (currentVideoId w) (db w) (stats w) (heap w) (idb_store w)
    (storage_sync w) (storage_local w) (tick w) (trace w ++ [c]) (background w).

Definition add_task (t : Task) (w : World) : World :=
  mkWorld (memoryCache w) (currentVideoId w) (db w) (stats w) (heap w) (idb_store w)
    (storage_sync w) (storage_local w) (tick w) (trace w) (background w ++ [t]).

(** ** What the browser decides *)

(** The answer to a [fetch]: a network failure (the promise rejects), or a
    response with a status and a body that parses as JSON or does not. *)
Inductive Http (A : Type) :=
  | NetworkFailure
  | Responded (status : Z) (body : option A).
Arguments NetworkFailure {A}.
Arguments Responded {A} status body.

Record Response (A : Type) := mkResponse { status : Z; body : option A }.
Arguments mkResponse {A} status body.
Arguments status {A} r.
Arguments body {A} r.

(** [response.ok]: status in the range 200-299. *)
Definition ok {A} (r : Response A) : bool :=
  ((200 <=? status r) && (status r <=? 299))%Z.

Record Env := mkEnv {
  (* Date.now() *)
  Date_now : nat → Z;
  (* does indexedDB.open(...) succeed *)
  indexedDB_open : nat → bool;
  (* does db.transaction(...) throw; does the request fire onerror *)
  idb_transaction_throws : nat → bool;
  idb_request_fails : nat → bool;
  (* does a chrome.storage call reject *)
  chrome_storage_rejects : nat → bool;
  (* fetch, by endpoint *)
  fetch_or_cache : nat → string → string → Http ServerResponse.t;
  fetch_transcript : nat → string → Http VocabuminData.t;
  fetch_ytdlp : nat → Endpoint → string → Http YtDlpData.t;
  fetch_post : nat → Endpoint → Http unit;
  (* Math.random().toString(36).substr(2, 9) *)
  Math_random_id : nat → string;
  (* btoa *)
  btoa : string → string
}.

(** ** The monad of [async] methods *)

Inductive Exn :=
  | IdbOpenError        (* request.error of a failed indexedDB.open *)
  | IdbException        (* db.transaction(...) threw *)
  | StorageError        (* a chrome.storage call rejected *)
  | NetworkError (endpoint : Endpoint)  (* fetch rejected *)
  | SyntaxError         (* response.json() rejected *)
  | TypeError.          (* property read on undefined *)

Inductive Outcome (A : Type) :=
  | Returned (a : A)
  | Thrown (e : Exn).
Arguments Returned {A} a.
Arguments Thrown {A} e.

Definition M (A : Type) : Type := World → Outcome A * World.

Definition ret {A} (a : A) : M A := λ w, (Returned a, w).

Definition throw {A} (e : Exn) : M A := λ w, (Thrown e, w).

Definition bind {A B} (m : M A) (k : A → M B) : M B :=
  λ w, match m w with
       | (Returned a, w') => k a w'
       | (Thrown e, w') => (Thrown e, w')
       end.

Declare Scope js_scope.
Delimit Scope js_scope with js.
Notation "x <- m ;; k" := (bind m (λ x, k))
  (at level 100, m at next level, right associativity) : js_scope.
Notation "m ;; k" := (bind m (λ _, k))
  (at level 100, right associativity) : js_scope.
Open Scope js_scope.

(** [try { m } catch (e) { h e }] *)
Definition try_catch {A} (m : M A) (h : Exn → M A) : M A :=
  λ w, match m w with
       | (Returned a, w') => (Returned a, w')
       | (Thrown e, w') => h e w'
       end.

(** A call of an [async] method whose promise is dropped: neither its value
    nor its rejection reaches the caller. *)
Definition detach {A} (m : M A) : M unit :=
  λ w, (Returned tt, (m w).2).

Definition gets {A} (f : World → A) : M A := λ w, (Returned (f w), w).

Definition modify (f : World → World) : M unit := λ w, (Returned tt, f w).

Definition record (c : Call) : M unit := modify (add_call c).

Definition spawn (t : Task) : M unit := modify (add_task t).

(** Ask the oracle and advance its counter. *)
Definition query {A} (f : nat → A) : M A := λ w, (Returned (f (tick w)), bump w).

Definition new_captions (o : CaptionsObj) : M capref :=
  λ w, let '(a, h) := alloc_captions o (heap w) in (Returned a, set_heap h w).

Definition new_captionData (o : CaptionData.t) : M cdref :=
  λ w, let '(a, h) := alloc_captionData o (heap w) in (Returned a, set_heap h w).

(** Allocate the object, if there is one. *)
Definition new_captions_opt (o : option CaptionsObj) : M (option capref) :=
  match o with
  | Some c => a <- new_captions c ;; ret (Some a)
  | None => ret None
  end.

Definition new_captionData_opt (o : option CaptionData.t) : M (option cdref) :=
  match o with
  | Some c => a <- new_captionData c ;; ret (Some a)
  | None => ret None
  end.

(* ================================================================== *)
(** * The methods of [SubtitleManager] *)
(* ================================================================== *)

Section Methods.
Variable env : Env.

(** ** Browser primitives *)

(** [Date.now()] *)
Definition now : M Z := query (Date_now env).

(** [this.db.transaction([...], mode)]: may throw. *)
Definition transaction (readwrite : bool) : M unit :=
  record (IdbTransaction readwrite) ;;
  throws <- query (idb_transaction_throws env) ;;
  if throws : bool then throw IdbException else ret tt.

(** An IndexedDB request: [true] when [onsuccess] fires, [false] when
    [onerror] does.  Requests of one connection take effect in the order
    they are made, so the store changes when the request is made. *)
Definition request (c : Call) : M bool :=
  record c ;;
  fails <- query (idb_request_fails env) ;;
  ret (negb fails).

(** [chrome.storage.sync.get([key])] *)
Definition chrome_storage_sync_get (key : string) : M (option string) :=
  record (StorageSyncGet key) ;;
  rejects <- query (chrome_storage_rejects env) ;;
  if rejects : bool then throw StorageError
  else gets (λ w, storage_sync w !! key).

(** [chrome.storage.local.get([key])] *)
Definition chrome_storage_local_get (key : string) : M (option string) :=
  record (StorageLocalGet key) ;;
  rejects <- query (chrome_storage_rejects env) ;;
  if rejects : bool then throw StorageError
  else gets (λ w, storage_local w !! key).

(** [chrome.storage.local.set({ [key]: value })] *)
Definition chrome_storage_local_set (key value : string) : M unit :=
  record (StorageLocalSet key value) ;;
  rejects <- query (chrome_storage_rejects env) ;;
  if rejects : bool then throw StorageError
  else modify (λ w, set_storage_local (<[key := value]> (storage_local w)) w).

(** [await fetch(...)]: rejects on a network failure. *)
Definition fetch {A} (endpoint : Endpoint) (videoId : string)
    (answer : nat → Http A) : M (Response A) :=
  record (HttpFetch endpoint videoId) ;;
  r <- query answer ;;
  match r with
  | NetworkFailure => throw (NetworkError endpoint)
  | Responded st b => ret (mkResponse st b)
  end.

(** [await response.json()]: rejects when the body is not JSON. *)
Definition json {A} (r : Response A) : M A :=
  match body r with
  | Some a => ret a
  | None => throw SyntaxError
  end.

(** ** Persistent tier *)

(** [initIndexedDB]: resolves (and sets [this.db]) on [onsuccess], rejects
    on [onerror]. *)
Definition initIndexedDB : M unit :=
  record IdbOpen ;;
  opened <- query (indexedDB_open env) ;;
  if opened : bool then modify (set_db (Some tt)) else throw IdbOpenError.

(** [if (!this.db) await this.initIndexedDB();] *)
Definition ensure_db : M unit :=
  d <- gets db ;;
  match d with
  | None => initIndexedDB
  | Some _ => ret tt
  end.

(** [deleteFromIndexedDB(videoId)] *)
Definition deleteFromIndexedDB (videoId : string) : M bool :=
  d <- gets db ;;
  match d with
  | None => ret false
  | Some _ =>
      try_catch
        (transaction true ;;
         succeeded <- request (IdbDelete videoId) ;;
         if succeeded : bool then
           modify (λ w, set_idb_store (delete videoId (idb_store w)) w) ;;
           ret true
         else ret false)
        (λ _, ret false)
  end.

(** Structured deserialization of a stored row into fresh objects. *)
Definition deserialize (r : Row.t) : M RowData.t :=
  c <- new_captions_opt (Row.captions r) ;;
  d <- new_captionData_opt (Row.captionData r) ;;
  ret (RowData.mk (Row.videoId r) c d (Row.cachedAt r)).

(** [getFromIndexedDB(videoId)] *)
Definition getFromIndexedDB (videoId : string) : M (option LocalHit.t) :=
  ensure_db ;;
  try_catch
    (transaction false ;;
     succeeded <- request (IdbGet videoId) ;;
     if succeeded : bool then
       stored <- gets (λ w, idb_store w !! videoId) ;;
       match stored with
       | Some r =>
           data <- deserialize r ;;
           t <- now ;;
           let age := (t - RowData.cachedAt data)%Z in
           if (age <? cacheExpiry)%Z then ret (Some (LocalHit.mk data age))
           else
             detach (deleteFromIndexedDB videoId) ;;
             ret None
       | None => ret None
       end
     else ret None)
    (λ _, ret None).

(** The structured clone that [store.put] makes of
    [{videoId, captions, captionData, cachedAt}]. *)
Definition clone_row (h : Heap) (videoId : string)
    (captions : option capref) (captionData : option cdref) (cachedAt : Z) : Row.t :=
  Row.mk videoId (deref_captions h captions) (deref_captionData h captionData) cachedAt.

(** [saveToIndexedDB(videoId, data)], reading [data.captions] and
    [data.captionData]. *)
Definition saveToIndexedDB (videoId : string)
    (captions : option capref) (captionData : option cdref) : M bool :=
  ensure_db ;;
  try_catch
    (transaction true ;;
     t <- now ;;
     cacheData <- gets (λ w, clone_row (heap w) videoId captions captionData t) ;;
     succeeded <- request (IdbPut cacheData) ;;
     if succeeded : bool then
       modify (λ w, set_idb_store (<[videoId := cacheData]> (idb_store w)) w) ;;
       ret true
     else ret false)
    (λ _, ret false).

(** ** Auth token *)

(** [getOrCreateTempUserId] *)
Definition getOrCreateTempUserId : M string :=
  tempUserId <- chrome_storage_local_get "tempUserId" ;;
  if falsy_opt tempUserId then
    r <- query (Math_random_id env) ;;
    let newId := "temp_" +:+ r in
    chrome_storage_local_set "tempUserId" newId ;;
    ret newId
  else ret (or_else tempUserId "").

(** [getAuthToken]: [null] is [None]. *)
Definition getAuthToken : M (option string) :=
  try_catch
    (vocabToken <- chrome_storage_sync_get "vocabToken" ;;
     if falsy_opt vocabToken then
       tempUserId <- getOrCreateTempUserId ;;
       t <- now ;;
       ret (Some (btoa env (tempUserId +:+ ":" +:+ pretty t)))
     else ret vocabToken)
    (λ _, ret None).

(** ** Volatile tier *)

(** [addToMemoryCache(videoId, captions, captionData)] *)
Definition addToMemoryCache (videoId : string)
    (captions : option capref) (captionData : option cdref) : M unit :=
  t <- now ;;
  modify (λ w, set_memoryCache
                 (JsMap.set videoId (MemEntry.mk captions captionData t) (memoryCache w)) w) ;;
  m <- gets memoryCache ;;
  if (maxMemoryCacheSize <? JsMap.size m)%nat then
    match JsMap.first_key m with
    | Some firstKey => modify (set_memoryCache (JsMap.delete firstKey m))
    | None => ret tt
    end
  else ret tt.

(** [clearMemoryCache()] *)
Definition clearMemoryCache : M unit :=
  modify (λ w, set_memoryCache (JsMap.clear (memoryCache w)) w).

(** ** Remote quota service *)

(** [checkCacheAndLimits(videoId)] *)
Definition checkCacheAndLimits (videoId : string) : M ServerResponse.t :=
  record (Invoke M_checkCacheAndLimits) ;;
  try_catch
    (token <- getAuthToken ;;
     if falsy_opt token then ret fail_open
     else
       response <- fetch FetchOrCache videoId
                     (λ n, fetch_or_cache env n videoId (or_else token "")) ;;
       if ok response || (status response =? 429)%Z then json response
       else ret fail_open)
    (λ _, ret fail_open).

(** [storeInServerCache(videoId, videoTitle, channelName, subtitleData)] *)
Definition storeInServerCache (videoId : string) (videoTitle channelName : option string)
    (subtitleData : FetchResult.t) : M unit :=
  record (Invoke M_storeInServerCache) ;;
  try_catch
    (token <- getAuthToken ;;
     if falsy_opt token then ret tt
     else
       fetch StoreCache videoId (λ n, fetch_post env n StoreCache) ;;
       ret tt)
    (λ _, ret tt).

(** [logFetch(videoId, videoTitle, success, source, fromCache)] *)
Definition logFetch (videoId : string) (videoTitle : option string) (success : bool)
    (source : string) (fromCache : bool) : M unit :=
  record (Invoke M_logFetch) ;;
  try_catch
    (token <- getAuthToken ;;
     if falsy_opt token then ret tt
     else
       fetch LogFetch videoId (λ n, fetch_post env n LogFetch) ;;
       ret tt)
    (λ _, ret tt).

(** [logVocabuminAPIResponse(videoId, statusCode, responseTimeMs, success,
    errorMessage)] *)
Definition logVocabuminAPIResponse (videoId : string) (statusCode : Z) (success : bool)
    (errorMessage : option string) : M unit :=
  record (Invoke M_logVocabuminAPIResponse) ;;
  try_catch
    (token <- getAuthToken ;;
     if falsy_opt token then ret tt
     else
       fetch RailwayHealthLog videoId (λ n, fetch_post env n RailwayHealthLog) ;;
       ret tt)
    (λ _, ret tt).

(** The body of a detached task. *)
Definition run_task (t : Task) : M unit :=
  match t with
  | TaskStoreInServerCache videoId videoTitle channelName subtitleData =>
      storeInServerCache videoId videoTitle channelName subtitleData
  | TaskLogFetch videoId videoTitle success source fromCache =>
      logFetch videoId videoTitle success source fromCache
  | TaskLogVocabuminAPIResponse videoId statusCode success errorMessage =>
      logVocabuminAPIResponse videoId statusCode success errorMessage
  end.

(** ** Source fetcher *)

(** [\s] on Latin-1 code units. *)
Definition is_whitespace (c : ascii) : bool :=
  let n := nat_of_ascii c in
  ((9 <=? n) && (n <=? 13) || (n =? 32) || (n =? 160))%nat.

(** [text.split(/\s+/)]: [cur] is the piece being read, [in_gap] tells
    whether the previous character was whitespace. *)
Fixpoint split_whitespace (s cur : string) (in_gap : bool) : list string :=
  match s with
  | EmptyString => [cur]
  | String c s' =>
      if is_whitespace c then
        if in_gap then split_whitespace s' cur true
        else cur :: split_whitespace s' EmptyString true
      else split_whitespace s' (cur +:+ String c EmptyString) false
  end.

(** [/[.,!?;:]/] *)
Definition is_punctuation (c : ascii) : bool :=
  bool_decide (c ∈ ["."; ","; "!"; "?"; ";"; ":"]%char).

(** The last character of a non-empty string and what precedes it. *)
Fixpoint split_last (s : string) : option (string * ascii) :=
  match s with
  | EmptyString => None
  | String c s' =>
      match split_last s' with
      | None => Some (EmptyString, c)
      | Some (init, l) => Some (String c init, l)
      end
  end.

(** [{ text: word.replace(/[.,!?;:]$/, ''),
       punctuation: /[.,!?;:]$/.test(word) ? word.slice(-1) : '' }] *)
Definition word_of (word : string) : Word.t :=
  match split_last word with
  | Some (init, l) =>
      if is_punctuation l then Word.mk init (String l EmptyString)
      else Word.mk word EmptyString
  | None => Word.mk word EmptyString
  end.

(** [extractWordsFromText(text)] *)
Definition extractWordsFromText (text : string) : list Word.t :=
  word_of <$> filter (λ word, (0 <? String.length word)%nat)
                (split_whitespace text EmptyString false).

(** [data.transcript?.snippets || data.transcript], as far as it is an
    array with a [length]. *)
Definition snippets_of (tr : option Transcript) : option (list Snippet.t) :=
  match tr with
  | Some (TranscriptObject (Some l) _) => Some l
  | Some (TranscriptObject None _) => None
  | Some (TranscriptArray l) => Some l
  | None => None
  end.

(** [data.transcript?.is_generated || false] *)
Definition is_generated_of (tr : option Transcript) : bool :=
  match tr with
  | Some (TranscriptObject _ g) => g
  | _ => false
  end.

(** [isGenerated ? 0.45 : 1.0] *)
Definition durationMultiplier (isGenerated : bool) : float :=
  if isGenerated then 0.45%float else 1.0%float.

(** The arrow function mapped over the snippets. *)
Definition caption_of (durationMultiplier : float) (segment : Snippet.t) : Caption.t :=
  Caption.mk
    (Snippet.start segment)
    (Snippet.start segment + Snippet.duration segment * durationMultiplier)%float
    (Snippet.text segment)
    (extractWordsFromText (Snippet.text segment)).

(** The structured error of the cloud path. *)
Definition vocabumin_failure (data : VocabuminData.t) : FetchResult.t :=
  let errorType := or_else (VocabuminData.error_type data) "unknown" in
  let errorMessage := or_else (VocabuminData.error data) "Unknown error" in
  let isUserSideIssue :=
    bool_decide (errorType ∈ ["no_transcript"; "transcripts_disabled"; "video_unavailable"]) in
  let isServerIssue :=
    bool_decide (errorType ∈ ["server_error"; "youtube_ip_blocked"; "network_error"])
    || negb (truthy errorType) in
  FetchResult.mk false None None None
    (Some (Failure.mk errorType errorMessage isUserSideIssue isServerIssue
             (VocabuminData.warp_active data))).

(** [error.message]; the wording is the browser's. *)
Definition message (e : Exn) : string :=
  match e with
  | IdbOpenError => "IndexedDB open failed"
  | IdbException => "IndexedDB transaction failed"
  | StorageError => "chrome.storage failed"
  | NetworkError _ => "Failed to fetch"
  | SyntaxError => "Unexpected token in JSON"
  | TypeError => "Cannot read properties of undefined"
  end.

(** [fetchFromVocabumin(videoId)] *)
Definition fetchFromVocabumin (videoId : string) : M FetchResult.t :=
  record (Invoke M_fetchFromVocabumin) ;;
  try_catch
    (response <- fetch TranscriptApi videoId (λ n, fetch_transcript env n videoId) ;;
     if ok response then
       data <- json response ;;
       let snippets := snippets_of (VocabuminData.transcript data) in
       let isGenerated := is_generated_of (VocabuminData.transcript data) in
       match snippets with
       | Some (s :: ss) =>
           if VocabuminData.success data then
             spawn (TaskLogVocabuminAPIResponse videoId (status response) true None) ;;
             captions <- new_captions
               (CaptionArray (caption_of (durationMultiplier isGenerated) <$> (s :: ss))) ;;
             captionData <- new_captionData
               (CaptionData.mk
                  (Some (or_else (VocabuminData.language data) "en"))
                  (Some (if isGenerated then "auto-generated" else "manual"))
                  (Some "vocabumin")) ;;
             ret (FetchResult.mk true (Some captions) None (Some captionData) None)
           else ret (vocabumin_failure data)
       | _ => ret (vocabumin_failure data)
       end
     else
       spawn (TaskLogVocabuminAPIResponse videoId (status response) false
                (Some ("HTTP " +:+ pretty (status response)))) ;;
       ret fetch_failed)
    (λ error,
       spawn (TaskLogVocabuminAPIResponse videoId 0 false (Some (message error))) ;;
       ret fetch_failed).

(** The local path of [fetchFromYtDlp]: JSON3 first, then VTT. *)
Definition fetchFromLocalYtDlp (videoId : string) : M FetchResult.t :=
  try_catch
    (response <- fetch ExtractSubsJson3 videoId
                   (λ n, fetch_ytdlp env n ExtractSubsJson3 videoId) ;;
     json3 <-
       (if ok response then
          data <- json response ;;
          if YtDlpData.success data then
            captions <- new_captions_opt (CaptionArray <$> YtDlpData.caption_groups data) ;;
            captionData <- new_captionData
              (CaptionData.mk (YtDlpData.language data) (YtDlpData.subtitle_type data)
                 (Some "local-ytdlp")) ;;
            ret (Some (FetchResult.mk true captions None (Some captionData) None))
          else ret None
        else ret None) ;;
     match json3 with
     | Some result => ret result
     | None =>
         vttResponse <- fetch ExtractSubs videoId
                          (λ n, fetch_ytdlp env n ExtractSubs videoId) ;;
         vtt <-
           (if ok vttResponse then
              vttData <- json vttResponse ;;
              if YtDlpData.success vttData then
                captionData <- new_captionData
                  (CaptionData.mk (YtDlpData.language vttData) (Some "vtt")
                     (Some "local-ytdlp")) ;;
                ret (Some (FetchResult.mk true None (YtDlpData.content vttData)
                             (Some captionData) None))
              else ret None
            else ret None) ;;
         match vtt with
         | Some result => ret result
         | None => ret fetch_failed
         end
     end)
    (λ _, ret fetch_failed).

(** [fetchFromYtDlp(videoId)] *)
Definition fetchFromYtDlp (videoId : string) : M FetchResult.t :=
  record (Invoke M_fetchFromYtDlp) ;;
  subtitleServer <- chrome_storage_sync_get "subtitleServer" ;;
  let preferredServer := or_else subtitleServer "cloud" in
  if decide (preferredServer = "cloud") then fetchFromVocabumin videoId
  else fetchFromLocalYtDlp videoId.

(** ** The orchestrator *)

(** [subtitles.language] *)
Definition subtitles_language (s : ServerSubtitles) : option string :=
  match s with
  | SubsObject _ l => l
  | SubsArray _ => None
  end.

(** [subtitles.captions || subtitles] *)
Definition captions_or_self (s : ServerSubtitles) : CaptionsObj :=
  match s with
  | SubsObject (Some cs) _ => CaptionArray cs
  | SubsObject None l => SubtitlesObject l
  | SubsArray items => CaptionArray items
  end.

Definition incr_memoryHits (w : World) : World :=
  let s := stats w in
  set_stats (Stats.mk (S (Stats.memoryHits s)) (Stats.indexedDBHits s)
               (Stats.serverHits s) (Stats.misses s)) w.

Definition incr_indexedDBHits (w : World) : World :=
  let s := stats w in
  set_stats (Stats.mk (Stats.memoryHits s) (S (Stats.indexedDBHits s))
               (Stats.serverHits s) (Stats.misses s)) w.

Definition incr_serverHits (w : World) : World :=
  let s := stats w in
  set_stats (Stats.mk (Stats.memoryHits s) (Stats.indexedDBHits s)
               (S (Stats.serverHits s)) (Stats.misses s)) w.

Definition incr_misses (w : World) : World :=
  let s := stats w in
  set_stats (Stats.mk (Stats.memoryHits s) (Stats.indexedDBHits s)
               (Stats.serverHits s) (S (Stats.misses s))) w.

(** [{ error: 'No video ID provided', cached: false }] *)
Definition result_no_video_id : Result.t :=
  Result.mk (Some "No video ID provided") (Some false)
    None None None None None None None None None None None.

(** STEP 1, the object returned on a memory hit. *)
Definition result_memory (cached : MemEntry.t) (age : Z) : Result.t :=
  Result.mk None (Some true)
    (MemEntry.captions cached) (MemEntry.captionData cached) (Some "memory")
    (Some (Math_round_div age 1000)) (Some (Math_round_div age (1000 * 60)))
    None None None None None None.

(** STEP 2, the object returned on an IndexedDB hit. *)
Definition result_local_cache (localCache : LocalHit.t) (ageMin : Z) : Result.t :=
  Result.mk None (Some true)
    (RowData.captions (LocalHit.data localCache))
    (RowData.captionData (LocalHit.data localCache)) (Some "local_cache")
    None (Some ageMin) None None None None None None.

(** STEP 3, the object returned on a server-cache hit. *)
Definition result_server_cache (captions : capref) (captionData : cdref)
    (serverResponse : ServerResponse.t) : Result.t :=
  Result.mk None (Some true) (Some captions) (Some captionData) (Some "server_cache")
    None None (ServerResponse.hit_count serverResponse)
    (ServerResponse.age_days serverResponse) None None None None.

(** STEP 4, the rate-limit error. *)
Definition result_rate_limited (serverResponse : ServerResponse.t) : Result.t :=
  let waitMin := (λ t, Math_ceil_div t 60) <$> ServerResponse.waitTime serverResponse in
  Result.mk (Some ("Rate limited. Wait " +:+ render_number waitMin +:+ " minutes."))
    None None None None None None None None
    (ServerResponse.waitTime serverResponse) (ServerResponse.usage serverResponse)
    None None.

(** STEP 5, [{ error: 'Failed to fetch subtitles', cached: false }]. *)
Definition result_fetch_failed : Result.t :=
  Result.mk (Some "Failed to fetch subtitles") (Some false)
    None None None None None None None None None None None.

(** STEP 6, [{ ...fetchResult, source: fetchSource, cached: false }]. *)
Definition result_fresh (fetchResult : FetchResult.t) (fetchSource : string) : Result.t :=
  Result.mk None (Some false)
    (FetchResult.captions fetchResult) (FetchResult.captionData fetchResult)
    (Some fetchSource) None None None None None None
    (Some (FetchResult.success fetchResult)) (FetchResult.content fetchResult).

(** STEP 6: store the fresh fetch in all caches and return it. *)
Definition storeFreshFetch (videoId : string) (videoTitle channelName : option string)
    (fetchResult : FetchResult.t) : M Result.t :=
  source <- gets (λ w, deref_captionData (heap w) (FetchResult.captionData fetchResult)
                         ≫= CaptionData.source) ;;
  let fetchSource := or_else source "unknown" in
  addToMemoryCache videoId (FetchResult.captions fetchResult)
    (FetchResult.captionData fetchResult) ;;
  detach (saveToIndexedDB videoId (FetchResult.captions fetchResult)
            (FetchResult.captionData fetchResult)) ;;
  spawn (TaskStoreInServerCache videoId videoTitle channelName fetchResult) ;;
  spawn (TaskLogFetch videoId videoTitle true fetchSource false) ;;
  ret (result_fresh fetchResult fetchSource).

(** STEP 3 onwards: both local tiers missed. *)
Definition fetchRemote (videoId : string) (videoTitle channelName : option string)
    : M Result.t :=
  serverResponse <- checkCacheAndLimits videoId ;;
  if ServerResponse.cached serverResponse then
    modify incr_serverHits ;;
    match ServerResponse.subtitles serverResponse with
    | None => throw TypeError
    | Some subtitles =>
        captionData <- new_captionData
          (CaptionData.mk (Some (or_else (subtitles_language subtitles) "en")) None
             (Some "server_cache")) ;;
        captions <- new_captions (captions_or_self subtitles) ;;
        addToMemoryCache videoId (Some captions) (Some captionData) ;;
        detach (saveToIndexedDB videoId (Some captions) (Some captionData)) ;;
        ret (result_server_cache captions captionData serverResponse)
    end
  else if negb (ServerResponse.allowed serverResponse) then
    ret (result_rate_limited serverResponse)
  else
    modify incr_misses ;;
    fetchResult <- fetchFromYtDlp videoId ;;
    if negb (FetchResult.success fetchResult) then ret result_fetch_failed
    else storeFreshFetch videoId videoTitle channelName fetchResult.

(** [fetchSubtitles(videoId, videoTitle = null, channelName = null)] *)
Definition fetchSubtitles (videoId : string) (videoTitle channelName : option string)
    : M Result.t :=
  if negb (truthy videoId) then ret result_no_video_id
  else
    modify (set_currentVideoId (Some videoId)) ;;
    m <- gets memoryCache ;;
    if JsMap.has videoId m then
      match JsMap.get videoId m with
      | None => throw TypeError
      | Some cached =>
          t <- now ;;
          let age := (t - MemEntry.timestamp cached)%Z in
          modify incr_memoryHits ;;
          ret (result_memory cached age)
      end
    else
      localCache <- getFromIndexedDB videoId ;;
      match localCache with
      | Some hit =>
          let ageMin := Math_round_div (LocalHit.age hit) (1000 * 60) in
          modify incr_indexedDBHits ;;
          addToMemoryCache videoId (RowData.captions (LocalHit.data hit))
            (RowData.captionData (LocalHit.data hit)) ;;
          ret (result_local_cache hit ageMin)
      | None => fetchRemote videoId videoTitle channelName
      end.

(** [clearAllCaches()] *)
Definition clearAllCaches : M unit :=
  clearMemoryCache ;;
  d <- gets db ;;
  match d with
  | None => ret tt
  | Some _ =>
      transaction true ;;
      succeeded <- request IdbClear ;;
      if succeeded : bool then modify (set_idb_store ∅) else ret tt
  end.

(** [new SubtitleManager(...)]: the instance fields are set and the store
    is opened without awaiting. *)
Definition constructor : M unit :=
  modify (set_memoryCache JsMap.empty) ;;
  modify (set_currentVideoId None) ;;
  modify (set_db None) ;;
  detach initIndexedDB ;;
  modify (set_stats (Stats.mk 0 0 0 0)).

End Methods.

(** The calls a run added to the trace. *)
Definition new_calls (w w' : World) : list Call := drop (length (trace w)) (trace w').

(** The tasks a run detached. *)
Definition new_tasks (w w' : World) : list Task :=
  drop (length (background w)) (background w').

(** A call that reaches a remote service. *)
Definition is_remote (c : Call) : bool :=
  match c with
  | HttpFetch _ _ => true
  | Invoke _ => true
  | _ => false
  end.

(** A call that invokes the source fetcher. *)
Definition is_source_fetch (c : Call) : bool :=
  match c with
  | HttpFetch TranscriptApi _ | HttpFetch ExtractSubsJson3 _ | HttpFetch ExtractSubs _ => true
  | Invoke M_fetchFromYtDlp | Invoke M_fetchFromVocabumin => true
  | _ => false
  end.

(** A call that writes a row into the persistent tier. *)
Definition is_idb_put (c : Call) : bool :=
  match c with
  | IdbPut _ => true
  | _ => false
  end.

(* ================================================================== *)
(** * Specification vocabulary *)
(* ================================================================== *)

(** The effect of [addToMemoryCache] on the map: insert or overwrite, then
    drop the first key if the size exceeds the bound. *)
Definition put_entry (videoId : string) (e : MemEntry.t) (m : JsMap.t MemEntry.t)
    : JsMap.t MemEntry.t :=
  let m1 := JsMap.set videoId e m in
  if (maxMemoryCacheSize <? JsMap.size m1)%nat then
    match JsMap.first_key m1 with
    | Some firstKey => JsMap.delete firstKey m1
    | None => m1
    end
  else m1.

(** The representation invariant of a [Map] (no key twice) together with
    the bound of the volatile tier. *)
Definition cache_ok (m : JsMap.t MemEntry.t) : Prop :=
  NoDup (JsMap.keys m) ∧ JsMap.size m ≤ maxMemoryCacheSize.

(** What a client can do to the volatile tier. *)
Inductive CacheOp :=
  | OpPut (videoId : string) (captions : option capref) (captionData : option cdref)
  | OpClear.

Definition run_op (env : Env) (op : CacheOp) : M unit :=
  match op with
  | OpPut videoId captions captionData => addToMemoryCache env videoId captions captionData
  | OpClear => clearMemoryCache
  end.

Fixpoint run_ops (env : Env) (ops : list CacheOp) : M unit :=
  match ops with
  | [] => ret tt
  | op :: ops' => run_op env op ;; run_ops env ops'
  end.

(** IndexedDB answers every transaction and request without a fault. *)
Definition idb_healthy (env : Env) : Prop :=
  ∀ n, idb_transaction_throws env n = false ∧ idb_request_fails env n = false.

(** ** Frame conditions

    [steps R m]: every run of [m], whatever it returns or throws, takes a
    world to an [R]-related world. *)
Definition steps (R : relation World) {A} (m : M A) : Prop :=
  ∀ w, R w (m w).2.

(** The volatile tier is left as it is. *)
Definition same_memoryCache : relation World :=
  λ w w', memoryCache w' = memoryCache w.

(** An open store handle stays open. *)
Definition db_stays_open : relation World :=
  λ w w', db w = Some tt → db w' = Some tt.

(** The trace only grows, and by calls that satisfy [P]. *)
Definition adds_calls (P : Call → bool) : relation World :=
  λ w w', ∃ l, trace w' = trace w ++ l ∧ forallb P l = true.

(** The list of detached tasks only grows. *)
Definition adds_tasks (P : Task → bool) : relation World :=
  λ w w', ∃ l, background w' = background w ++ l ∧ forallb P l = true.

(** The persistent tier is left as it is. *)
Definition same_idb_store : relation World :=
  λ w w', idb_store w' = idb_store w.

(** The persistent tier is left as it is, or loses the row of [videoId]. *)
Definition store_same_or_deleted (videoId : string) : relation World :=
  λ w w', idb_store w' = idb_store w ∨ idb_store w' = delete videoId (idb_store w).

(** Every key of either local tier is a truthy video id. *)
Definition keys_truthy (w : World) : Prop :=
  (∀ k, k ∈ JsMap.keys (memoryCache w) → truthy k = true)
  ∧ (∀ k, is_Some (idb_store w !! k) → truthy k = true).

(** A run keeps the keys of both tiers truthy. *)
Definition keeps_keys_truthy : relation World :=
  λ w w', keys_truthy w → keys_truthy w'.

Definition not_source_fetch (c : Call) : bool := negb (is_source_fetch c).

Definition not_remote (c : Call) : bool := negb (is_remote c).

Definition not_idb_put (c : Call) : bool := negb (is_idb_put c).

(** A call of the remote store or the analytics log. *)
Definition is_store_or_log (c : Call) : bool :=
  match c with
  | HttpFetch StoreCache _ | HttpFetch LogFetch _ => true
  | Invoke M_storeInServerCache | Invoke M_logFetch => true
  | _ => false
  end.

Definition not_store_or_log (c : Call) : bool := negb (is_store_or_log c).

Definition any_task (t : Task) : bool := true.

Definition no_task (t : Task) : bool := false.

(** The clock value that a read started in [w] compares against, when the
    store is already open: the transaction and the request each take one
    oracle answer before [Date.now()] is called. *)
Definition read_clock (env : Env) (w : World) : Z := Date_now env (S (S (tick w))).

(** The world after the transaction and the request of a read. *)
Definition after_read_request (videoId : string) (w : World) : World :=
  bump (add_call (IdbGet videoId) (bump (add_call (IdbTransaction false) w))).

(** [data] is the deserialization of [row] in the heap [h]: same key and
    stamp, and the fresh objects have the stored contents. *)
Definition deserialized (h : Heap) (row : Row.t) (data : RowData.t) : Prop :=
  RowData.videoId data = Row.videoId row
  ∧ RowData.cachedAt data = Row.cachedAt row
  ∧ deref_captions h (RowData.captions data) = Row.captions row
  ∧ deref_captionData h (RowData.captionData data) = Row.captionData row.

(** Reading the same key again and again, each time in whatever browser
    conditions [envs] lists. *)
Fixpoint read_again (envs : list Env) (videoId : string) (w : World) : World :=
  match envs with
  | [] => w
  | env :: envs' => read_again envs' videoId (getFromIndexedDB env videoId w).2
  end.

(** The copy discipline as the specification words it, for the volatile
    tier: what a get returns after a put is equal to what was put, and is
    not the same reference. *)
Definition volatile_tier_copies (env : Env) (w : World) (videoId : string)
    (captions : capref) (captionData : cdref) : Prop :=
  let w1 := (addToMemoryCache env videoId (Some captions) (Some captionData) w).2 in
  ∀ entry,
    JsMap.get videoId (memoryCache w1) = Some entry →
    deref_captions (heap w1) (MemEntry.captions entry)
    = deref_captions (heap w) (Some captions)
    ∧ MemEntry.captions entry ≠ Some captions.

(** The row is at or past the expiry window at some reading of the clock. *)
Definition expired_at (env : Env) (row : Row.t) : Prop :=
  ∃ n, (cacheExpiry ≤ Date_now env n - Row.cachedAt row)%Z.

(** What a call that ends in an error may do to the world: nothing to the
    volatile tier, no put into the persistent tier, and to the store at
    most the deletion of the row of [videoId]. *)
Definition error_path_frame (videoId : string) : relation World :=
  λ w w', same_memoryCache w w'
          ∧ store_same_or_deleted videoId w w'
          ∧ adds_calls not_idb_put w w'.

(** The claim that an error path leaves both tiers untouched for the id. *)
Definition error_leaves_tiers_untouched (env : Env) (w : World) (videoId : string) : Prop :=
  ∀ r w',
    fetchSubtitles env videoId None None w = (Returned r, w') →
    is_Some (Result.error r) →
    JsMap.get videoId (memoryCache w') = JsMap.get videoId (memoryCache w)
    ∧ idb_store w' !! videoId = idb_store w !! videoId.

(** ** Sample inputs *)

(** A browser in which the store opens, nothing faults, nothing is stored
    in chrome.storage, and the remote services answer as given. *)
Definition sample_env (decision : Http ServerResponse.t)
    (transcript : Http VocabuminData.t) : Env :=
  mkEnv (λ n, 1700000000000 + 1000 * Z.of_nat n)%Z
    (λ _, true) (λ _, false) (λ _, false) (λ _, false)
    (λ _ _ _, decision) (λ _ _, transcript)
    (λ _ _ _, NetworkFailure) (λ _ _, Responded 200 (Some tt))
    (λ _, "k3j9x0q2a") (λ s, s).

(** A browser in which [indexedDB.open] fails. *)
Definition broken_store_env : Env :=
  mkEnv (λ n, 1700000000000 + 1000 * Z.of_nat n)%Z
    (λ _, false) (λ _, false) (λ _, false) (λ _, false)
    (λ _ _ _, Responded 200 (Some fail_open)) (λ _ _, NetworkFailure)
    (λ _ _ _, NetworkFailure) (λ _ _, NetworkFailure)
    (λ _, "k3j9x0q2a") (λ s, s).

(** Nothing cached, nothing stored, store not opened yet. *)
Definition fresh_world : World :=
  mkWorld JsMap.empty None None (Stats.mk 0 0 0 0) empty_heap ∅ ∅ ∅ 0 [] [].

(** The quota decision [{allowed:false, reason:"burst_limit", waitTime:300}]. *)
Definition burst_limit_decision : ServerResponse.t :=
  ServerResponse.mk false None None None false (Some "burst_limit") (Some 300%Z)
    (Some (Usage.mk "5/5" "7/20" "9/50")).

(** A machine-generated transcript with the one segment
    [{start:10, duration:4}]. *)
Definition generated_transcript : VocabuminData.t :=
  VocabuminData.mk true
    (Some (TranscriptObject (Some [Snippet.mk 10 4 "Hello, world."]) true))
    None None None None.

(** A store, already open, that holds one row for ["abc123"] stamped
    [cachedAt]. *)
Definition world_with_row (cachedAt : Z) : World :=
  mkWorld JsMap.empty None (Some tt) (Stats.mk 0 0 0 0) empty_heap
    {[ "abc123" :=
         Row.mk "abc123" (Some (CaptionArray []))
           (Some (CaptionData.mk (Some "en") (Some "manual") (Some "vocabumin")))
           cachedAt ]}
    ∅ ∅ 0 [] [].

(** A manager that holds ["abc123"] in its volatile tier. *)
Definition world_with_memory : World :=
  mkWorld [("abc123", MemEntry.mk (Some 0) (Some 0) 1699999990000%Z)]
    (Some "abc123") (Some tt) (Stats.mk 0 0 0 1)
    (mkHeap [CaptionArray []]
       [CaptionData.mk (Some "en") (Some "manual") (Some "vocabumin")])
    ∅ ∅ ∅ 0 [] [].

(** A manager with one payload on the heap (an array of one caption, and
    its [captionData]), the store open, nothing cached. *)
Definition sample_caption : Caption.t :=
  Caption.mk 10 14 "Hello, world."
    [Word.mk "Hello" ","; Word.mk "world" "."].

Definition world_with_payload : World :=
  mkWorld JsMap.empty None (Some tt) (Stats.mk 0 0 0 0)
    (mkHeap [CaptionArray [sample_caption]]
       [CaptionData.mk (Some "en") (Some "manual") (Some "vocabumin")])
    ∅ ∅ ∅ 0 [] [].

(** A browser whose local extraction server answers 404 on
    [/extract-subs-json3] and a VTT document on [/extract-subs]; the quota
    service allows the fetch. *)
Definition vtt_document : string := "WEBVTT 00:00:10.000 --> 00:00:14.000 Hello, world.".

Definition local_vtt_env : Env :=
  mkEnv (λ n, 1700000000000 + 1000 * Z.of_nat n)%Z
    (λ _, true) (λ _, false) (λ _, false) (λ _, false)
    (λ _ _ _, Responded 200 (Some fail_open)) (λ _ _, NetworkFailure)
    (λ _ endpoint _,
       match endpoint with
       | ExtractSubs =>
           Responded 200
             (Some (YtDlpData.mk true None (Some vtt_document) (Some "en") None))
       | _ => Responded 404 None
       end)
    (λ _ _, Responded 200 (Some tt))
    (λ _, "k3j9x0q2a") (λ s, s).

(** A fresh manager of a user who selected the local server. *)
Definition world_prefers_local : World :=
  mkWorld JsMap.empty None None (Stats.mk 0 0 0 0) empty_heap ∅
    {[ "subtitleServer" := "local" ]} ∅ 0 [] [].

(** ** Vocabulary for the properties of the remaining methods *)

(** The token a word was cut from: its text followed by its punctuation. *)
Definition word_source (w : Word.t) : string := Word.text w +:+ Word.punctuation w.

(** A text without its whitespace characters. *)
Fixpoint strip_whitespace (s : string) : string :=
  match s with
  | EmptyString => EmptyString
  | String c s' =>
      if is_whitespace c then strip_whitespace s' else String c (strip_whitespace s')
  end.

(** [pieces.join('')] *)
Definition join_strings (pieces : list string) : string :=
  foldr String.append EmptyString pieces.

(** [chrome.storage.sync] is left as it is. *)
Definition same_sync_storage : relation World :=
  λ w w', storage_sync w' = storage_sync w.

(** The performance counters are left as they are. *)
Definition same_stats : relation World :=
  λ w w', stats w' = stats w.

(** [this.currentVideoId] is left as it is. *)
Definition same_currentVideoId : relation World :=
  λ w w', currentVideoId w' = currentVideoId w.

(** Everything but the trace, the oracle counter and [chrome.storage.local]
    is left as it is. *)
Definition only_storage_local : relation World :=
  λ w w', memoryCache w' = memoryCache w
          ∧ currentVideoId w' = currentVideoId w
          ∧ db w' = db w
          ∧ stats w' = stats w
          ∧ heap w' = heap w
          ∧ idb_store w' = idb_store w
          ∧ storage_sync w' = storage_sync w
          ∧ background w' = background w.

(** A run keeps the volatile tier well formed and within its bound. *)
Definition keeps_cache_ok : relation World :=
  λ w w', cache_ok (memoryCache w) → cache_ok (memoryCache w').

(** A request to the local extraction server. *)
Definition is_local_server_call (c : Call) : bool :=
  match c with
  | HttpFetch ExtractSubsJson3 _ | HttpFetch ExtractSubs _ => true
  | _ => false
  end.

(** A call of the cloud transcript provider. *)
Definition is_cloud_call (c : Call) : bool :=
  match c with
  | HttpFetch TranscriptApi _ | Invoke M_fetchFromVocabumin => true
  | _ => false
  end.

Definition not_local_server_call (c : Call) : bool := negb (is_local_server_call c).

Definition not_cloud_call (c : Call) : bool := negb (is_cloud_call c).

(** A call of [chrome.storage]. *)
Definition is_storage_call (c : Call) : bool :=
  match c with
  | StorageSyncGet _ | StorageLocalGet _ | StorageLocalSet _ _ => true
  | _ => false
  end.

(** The HTTP requests among the calls, in order. *)
Definition is_http_request (c : Call) : bool :=
  match c with
  | HttpFetch _ _ => true
  | _ => false
  end.

Definition http_requests (calls : list Call) : list Call :=
  filter (λ c, is_http_request c) calls.

(** The IndexedDB calls among the calls, in order. *)
Definition is_idb_call (c : Call) : bool :=
  match c with
  | IdbOpen | IdbTransaction _ | IdbGet _ | IdbPut _ | IdbDelete _ | IdbClear => true
  | _ => false
  end.

Definition idb_calls (calls : list Call) : list Call :=
  filter (λ c, is_idb_call c) calls.

(** A request to the remote store or to the analytics log. *)
Definition is_store_or_log_request (c : Call) : bool :=
  match c with
  | HttpFetch StoreCache _ | HttpFetch LogFetch _ => true
  | _ => false
  end.

Definition not_store_or_log_request (c : Call) : bool := negb (is_store_or_log_request c).

(** An answer of the local server that counts as a success: a 2xx status,
    a JSON body, and a truthy [success] member. *)
Definition ytdlp_succeeded (answer : Http YtDlpData.t) : bool :=
  match answer with
  | Responded st (Some data) => ok (mkResponse st (Some data)) && YtDlpData.success data
  | _ => false
  end.

(** An answer that makes the [try] block throw: the request rejects, or a
    2xx body is not JSON. *)
Definition ytdlp_threw (answer : Http YtDlpData.t) : bool :=
  match answer with
  | NetworkFailure => true
  | Responded st None => ok (mkResponse st (@None YtDlpData.t))
  | Responded _ (Some _) => false
  end.


(** The method that a detached task runs, the endpoint it posts to, and
    the id it posts. *)
Definition task_method (t : Task) : Method :=
  match t with
  | TaskStoreInServerCache _ _ _ _ => M_storeInServerCache
  | TaskLogFetch _ _ _ _ _ => M_logFetch
  | TaskLogVocabuminAPIResponse _ _ _ _ => M_logVocabuminAPIResponse
  end.

Definition task_endpoint (t : Task) : Endpoint :=
  match t with
  | TaskStoreInServerCache _ _ _ _ => StoreCache
  | TaskLogFetch _ _ _ _ _ => LogFetch
  | TaskLogVocabuminAPIResponse _ _ _ _ => RailwayHealthLog
  end.

Definition task_videoId (t : Task) : string :=
  match t with
  | TaskStoreInServerCache videoId _ _ _ => videoId
  | TaskLogFetch videoId _ _ _ _ => videoId
  | TaskLogVocabuminAPIResponse videoId _ _ _ => videoId
  end.

(** The methods of the class, as calls that a client (or, for a detached
    task, the event loop) can make. *)
Inductive MethodCall :=
  | CallInitIndexedDB
  | CallGetFromIndexedDB (videoId : string)
  | CallSaveToIndexedDB (videoId : string) (captions : option capref)
      (captionData : option cdref)
  | CallDeleteFromIndexedDB (videoId : string)
  | CallGetAuthToken
  | CallFetchSubtitles (videoId : string) (videoTitle channelName : option string)
  | CallAddToMemoryCache (videoId : string) (captions : option capref)
      (captionData : option cdref)
  | CallCheckCacheAndLimits (videoId : string)
  | CallFetchFromYtDlp (videoId : string)
  | CallClearMemoryCache
  | CallClearAllCaches
  | CallRunTask (task : Task).

(** The world after a call, whether it returned or threw. *)
Definition after_call (env : Env) (c : MethodCall) (w : World) : World :=
  match c with
  | CallInitIndexedDB => (initIndexedDB env w).2
  | CallGetFromIndexedDB videoId => (getFromIndexedDB env videoId w).2
  | CallSaveToIndexedDB videoId captions captionData =>
      (saveToIndexedDB env videoId captions captionData w).2
  | CallDeleteFromIndexedDB videoId => (deleteFromIndexedDB env videoId w).2
  | CallGetAuthToken => (getAuthToken env w).2
  | CallFetchSubtitles videoId videoTitle channelName =>
      (fetchSubtitles env videoId videoTitle channelName w).2
  | CallAddToMemoryCache videoId captions captionData =>
      (addToMemoryCache env videoId captions captionData w).2
  | CallCheckCacheAndLimits videoId => (checkCacheAndLimits env videoId w).2
  | CallFetchFromYtDlp videoId => (fetchFromYtDlp env videoId w).2
  | CallClearMemoryCache => (clearMemoryCache w).2
  | CallClearAllCaches => (clearAllCaches env w).2
  | CallRunTask task => (run_task env task w).2
  end.

(** A history of calls, each made in whatever browser conditions. *)
Fixpoint after_calls (calls : list (Env * MethodCall)) (w : World) : World :=
  match calls with
  | [] => w
  | (env, c) :: calls' => after_calls calls' (after_call env c w)
  end.


(* ================================================================== *)
(** * Caption segmentation ([src/content/services/CaptionService.js]) *)
(* ================================================================== *)

(** The consumer of [fetchSubtitles] cuts long captions into segments.
    These functions are pure; a loop that the code can run forever (a
    chunk size of zero) is given fuel, and [None] stands for a call that
    does not return.  Captions are those that have a [words] array, and an
    array length or a character position is below [2^53].  Of a caption
    only [start], [end], [text] and [words] are read; a raw caption also
    carries an [originalIndex], which a caption that is passed on keeps and
    which no segment has. *)

(** ** Numbers *)

(** The double of a length, an index or a small integer constant. *)
Definition number (n : nat) : float := PrimFloat.of_uint63 (Uint63.of_Z (Z.of_nat n)).

(** [Math.min(a, b)]: [NaN] if either is, and [-0] below [+0]. *)
Definition Math_min (a b : float) : float :=
  if is_nan a || is_nan b then nan
  else if (a <? b)%float then a
  else if (b <? a)%float then b
  else if PrimFloat.is_zero a && get_sign a then a
  else b.

(** [Math.max(a, b)]: [NaN] if either is, and [+0] above [-0]. *)
Definition Math_max (a b : float) : float :=
  if is_nan a || is_nan b then nan
  else if (a <? b)%float then b
  else if (b <? a)%float then a
  else if PrimFloat.is_zero a && get_sign a then b
  else a.

(** [Math.ceil(x)]: a double with a non-negative exponent is an integer;
    otherwise the magnitude is [m / 2^(-e)] with [m < 2^53], and a negative
    fraction above [-1] rounds to [-0]. *)
Definition Math_ceil (x : float) : float :=
  match Prim2SF x with
  | S754_finite s m e =>
      if (0 <=? e)%Z then x
      else
        let d := (2 ^ (- e))%Z in
        let q := (Z.pos m / d)%Z in
        if s then
          if (q =? 0)%Z then neg_zero
          else (- PrimFloat.of_uint63 (Uint63.of_Z q))%float
        else if (Z.pos m mod d =? 0)%Z then PrimFloat.of_uint63 (Uint63.of_Z q)
        else PrimFloat.of_uint63 (Uint63.of_Z (q + 1))
  | _ => x
  end.

(** ** Strings *)

(** The number of whitespace characters that the string starts with. *)
Fixpoint whitespace_run (s : string) : nat :=
  match s with
  | EmptyString => 0
  | String c s' => if is_whitespace c then S (whitespace_run s') else 0
  end.

(** The string without its first [n] characters. *)
Fixpoint drop_chars (n : nat) (s : string) : string :=
  match n, s with
  | 0, _ => s
  | S _, EmptyString => EmptyString
  | S n', String _ s' => drop_chars n' s'
  end.

(** [s.trimEnd()] *)
Fixpoint trimEnd (s : string) : string :=
  match s with
  | EmptyString => EmptyString
  | String c s' =>
      match trimEnd s' with
      | EmptyString => if is_whitespace c then EmptyString else String c EmptyString
      | t => String c t
      end
  end.

(** [s.trim()] *)
Definition trim (s : string) : string := trimEnd (drop_chars (whitespace_run s) s).

(** [s.substring(a, b)] for non-negative integers: both are clamped to the
    length and swapped if [a > b]. *)
Definition String_substring (a b : nat) (s : string) : string :=
  let a := Nat.min a (String.length s) in
  let b := Nat.min b (String.length s) in
  String.substring (Nat.min a b) (Nat.max a b - Nat.min a b) s.

(** [s.indexOf(needle, from)] for a non-negative integer [from], which is
    clamped to the length; [None] is [-1]. *)
Definition indexOf (needle : string) (from : nat) (s : string) : option nat :=
  String.index (Nat.min from (String.length s)) needle s.

(** ** [forceSegmentByWords] *)

(** The loop of [forceSegmentByWords], from [currentIndex] on. *)
Fixpoint forceSegmentByWords_from (fuel : nat) (caption : Caption.t)
    (idealWords maxWords currentIndex : nat) : option (list Caption.t) :=
  let words := Caption.words caption in
  let duration := (Caption.end_ caption - Caption.start caption)%float in
  if (currentIndex <? length words)%nat then
    match fuel with
    | 0 => None
    | S fuel' =>
        let chunkSize := Nat.min idealWords (length words - currentIndex) in
        let chunkSize := if (maxWords <? chunkSize)%nat then maxWords else chunkSize in
        let chunkWords := take chunkSize (drop currentIndex words) in
        let chunkText := String.concat " " (word_source <$> chunkWords) in
        let progress := (number currentIndex / number (length words))%float in
        let nextProgress :=
          Math_min (number (currentIndex + chunkSize) / number (length words)) 1 in
        segments ← forceSegmentByWords_from fuel' caption idealWords maxWords
                     (currentIndex + chunkSize) ;
        Some (Caption.mk
                (Caption.start caption + progress * duration)%float
                (Caption.start caption + nextProgress * duration)%float
                chunkText chunkWords
              :: segments)
    end
  else Some [].

(** [forceSegmentByWords(caption, idealWords, maxWords)]; a loop that makes
    progress ends within as many rounds as there are words. *)
Definition forceSegmentByWords (caption : Caption.t) (idealWords maxWords : nat)
    : option (list Caption.t) :=
  forceSegmentByWords_from (length (Caption.words caption)) caption idealWords maxWords 0.

(** ** [findNaturalBreaks] *)

(** A break point [{position, priority, type}]. *)
Module Break.
Record t := mk { position : nat; priority : nat; type : string }.
End Break.

(** The patterns all have the form [(\s+)? (alternative | ...) \s+]: an
    optional run of whitespace, one of a list of literal alternatives
    (compared without case under the [i] flag), and a run of whitespace. *)
Module Pattern.
Record t := mk {
    leading_whitespace : bool;
    alternatives : list string;
    ignoreCase : bool;
    priority : nat;
    name : string
  }.
End Pattern.

Definition patterns : list Pattern.t :=
  [ Pattern.mk false ["."; "!"; "?"] false 1 "sentence";
    Pattern.mk false [";"; ":"] false 2 "clause";
    Pattern.mk false [","] false 3 "comma";
    Pattern.mk true ["and"; "but"; "or"; "so"; "because"; "since"] true 4 "conjunction";
    Pattern.mk true ["then"; "when"; "where"; "while"; "which"; "that"] true 5 "relative";
    Pattern.mk true ["to"; "of"; "in"; "on"; "at"; "for"; "with"] true 6 "preposition" ].

(** The upper-case form of an ASCII letter; any other character is left
    as it is (a character above 127 never folds to an ASCII one). *)
Definition upper (c : ascii) : ascii :=
  let n := nat_of_ascii c in
  if ((97 <=? n) && (n <=? 122))%nat then ascii_of_nat (n - 32) else c.

(** Does [s] start with the literal [alternative]? *)
Fixpoint starts_with (ignoreCase : bool) (alternative s : string) : bool :=
  match alternative, s with
  | EmptyString, _ => true
  | String _ _, EmptyString => false
  | String a alternative', String c s' =>
      (if ignoreCase then bool_decide (upper a = upper c) else bool_decide (a = c))
      && starts_with ignoreCase alternative' s'
  end.

(** The length of the match of the pattern at the start of [s], if there
    is one.  Both runs of whitespace are greedy; giving back part of the
    first run cannot help, since no alternative starts with whitespace. *)
Definition match_here (pattern : Pattern.t) (s : string) : option nat :=
  let lead := if Pattern.leading_whitespace pattern then whitespace_run s else 0 in
  if Pattern.leading_whitespace pattern && (lead =? 0)%nat then None
  else
    let rest := drop_chars lead s in
    (λ alternative,
       lead + String.length alternative
       + whitespace_run (drop_chars (String.length alternative) rest))
    <$> find (λ alternative,
                starts_with (Pattern.ignoreCase pattern) alternative rest
                && (0 <? whitespace_run (drop_chars (String.length alternative) rest))%nat)
          (Pattern.alternatives pattern).

(** The loop [while ((match = regex.exec(text)) !== null)] of a global
    pattern: the end positions of the successive matches.  [s] is the text
    from [offset] on, and [skip] characters of it belong to the match found
    last. *)
Fixpoint match_ends (pattern : Pattern.t) (s : string) (offset skip : nat) : list nat :=
  match s with
  | EmptyString => []
  | String _ s' =>
      match skip with
      | S skip' => match_ends pattern s' (S offset) skip'
      | 0 =>
          match match_here pattern s with
          | Some len => (offset + len) :: match_ends pattern s' (S offset) (len - 1)
          | None => match_ends pattern s' (S offset) 0
          end
      end
  end.

(** [breaks.sort((a, b) => a.position - b.position)]: the sort is stable,
    so a break that is put in front of a sorted rest stays in front of
    those of the same position. *)
Fixpoint insert_break (b : Break.t) (sorted : list Break.t) : list Break.t :=
  match sorted with
  | [] => [b]
  | b' :: sorted' =>
      if (Break.position b' <? Break.position b)%nat then b' :: insert_break b sorted'
      else b :: sorted
  end.

Definition sort_breaks (breaks : list Break.t) : list Break.t :=
  foldr insert_break [] breaks.

(** The first break of each position. *)
Fixpoint unique_breaks (seenPositions : list nat) (breaks : list Break.t) : list Break.t :=
  match breaks with
  | [] => []
  | breakPoint :: breaks' =>
      if bool_decide (Break.position breakPoint ∈ seenPositions)
      then unique_breaks seenPositions breaks'
      else breakPoint
           :: unique_breaks (Break.position breakPoint :: seenPositions) breaks'
  end.

(** [findNaturalBreaks(text)] *)
Definition findNaturalBreaks (text : string) : list Break.t :=
  let breaks :=
    pattern ← patterns ;
    (λ position, Break.mk position (Pattern.priority pattern) (Pattern.name pattern))
    <$> match_ends pattern text 0 0 in
  unique_breaks [] (sort_breaks breaks).

(** ** [selectOptimalBreaks] *)

(** The inner loop: the best break that is not selected yet. *)
Fixpoint best_break (selected : list nat) (targetPosition : float)
    (breakPoints : list Break.t) (bestScore : float) (bestBreak : option nat)
    : option nat :=
  match breakPoints with
  | [] => bestBreak
  | breakPoint :: breakPoints' =>
      if bool_decide (Break.position breakPoint ∈ selected)
      then best_break selected targetPosition breakPoints' bestScore bestBreak
      else
        let distance := abs (number (Break.position breakPoint) - targetPosition)%float in
        let score := (distance + number (Break.priority breakPoint) * 10)%float in
        if (score <? bestScore)%float
        then best_break selected targetPosition breakPoints' score
               (Some (Break.position breakPoint))
        else best_break selected targetPosition breakPoints' bestScore bestBreak
  end.

(** The outer loop [for (let i = 1; i <= numBreaks; i++)]. *)
Fixpoint select_breaks (fuel : nat) (idealInterval numBreaks : float)
    (breakPoints : list Break.t) (i : nat) (selected : list nat) : option (list nat) :=
  if (number i <=? numBreaks)%float then
    match fuel with
    | 0 => None
    | S fuel' =>
        let targetPosition := (idealInterval * number i)%float in
        let selected :=
          match best_break selected targetPosition breakPoints infinity None with
          | Some bestBreak => selected ++ [bestBreak]
          | None => selected
          end in
        select_breaks fuel' idealInterval numBreaks breakPoints (S i) selected
    end
  else Some selected.

(** [positions.sort((a, b) => a - b)] *)
Fixpoint insert_position (p : nat) (sorted : list nat) : list nat :=
  match sorted with
  | [] => [p]
  | p' :: sorted' =>
      if (p' <? p)%nat then p' :: insert_position p sorted' else p :: sorted
  end.

Definition sort_positions (positions : list nat) : list nat :=
  foldr insert_position [] positions.

(** [selectOptimalBreaks(text, breakPoints, numBreaks)]: the loop is
    entered only when [numBreaks] is below the number of break points, so
    it ends within that many rounds. *)
Definition selectOptimalBreaks (text : string) (breakPoints : list Break.t)
    (numBreaks : float) : option (list nat) :=
  if (number (length breakPoints) <=? numBreaks)%float
  then Some (Break.position <$> breakPoints)
  else
    let idealInterval := (number (String.length text) / (numBreaks + 1))%float in
    sort_positions
    <$> select_breaks (length breakPoints) idealInterval numBreaks breakPoints 1 [].

(** ** [segmentAtBreaks] and [segmentCaption] *)

Module Limits.
Record t := mk {
    absoluteMaxWords : nat;
    absoluteMaxDuration : float;
    idealWords : nat;
    idealDuration : float
  }.
End Limits.

(** The inner loop of [segmentAtBreaks]: the words, from [lastWordIndex]
    on, that are found in the text at or after [lastPosition] and before
    [breakPosition]; and the words that are left. *)
Fixpoint take_segment_words (text : string) (lastPosition breakPosition : nat)
    (words : list Word.t) : list Word.t * list Word.t :=
  match words with
  | [] => ([], [])
  | word :: words' =>
      match indexOf (word_source word) lastPosition text with
      | Some wordPos =>
          if (breakPosition <=? wordPos)%nat then ([], words)
          else
            let '(segmentWords, remaining) :=
              take_segment_words text lastPosition breakPosition words' in
            (word :: segmentWords, remaining)
      | None => ([], words)
      end
  end.

(** The loop of [segmentAtBreaks] over the selected breaks followed by the
    end of the text; [words] are the words from [lastWordIndex] on. *)
Fixpoint segments_at (caption : Caption.t) (limits : Limits.t)
    (breakPositions : list nat) (lastPosition : nat) (words : list Word.t)
    : option (list Caption.t) :=
  let text := Caption.text caption in
  let duration := (Caption.end_ caption - Caption.start caption)%float in
  match breakPositions with
  | [] => Some []
  | breakPosition :: breakPositions' =>
      let segmentText := trim (String_substring lastPosition breakPosition text) in
      if negb (truthy segmentText)
      then segments_at caption limits breakPositions' lastPosition words
      else
        let '(segmentWords, remaining) :=
          take_segment_words text lastPosition breakPosition words in
        let segmentStart :=
          (Caption.start caption
           + number lastPosition / number (String.length text) * duration)%float in
        let segmentEnd :=
          (Caption.start caption
           + number breakPosition / number (String.length text) * duration)%float in
        let segmentDuration := (segmentEnd - segmentStart)%float in
        if (0 <? length segmentWords)%nat
           && (length segmentWords <=? Limits.absoluteMaxWords limits)%nat
           && (segmentDuration <=? Limits.absoluteMaxDuration limits)%float
        then
          segments ← segments_at caption limits breakPositions' breakPosition remaining ;
          Some (Caption.mk segmentStart segmentEnd segmentText segmentWords :: segments)
        else if (0 <? length segmentWords)%nat then
          subSegments ← forceSegmentByWords
                          (Caption.mk segmentStart segmentEnd segmentText segmentWords)
                          (Limits.idealWords limits) (Limits.absoluteMaxWords limits) ;
          segments ← segments_at caption limits breakPositions' breakPosition remaining ;
          Some (subSegments ++ segments)
        else segments_at caption limits breakPositions' breakPosition remaining
  end.

(** [segmentAtBreaks(caption, breakPoints, targetSegments, limits)] *)
Definition segmentAtBreaks (caption : Caption.t) (breakPoints : list Break.t)
    (targetSegments : float) (limits : Limits.t) : option (list Caption.t) :=
  selectedBreaks ← selectOptimalBreaks (Caption.text caption) breakPoints
                     (targetSegments - 1)%float ;
  segments_at caption limits
    (selectedBreaks ++ [String.length (Caption.text caption)]) 0 (Caption.words caption).

(** [segmentCaption(caption, limits)] *)
Definition segmentCaption (caption : Caption.t) (limits : Limits.t)
    : option (list Caption.t) :=
  let words := Caption.words caption in
  let text := Caption.text caption in
  let totalDuration := (Caption.end_ caption - Caption.start caption)%float in
  let segmentsByWords :=
    Math_ceil (number (length words) / number (Limits.idealWords limits)) in
  let segmentsByDuration := Math_ceil (totalDuration / Limits.idealDuration limits) in
  let targetSegments := Math_max segmentsByWords segmentsByDuration in
  let breakPoints := findNaturalBreaks text in
  let forced :=
    forceSegmentByWords caption (Limits.idealWords limits)
      (Limits.absoluteMaxWords limits) in
  if (0 <? length breakPoints)%nat && (1 <? targetSegments)%float then
    naturalSegments ← segmentAtBreaks caption breakPoints targetSegments limits ;
    if (0 <? length naturalSegments)%nat then Some naturalSegments else forced
  else forced.

(** ** [applyUltraStrictSegmentation] *)

Definition ABSOLUTE_MAX_WORDS : nat := 12.
Definition ABSOLUTE_MAX_DURATION : float := 3.5.
Definition IDEAL_WORDS : nat := 8.
Definition IDEAL_DURATION : float := 2.5.

(** [words.length <= IDEAL_WORDS && duration <= IDEAL_DURATION]: the
    caption is "already perfect". *)
Definition already_perfect (caption : Caption.t) : bool :=
  let words := Caption.words caption in
  let duration := (Caption.end_ caption - Caption.start caption)%float in
  (length words <=? IDEAL_WORDS)%nat && (duration <=? IDEAL_DURATION)%float.

(** What one caption contributes to the result. *)
Definition segments_of (caption : Caption.t) : option (list Caption.t) :=
  if already_perfect caption then Some [caption]
  else
    segmentCaption caption
      (Limits.mk ABSOLUTE_MAX_WORDS ABSOLUTE_MAX_DURATION IDEAL_WORDS IDEAL_DURATION).

(** [applyUltraStrictSegmentation(rawCaptions)] *)
Fixpoint applyUltraStrictSegmentation (rawCaptions : list Caption.t)
    : option (list Caption.t) :=
  match rawCaptions with
  | [] => Some []
  | caption :: rawCaptions' =>
      segments ← segments_of caption ;
      segmentedCaptions ← applyUltraStrictSegmentation rawCaptions' ;
      Some (segments ++ segmentedCaptions)
  end.

(** ** Vocabulary of the segmentation theorems *)

(** A segment within the limit of words, and not without words. *)
Definition segment_ok (limits : Limits.t) (segment : Caption.t) : Prop :=
  0 < length (Caption.words segment) ≤ Limits.absoluteMaxWords limits.

(** [word] stands in [text] at position [p]. *)
Definition occurs_at (text : string) (p : nat) (word : string) : Prop :=
  ∃ before after, text = before +:+ word +:+ after ∧ String.length before = p.

(** The [words] stand in [text] in this order, the first one at or after
    [from]. *)
Fixpoint placed (text : string) (from : nat) (words : list string) : Prop :=
  match words with
  | [] => True
  | word :: words' => ∃ p, from ≤ p ∧ occurs_at text p word ∧ placed text p words'
  end.

(** A token: not empty and without whitespace. *)
Definition is_token (word : string) : Prop :=
  word ≠ EmptyString ∧ strip_whitespace word = word.

(** The words of a raw caption are those of its text, as
    [extractRawCaptions] builds them. *)
Definition words_of_text (caption : Caption.t) : Prop :=
  Caption.words caption = extractWordsFromText (Caption.text caption).

(** Position [p] of [text] lies directly behind whitespace, and no
    whitespace stands at [p]. *)
Definition after_whitespace (text : string) (p : nat) : Prop :=
  ∃ before c after,
    text = before +:+ String c after ∧ S (String.length before) = p
    ∧ is_whitespace c = true ∧ whitespace_run after = 0.

(** A caption text of seventeen words. *)
Definition sample_text : string :=
  "well, I think that we should go to the market and buy some apples, then come home".

(* ================================================================== *)
(** * [StorageManagement] ([src/content/services/SubtitleManager.js]) *)
(* ================================================================== *)

(** The source file holds a second class, which works on the captions
    that the segmentation leaves in the player state and on the subtitle
    entries of [chrome.storage.local]. *)

(** ** [getSurroundingContext] *)

(** What the method reads of [this.state]: [getParsedCaptions()], an array
    of captions that have [words], and [getCurrentCaptionIndex()], an
    integer ([-1] while no caption is shown). *)
Module PlayerState.
Record t := mk { parsedCaptions : list Caption.t; currentCaptionIndex : Z }.
End PlayerState.

(** An entry of [allWords]. *)
Module ContextWord.
Record t := mk { text : string; captionIndex : Z; wordIndex : nat; isTarget : bool }.
End ContextWord.

(** The object that the method returns. *)
Module WordContext.
Record t := mk { targetWord : string; context : string; captionText : string }.
End WordContext.

Definition WORDS_BEFORE : nat := 8.
Definition WORDS_AFTER : nat := 8.

(** [array[i]] for an integer [i]; [None] is [undefined]. *)
Definition at_index {A} (array : list A) (i : Z) : option A :=
  if (i <? 0)%Z then None else array !! Z.to_nat i.

(** [caption.words.forEach((word, idx) => allWords.push({...}))], from
    the word of index [idx] on; [wordIndex] is an integer. *)
Fixpoint words_from (currentCaptionIndex wordIndex i : Z) (idx : nat)
    (words : list Word.t) : list ContextWord.t :=
  match words with
  | [] => []
  | word :: words' =>
      ContextWord.mk (word_source word) i idx
        (bool_decide (i = currentCaptionIndex) && bool_decide (Z.of_nat idx = wordIndex))
      :: words_from currentCaptionIndex wordIndex i (S idx) words'
  end.

(** The loop over the captions of the indices [i]; [caption.words] of a
    caption that is not there throws. *)
Fixpoint collect_words (parsedCaptions : list Caption.t)
    (currentCaptionIndex wordIndex : Z) (indices : list Z)
    : Outcome (list ContextWord.t) :=
  match indices with
  | [] => Returned []
  | i :: indices' =>
      match at_index parsedCaptions i with
      | None => Thrown TypeError
      | Some caption =>
          match collect_words parsedCaptions currentCaptionIndex wordIndex indices' with
          | Returned allWords =>
              Returned (words_from currentCaptionIndex wordIndex i 0 (Caption.words caption)
                        ++ allWords)
          | Thrown e => Thrown e
          end
      end
  end.

(** [array.findIndex(p)]; [None] is [-1]. *)
Fixpoint findIndex {A} (p : A → bool) (array : list A) : option nat :=
  match array with
  | [] => None
  | x :: array' => if p x then Some 0 else S <$> findIndex p array'
  end.

(** [array.slice(start, end)] for non-negative integers. *)
Definition slice {A} (start end_ : nat) (array : list A) : list A :=
  take (end_ - start) (drop start array).

(** [getSurroundingContext(clickedWord, wordIndex)]; [state] is
    [this.state], [None] when it is not set. *)
Definition getSurroundingContext (state : option PlayerState.t)
    (clickedWord : string) (wordIndex : Z) : Outcome (option WordContext.t) :=
  let parsedCaptions := from_option PlayerState.parsedCaptions [] state in
  let currentCaptionIndex := from_option PlayerState.currentCaptionIndex (-1)%Z state in
  let first := Z.max 0 (currentCaptionIndex - 2) in
  let last := Z.min (Z.of_nat (length parsedCaptions) - 1) (currentCaptionIndex + 2) in
  match collect_words parsedCaptions currentCaptionIndex wordIndex
          (seqZ first (last - first + 1)) with
  | Thrown e => Thrown e
  | Returned allWords =>
      match findIndex ContextWord.isTarget allWords with
      | None => Returned None
      | Some targetPos =>
          let startPos := targetPos - WORDS_BEFORE in
          let endPos := Nat.min (length allWords) (targetPos + WORDS_AFTER + 1) in
          let contextWords :=
            String.concat " " (ContextWord.text <$> slice startPos endPos allWords) in
          match at_index parsedCaptions currentCaptionIndex with
          | None => Thrown TypeError
          | Some caption =>
              Returned (Some (WordContext.mk clickedWord contextWords
                                (Caption.text caption)))
          end
      end
  end.

(** The words that stand before and behind the word [wordIndex] of the
    caption [current], in the captions from two before to two behind it. *)
Definition words_before (parsedCaptions : list Caption.t) (current wordIndex : nat)
    : list Word.t :=
  concat (Caption.words <$> take (current - (current - 2)) (drop (current - 2) parsedCaptions))
  ++ take wordIndex (from_option Caption.words [] (parsedCaptions !! current)).

Definition words_behind (parsedCaptions : list Caption.t) (current wordIndex : nat)
    : list Word.t :=
  drop (S wordIndex) (from_option Caption.words [] (parsedCaptions !! current))
  ++ concat (Caption.words <$> take 2 (drop (S current) parsedCaptions)).

(** The clicked word: the word [wordIndex] of the current caption. *)
Definition clicked (state : option PlayerState.t) (wordIndex : Z)
    : option (Caption.t * Word.t) :=
  s ← state ;
  caption ← at_index (PlayerState.parsedCaptions s) (PlayerState.currentCaptionIndex s) ;
  word ← at_index (Caption.words caption) wordIndex ;
  Some (caption, word).

(** The context that a click on the word [wordIndex] of the current
    caption asks for: up to eight words before it and up to eight behind
    it, joined by single spaces. *)
Definition context_window (state : option PlayerState.t) (clickedWord : string)
    (wordIndex : Z) : option WordContext.t :=
  '(caption, word) ← clicked state wordIndex ;
  let parsedCaptions := from_option PlayerState.parsedCaptions [] state in
  let current := Z.to_nat (from_option PlayerState.currentCaptionIndex 0%Z state) in
  let before := words_before parsedCaptions current (Z.to_nat wordIndex) in
  let behind := words_behind parsedCaptions current (Z.to_nat wordIndex) in
  Some (WordContext.mk clickedWord
          (String.concat " "
             (word_source
              <$> drop (length before - WORDS_BEFORE) before
                  ++ [word] ++ take WORDS_AFTER behind))
          (Caption.text caption)).

(** ** The subtitle entries of [chrome.storage.local] *)

(** A stored value is an object of which only [cachedAt] is read: a
    timestamp, or [None] when the object has no such member. *)
Module Stored.
Record t := mk { cachedAt : option Z }.
End Stored.

(** What the browser decides for [StorageManagement], asked in order
    through a counter as for [SubtitleManager].  The test
    [bytesInUse > (QUOTA_BYTES || 10485760) * 0.8] compares two numbers
    that both come from the browser, so its outcome is an answer of the
    browser. *)
Module CacheEnv.
Record t := mk {
    Date_now : nat → Z;
    chrome_storage_rejects : nat → bool;
    storage_nearly_full : nat → bool
  }.
End CacheEnv.

(** [chrome.storage.local]: the items in the order in which [Object.keys]
    lists the object that [get(null)] resolves to; and the counter of the
    oracle. *)
Module LocalStorage.
Record t := mk { items : list (string * Stored.t); tick : nat }.
End LocalStorage.

(** An entry [{key, age}] of [keysWithAge]. *)
Module Aged.
Record t := mk { key : string; age : Z }.
End Aged.

(** [subtitleKeys.map(key => ({key, age: Date.now() - (allKeys[key].cachedAt || 0)}))]:
    one reading of the clock per key. *)
Fixpoint keysWithAge (env : CacheEnv.t) (tick : nat)
    (subtitleItems : list (string * Stored.t)) : list Aged.t :=
  match subtitleItems with
  | [] => []
  | (key, value) :: subtitleItems' =>
      Aged.mk key (CacheEnv.Date_now env tick - default 0 (Stored.cachedAt value))%Z
      :: keysWithAge env (S tick) subtitleItems'
  end.

(** [.sort((a, b) => b.age - a.age)]: the greatest age first; the sort is
    stable. *)
Fixpoint insert_aged (a : Aged.t) (sorted : list Aged.t) : list Aged.t :=
  match sorted with
  | [] => [a]
  | b :: sorted' =>
      if (Aged.age a <? Aged.age b)%Z then b :: insert_aged a sorted' else a :: sorted
  end.

Definition sort_by_age (entries : list Aged.t) : list Aged.t :=
  foldr insert_aged [] entries.

(** [k.startsWith('subtitle_')] *)
Definition is_subtitle_key (key : string) : bool := String.prefix "subtitle_" key.

(** [chrome.storage.local.remove(keys)] *)
Definition remove_keys (keys : list string) (items : list (string * Stored.t))
    : list (string * Stored.t) :=
  filter (λ item, item.1 ∉ keys) items.

(** [chrome.storage.local.set({[key]: value})]: the value of a key that
    is there is replaced, a new key comes last. *)
Fixpoint set_key (key : string) (value : Stored.t) (items : list (string * Stored.t))
    : list (string * Stored.t) :=
  match items with
  | [] => [(key, value)]
  | (k, v) :: items' =>
      if bool_decide (k = key) then (key, value) :: items'
      else (k, v) :: set_key key value items'
  end.

(** [cleanOldSubtitleCaches()].  [Math.floor(n * 0.75)] is the quotient of
    [3 * n] by [4], exactly, for a number of keys below [2^51]. *)
Definition cleanOldSubtitleCaches (env : CacheEnv.t) (s : LocalStorage.t)
    : Outcome unit * LocalStorage.t :=
  let items := LocalStorage.items s in
  let t := LocalStorage.tick s in
  if CacheEnv.chrome_storage_rejects env t
  then (Thrown StorageError, LocalStorage.mk items (S t))
  else
    let subtitleItems := filter (λ item, is_subtitle_key item.1) items in
    let keysWithAge := sort_by_age (keysWithAge env (S t) subtitleItems) in
    let t := S t + length subtitleItems in
    let toRemove := drop (3 * length keysWithAge / 4) keysWithAge in
    if (0 <? length toRemove)%nat then
      if CacheEnv.chrome_storage_rejects env t
      then (Thrown StorageError, LocalStorage.mk items (S t))
      else (Returned tt, LocalStorage.mk (remove_keys (Aged.key <$> toRemove) items) (S t))
    else (Returned tt, LocalStorage.mk items t).

(** [saveToBrowserCache(videoId, data)]; whatever is thrown is caught and
    logged. *)
Definition saveToBrowserCache (env : CacheEnv.t) (videoId : string) (data : Stored.t)
    (s : LocalStorage.t) : Outcome unit * LocalStorage.t :=
  let cacheKey := "subtitle_" +:+ videoId in
  let t := LocalStorage.tick s in
  (* getBytesInUse() *)
  if CacheEnv.chrome_storage_rejects env t
  then (Returned tt, LocalStorage.mk (LocalStorage.items s) (S t))
  else
    let s := LocalStorage.mk (LocalStorage.items s) (S t) in
    let nearly_full := CacheEnv.storage_nearly_full env (LocalStorage.tick s) in
    let s := LocalStorage.mk (LocalStorage.items s) (S (LocalStorage.tick s)) in
    let '(cleaned, s) :=
      if nearly_full then cleanOldSubtitleCaches env s else (Returned tt, s) in
    match cleaned with
    | Thrown _ => (Returned tt, s)
    | Returned _ =>
        let t := LocalStorage.tick s in
        if CacheEnv.chrome_storage_rejects env t
        then (Returned tt, LocalStorage.mk (LocalStorage.items s) (S t))
        else (Returned tt,
              LocalStorage.mk (set_key cacheKey data (LocalStorage.items s)) (S t))
    end.

(** The timestamp that eviction compares: [cachedAt || 0]. *)
Definition cached_at (value : Stored.t) : Z := default 0%Z (Stored.cachedAt value).

(** The subtitle keys of the storage. *)
Definition subtitle_keys (s : LocalStorage.t) : list string :=
  filter (λ key, is_subtitle_key key) (LocalStorage.items s).*1.

(** ** [extractVideoId] *)

(** [[^&]+] is greedy: the longest run of characters other than [&]. *)
Fixpoint value_run (s : string) : string :=
  match s with
  | EmptyString => EmptyString
  | String c s' => if Ascii.eqb c "&" then EmptyString else String c (value_run s')
  end.

(** [url.match(/[?&]v=([^&]+)/)]: the first position at which the pattern
    matches, and there the group; [None] is [null]. *)
Fixpoint extractVideoId (url : string) : option string :=
  match url with
  | EmptyString => None
  | String c url' =>
      if (Ascii.eqb c "?" || Ascii.eqb c "&")
         && String.prefix "v=" url'
         && truthy (value_run (drop_chars 2 url'))
      then Some (value_run (drop_chars 2 url'))
      else extractVideoId url'
  end.

(** The string has none of the characters. *)
Fixpoint free_of (chars : list ascii) (s : string) : Prop :=
  match s with
  | EmptyString => True
  | String c s' => (c ∉ chars) ∧ free_of chars s'
  end.

(* ================================================================== *)
(** * Facts about the insertion-ordered map *)
(* ================================================================== *)

Section JsMapFacts.
Context {V : Type}.
Implicit Types (m : JsMap.t V) (k : string) (v : V).

Lemma has_get k m : JsMap.has k m = true ↔ is_Some (JsMap.get k m).
Proof.
  unfold JsMap.has. destruct (JsMap.get k m); split; intros H;
    try done; by destruct H.
Qed.

Lemma has_false_get k m : JsMap.has k m = false ↔ JsMap.get k m = None.
Proof. unfold JsMap.has. by destruct (JsMap.get k m). Qed.

Lemma get_None_keys k m : JsMap.get k m = None ↔ k ∉ JsMap.keys m.
Proof.
  induction m as [|[k' v'] m IH]; simpl.
  - split; [intros _; apply not_elem_of_nil | done].
  - rewrite not_elem_of_cons. destruct (decide (k = k')) as [->|Hne].
    + split; [done | by intros [? _]].
    + rewrite IH. split; [done | by intros [_ ?]].
Qed.

Lemma get_set_eq k v m : JsMap.get k (JsMap.set k v m) = Some v.
Proof.
  induction m as [|[k' v'] m IH]; simpl.
  - by rewrite decide_True.
  - case_decide; simpl; [by rewrite decide_True | by rewrite decide_False].
Qed.

Lemma get_set_ne k k' v m : k ≠ k' → JsMap.get k' (JsMap.set k v m) = JsMap.get k' m.
Proof.
  intros Hne. induction m as [|[k0 v0] m IH]; simpl.
  - by rewrite decide_False.
  - destruct (decide (k = k0)) as [->|]; simpl.
    + by rewrite !decide_False.
    + by rewrite IH.
Qed.

Lemma get_delete_eq k m : JsMap.get k (JsMap.delete k m) = None.
Proof.
  induction m as [|[k0 v0] m IH]; simpl; [done|].
  case_decide; simpl; [done | by rewrite decide_False].
Qed.

Lemma get_delete_ne k k' m : k ≠ k' → JsMap.get k' (JsMap.delete k m) = JsMap.get k' m.
Proof.
  intros Hne. induction m as [|[k0 v0] m IH]; simpl; [done|].
  destruct (decide (k = k0)) as [->|]; simpl.
  - by rewrite decide_False.
  - by rewrite IH.
Qed.

Lemma keys_set_new k v m :
  JsMap.get k m = None → JsMap.set k v m = m ++ [(k, v)].
Proof.
  induction m as [|[k0 v0] m IH]; simpl; [done|].
  case_decide; [done|]. intros Hg. by rewrite IH.
Qed.

Lemma keys_set_old k v m :
  is_Some (JsMap.get k m) → JsMap.keys (JsMap.set k v m) = JsMap.keys m.
Proof.
  induction m as [|[k0 v0] m IH]; simpl.
  - by intros [? ?].
  - destruct (decide (k = k0)) as [->|]; simpl; [done|].
    intros Hg. unfold JsMap.keys in *. simpl. f_equal. by apply IH.
Qed.

Lemma delete_not_in k m : k ∉ JsMap.keys m → JsMap.delete k m = m.
Proof.
  induction m as [|[k0 v0] m IH]; simpl; [done|].
  rewrite not_elem_of_cons. intros [Hne Hnin].
  rewrite decide_False by done. by rewrite IH.
Qed.

Lemma delete_first k v m :
  NoDup (JsMap.keys ((k, v) :: m)) → JsMap.delete k ((k, v) :: m) = m.
Proof.
  simpl. rewrite NoDup_cons. intros [Hnin _].
  rewrite decide_True by done. by apply delete_not_in.
Qed.

Lemma NoDup_keys_set k v m :
  NoDup (JsMap.keys m) → NoDup (JsMap.keys (JsMap.set k v m)).
Proof.
  intros Hnd. destruct (JsMap.get k m) as [v0|] eqn:Hg.
  - by rewrite keys_set_old.
  - rewrite keys_set_new by done. unfold JsMap.keys. rewrite fmap_app. simpl.
    apply NoDup_app. split_and!; [done | | apply NoDup_singleton].
    intros x Hx. rewrite list_elem_of_singleton. intros ->.
    by apply get_None_keys in Hg.
Qed.

Lemma size_set k v m :
  JsMap.size (JsMap.set k v m)
  = if JsMap.has k m then JsMap.size m else S (JsMap.size m).
Proof.
  unfold JsMap.has, JsMap.size. induction m as [|[k0 v0] m IH]; simpl; [done|].
  case_decide; simpl; [done|]. rewrite IH. by destruct (JsMap.get k m).
Qed.

End JsMapFacts.

(* ================================================================== *)
(** * Frame rules *)
(* ================================================================== *)

Ltac js_unfold :=
  unfold bind, ret, throw, try_catch, detach, gets, modify, record, spawn, query in *.

Section Steps.
Context (R : relation World) `{!Reflexive R} `{!Transitive R}.

Lemma steps_ret {A} (a : A) : steps R (ret a).
Proof. intros w. simpl. reflexivity. Qed.

Lemma steps_throw {A} e : steps R (@throw A e).
Proof. intros w. simpl. reflexivity. Qed.

Lemma steps_gets {A} (f : World → A) : steps R (gets f).
Proof. intros w. simpl. reflexivity. Qed.

Lemma steps_modify f : (∀ w, R w (f w)) → steps R (modify f).
Proof. intros Hf w. apply Hf. Qed.

Lemma steps_query {A} (f : nat → A) : (∀ w, R w (bump w)) → steps R (query f).
Proof. intros Hf w. apply Hf. Qed.

Lemma steps_bind {A B} (m : M A) (k : A → M B) :
  steps R m → (∀ a, steps R (k a)) → steps R (bind m k).
Proof.
  intros Hm Hk w. unfold bind. specialize (Hm w).
  destruct (m w) as [[a|e] w1]; simpl in *; [|done].
  etrans; [exact Hm | apply Hk].
Qed.

Lemma steps_try_catch {A} (m : M A) (h : Exn → M A) :
  steps R m → (∀ e, steps R (h e)) → steps R (try_catch m h).
Proof.
  intros Hm Hh w. unfold try_catch. specialize (Hm w).
  destruct (m w) as [[a|e] w1]; simpl in *; [done|].
  etrans; [exact Hm | apply Hh].
Qed.

Lemma steps_detach {A} (m : M A) : steps R m → steps R (detach m).
Proof. intros Hm w. apply Hm. Qed.

End Steps.

Global Instance same_memoryCache_refl : Reflexive same_memoryCache.
Proof. intros w. reflexivity. Qed.
Global Instance same_memoryCache_trans : Transitive same_memoryCache.
Proof. unfold same_memoryCache. intros w1 w2 w3 H1 H2. by rewrite H2. Qed.

Global Instance same_idb_store_refl : Reflexive same_idb_store.
Proof. intros w. reflexivity. Qed.
Global Instance same_idb_store_trans : Transitive same_idb_store.
Proof. unfold same_idb_store. intros w1 w2 w3 H1 H2. by rewrite H2. Qed.

Global Instance db_stays_open_refl : Reflexive db_stays_open.
Proof. intros w Hd. exact Hd. Qed.
Global Instance db_stays_open_trans : Transitive db_stays_open.
Proof. unfold db_stays_open. intros w1 w2 w3 H1 H2 Hd. by apply H2, H1. Qed.

Global Instance adds_calls_refl P : Reflexive (adds_calls P).
Proof. intros w. exists []. split; [by rewrite app_nil_r | done]. Qed.
Global Instance adds_calls_trans P : Transitive (adds_calls P).
Proof.
  intros w1 w2 w3 (l1 & E1 & F1) (l2 & E2 & F2). exists (l1 ++ l2).
  split; [by rewrite E2, E1, app_assoc | by rewrite forallb_app, F1, F2].
Qed.

Global Instance adds_tasks_refl P : Reflexive (adds_tasks P).
Proof. intros w. exists []. split; [by rewrite app_nil_r | done]. Qed.
Global Instance adds_tasks_trans P : Transitive (adds_tasks P).
Proof.
  intros w1 w2 w3 (l1 & E1 & F1) (l2 & E2 & F2). exists (l1 ++ l2).
  split; [by rewrite E2, E1, app_assoc | by rewrite forallb_app, F1, F2].
Qed.

Global Instance store_same_or_deleted_refl v : Reflexive (store_same_or_deleted v).
Proof. intros w. by left. Qed.
Global Instance store_same_or_deleted_trans v : Transitive (store_same_or_deleted v).
Proof.
  unfold store_same_or_deleted. intros w1 w2 w3 [E1|E1] [E2|E2]; rewrite E2, E1; auto.
  right. apply delete_delete_eq.
Qed.

Global Instance error_path_frame_refl v : Reflexive (error_path_frame v).
Proof. intros w. split_and!; reflexivity. Qed.
Global Instance error_path_frame_trans v : Transitive (error_path_frame v).
Proof.
  intros w1 w2 w3 (A1 & B1 & C1) (A2 & B2 & C2).
  split_and!; etrans; done.
Qed.

Section StepsAlloc.
Context (R : relation World).

Lemma steps_new_captions o :
  (∀ w, R w (set_heap (alloc_captions o (heap w)).2 w)) → steps R (new_captions o).
Proof. intros Hf w. apply Hf. Qed.

Lemma steps_new_captionData o :
  (∀ w, R w (set_heap (alloc_captionData o (heap w)).2 w)) → steps R (new_captionData o).
Proof. intros Hf w. apply Hf. Qed.

End StepsAlloc.

Create HintDb js_methods discriminated.
#[global] Hint Unfold now transaction request chrome_storage_sync_get
  chrome_storage_local_get chrome_storage_local_set fetch json initIndexedDB
  ensure_db deleteFromIndexedDB deserialize getFromIndexedDB saveToIndexedDB
  getOrCreateTempUserId getAuthToken addToMemoryCache clearMemoryCache
  checkCacheAndLimits storeInServerCache logFetch logVocabuminAPIResponse
  run_task fetchFromVocabumin fetchFromLocalYtDlp fetchFromYtDlp
  new_captions_opt new_captionData_opt : js_methods.

(** Decompose a method down to its primitive world updates, which are left
    as goals [R w (f w)]. *)
Ltac steps_all :=
  repeat match goal with
    | |- steps _ (ret _) => apply steps_ret; tc_solve
    | |- steps _ (throw _) => apply steps_throw; tc_solve
    | |- steps _ (gets _) => apply steps_gets; tc_solve
    | |- steps _ (bind _ _) => apply steps_bind; [tc_solve | | intros ?]
    | |- steps _ (try_catch _ _) => apply steps_try_catch; [tc_solve | | intros ?]
    | |- steps _ (detach _) => apply steps_detach
    | |- steps _ (modify _) => apply steps_modify; intros ?
    | |- steps _ (query _) => apply steps_query; intros ?
    | |- steps _ (new_captions _) => apply steps_new_captions; intros ?
    | |- steps _ (new_captionData _) => apply steps_new_captionData; intros ?
    | |- steps _ (match ?x with _ => _ end) => destruct x
    | |- steps _ _ => progress (lazy zeta)
    | |- steps _ _ => progress (unfold record, spawn)
    | |- steps _ _ => progress autounfold with js_methods
    end.

Ltac calls_leaf :=
  first
    [ by (exists []; split; [by rewrite app_nil_r | done])
    | by (eexists [_]; split; [reflexivity | done]) ].

Section FrameOfMethods.
Variable env : Env.

Lemma getFromIndexedDB_same_memoryCache videoId :
  steps same_memoryCache (getFromIndexedDB env videoId).
Proof. steps_all; reflexivity. Qed.

Lemma checkCacheAndLimits_same_memoryCache videoId :
  steps same_memoryCache (checkCacheAndLimits env videoId).
Proof. steps_all; reflexivity. Qed.

Lemma fetchFromYtDlp_same_memoryCache videoId :
  steps same_memoryCache (fetchFromYtDlp env videoId).
Proof. steps_all; reflexivity. Qed.

Lemma checkCacheAndLimits_db videoId :
  steps db_stays_open (checkCacheAndLimits env videoId).
Proof. steps_all; by intros ?. Qed.

Lemma fetchFromYtDlp_db videoId :
  steps db_stays_open (fetchFromYtDlp env videoId).
Proof. steps_all; by intros ?. Qed.

Lemma getFromIndexedDB_tasks videoId :
  steps (adds_tasks no_task) (getFromIndexedDB env videoId).
Proof. steps_all; by (exists []; split; [by rewrite app_nil_r | done]). Qed.

Lemma getFromIndexedDB_no_source videoId :
  steps (adds_calls not_source_fetch) (getFromIndexedDB env videoId).
Proof. steps_all; calls_leaf. Qed.

Lemma checkCacheAndLimits_no_source videoId :
  steps (adds_calls not_source_fetch) (checkCacheAndLimits env videoId).
Proof. steps_all; calls_leaf. Qed.

Lemma checkCacheAndLimits_same_idb_store videoId :
  steps same_idb_store (checkCacheAndLimits env videoId).
Proof. steps_all; reflexivity. Qed.

Lemma fetchFromYtDlp_same_idb_store videoId :
  steps same_idb_store (fetchFromYtDlp env videoId).
Proof. steps_all; reflexivity. Qed.

Lemma checkCacheAndLimits_same_store videoId v :
  steps (store_same_or_deleted v) (checkCacheAndLimits env videoId).
Proof. intros w. left. apply checkCacheAndLimits_same_idb_store. Qed.

Lemma fetchFromYtDlp_same_store videoId v :
  steps (store_same_or_deleted v) (fetchFromYtDlp env videoId).
Proof. intros w. left. apply fetchFromYtDlp_same_idb_store. Qed.

Lemma getFromIndexedDB_store videoId :
  steps (store_same_or_deleted videoId) (getFromIndexedDB env videoId).
Proof. steps_all; first [by left | by right]. Qed.

Lemma getFromIndexedDB_no_put videoId :
  steps (adds_calls not_idb_put) (getFromIndexedDB env videoId).
Proof. steps_all; calls_leaf. Qed.

Lemma checkCacheAndLimits_no_put videoId :
  steps (adds_calls not_idb_put) (checkCacheAndLimits env videoId).
Proof. steps_all; calls_leaf. Qed.

Lemma fetchFromYtDlp_no_put videoId :
  steps (adds_calls not_idb_put) (fetchFromYtDlp env videoId).
Proof. steps_all; calls_leaf. Qed.

Lemma getFromIndexedDB_error_path videoId :
  steps (error_path_frame videoId) (getFromIndexedDB env videoId).
Proof.
  intros w. split_and!;
    [apply getFromIndexedDB_same_memoryCache | apply getFromIndexedDB_store
    | apply getFromIndexedDB_no_put].
Qed.

Lemma checkCacheAndLimits_error_path videoId :
  steps (error_path_frame videoId) (checkCacheAndLimits env videoId).
Proof.
  intros w. split_and!;
    [apply checkCacheAndLimits_same_memoryCache | apply checkCacheAndLimits_same_store
    | apply checkCacheAndLimits_no_put].
Qed.

Lemma fetchFromYtDlp_error_path videoId :
  steps (error_path_frame videoId) (fetchFromYtDlp env videoId).
Proof.
  intros w. split_and!;
    [apply fetchFromYtDlp_same_memoryCache | apply fetchFromYtDlp_same_store
    | apply fetchFromYtDlp_no_put].
Qed.

Lemma getFromIndexedDB_no_store_log videoId :
  steps (adds_calls not_store_or_log) (getFromIndexedDB env videoId).
Proof. steps_all; calls_leaf. Qed.

Lemma checkCacheAndLimits_no_store_log videoId :
  steps (adds_calls not_store_or_log) (checkCacheAndLimits env videoId).
Proof. steps_all; calls_leaf. Qed.

Lemma fetchFromYtDlp_no_store_log videoId :
  steps (adds_calls not_store_or_log) (fetchFromYtDlp env videoId).
Proof. steps_all; calls_leaf. Qed.

Lemma checkCacheAndLimits_tasks videoId :
  steps (adds_tasks any_task) (checkCacheAndLimits env videoId).
Proof. steps_all; by (exists []; split; [by rewrite app_nil_r | done]). Qed.

Lemma getFromIndexedDB_any_tasks videoId :
  steps (adds_tasks any_task) (getFromIndexedDB env videoId).
Proof. steps_all; by (exists []; split; [by rewrite app_nil_r | done]). Qed.

Lemma fetchFromYtDlp_tasks videoId :
  steps (adds_tasks any_task) (fetchFromYtDlp env videoId).
Proof.
  steps_all;
    first [ by (exists []; split; [by rewrite app_nil_r | done])
          | by (eexists [_]; split; [reflexivity | done]) ].
Qed.

Lemma initIndexedDB_same_memoryCache :
  steps same_memoryCache (initIndexedDB env).
Proof. steps_all; reflexivity. Qed.

Lemma getFromIndexedDB_calls videoId :
  steps (adds_calls not_remote) (getFromIndexedDB env videoId).
Proof. steps_all; calls_leaf. Qed.

End FrameOfMethods.

(* ================================================================== *)
(** * The volatile tier *)
(* ================================================================== *)

Lemma addToMemoryCache_run env videoId captions captionData w :
  addToMemoryCache env videoId captions captionData w
  = (Returned tt,
     set_memoryCache
       (put_entry videoId (MemEntry.mk captions captionData (Date_now env (tick w)))
          (memoryCache w))
       (bump w)).
Proof.
  unfold addToMemoryCache, put_entry, now. js_unfold. simpl.
  destruct (_ <? _)%nat; [destruct (JsMap.first_key _)|]; reflexivity.
Qed.

Lemma put_entry_fits videoId e m :
  JsMap.size (JsMap.set videoId e m) ≤ maxMemoryCacheSize →
  put_entry videoId e m = JsMap.set videoId e m.
Proof.
  intros Hle. unfold put_entry. cbv zeta.
  destruct (Nat.ltb_spec maxMemoryCacheSize (JsMap.size (JsMap.set videoId e m))); [lia | done].
Qed.

Lemma put_entry_evicts videoId e m :
  cache_ok m →
  JsMap.size (JsMap.set videoId e m) > maxMemoryCacheSize →
  ∃ k0 e0 rest,
    m = (k0, e0) :: rest
    ∧ put_entry videoId e m = rest ++ [(videoId, e)]
    ∧ k0 ≠ videoId
    ∧ JsMap.get videoId m = None
    ∧ JsMap.get k0 (put_entry videoId e m) = None.
Proof.
  intros [Hnd Hsz] Hgt.
  rewrite size_set in Hgt.
  destruct (JsMap.has videoId m) eqn:Hhas; [lia|].
  apply has_false_get in Hhas.
  destruct m as [|[k0 e0] rest]; [simpl in Hgt; unfold maxMemoryCacheSize in Hgt; lia|].
  exists k0, e0, rest.
  assert (Hne : k0 ≠ videoId).
  { intros ->. simpl in Hhas. by rewrite decide_True in Hhas. }
  assert (Hput : put_entry videoId e ((k0, e0) :: rest) = rest ++ [(videoId, e)]).
  { unfold put_entry. cbv zeta.
    destruct (Nat.ltb_spec maxMemoryCacheSize
                (JsMap.size (JsMap.set videoId e ((k0, e0) :: rest)))) as [_|Hle].
    - pose proof (NoDup_keys_set videoId e _ Hnd) as Hnd'.
      rewrite keys_set_new in * by done. simpl in *.
      rewrite decide_True by done.
      apply delete_not_in. by apply NoDup_cons in Hnd' as [? _].
    - rewrite size_set in Hle.
      apply has_false_get in Hhas. rewrite Hhas in Hle. lia. }
  split_and!; try done.
  rewrite Hput. apply get_None_keys.
  unfold JsMap.keys. rewrite fmap_app. simpl.
  apply NoDup_cons in Hnd as [Hnin _].
  rewrite elem_of_app, list_elem_of_singleton. intros [?|?]; done.
Qed.

Lemma put_entry_ok videoId e m : cache_ok m → cache_ok (put_entry videoId e m).
Proof.
  intros Hok.
  destruct (decide (JsMap.size (JsMap.set videoId e m) ≤ maxMemoryCacheSize)) as [Hle|Hgt].
  - rewrite put_entry_fits by done. split; [|done].
    apply NoDup_keys_set, Hok.
  - destruct (put_entry_evicts videoId e m Hok) as (k0 & e0 & rest & -> & -> & Hne & Hg & _);
      [lia|].
    destruct Hok as [Hnd Hsz]. split.
    + pose proof (NoDup_keys_set videoId e _ Hnd) as Hnd'.
      rewrite keys_set_new in Hnd' by done. simpl in Hnd'.
      by apply NoDup_cons in Hnd' as [_ ?].
    + unfold JsMap.size in *. rewrite length_app. simpl in *. lia.
Qed.

Lemma put_entry_get videoId e m :
  cache_ok m → JsMap.get videoId (put_entry videoId e m) = Some e.
Proof.
  intros Hok.
  destruct (decide (JsMap.size (JsMap.set videoId e m) ≤ maxMemoryCacheSize)) as [Hle|Hgt].
  - rewrite put_entry_fits by done. apply get_set_eq.
  - destruct (put_entry_evicts videoId e m Hok) as (k0 & e0 & rest & Hm & Hp & Hne & Hg & _);
      [lia|].
    rewrite <- (get_set_eq videoId e m), keys_set_new, Hp, Hm by done.
    simpl. by rewrite decide_False.
Qed.

Lemma run_ops_cache_ok env ops w :
  cache_ok (memoryCache w) → cache_ok (memoryCache (run_ops env ops w).2).
Proof.
  revert w. induction ops as [|op ops IH]; intros w Hok; [done|].
  simpl. unfold bind.
  destruct op as [videoId captions captionData|]; simpl.
  - rewrite addToMemoryCache_run. apply IH. simpl. by apply put_entry_ok.
  - apply IH. simpl. split; [apply NoDup_nil_2 | unfold maxMemoryCacheSize; simpl; lia].
Qed.

Lemma constructor_cache_ok env w : cache_ok (memoryCache (constructor env w).2).
Proof.
  unfold constructor. js_unfold. simpl.
  rewrite (initIndexedDB_same_memoryCache env _). simpl.
  split; [apply NoDup_nil_2 | unfold maxMemoryCacheSize; simpl; lia].
Qed.

(** C7. Whatever puts and clears a freshly constructed manager has seen,
    after one more put the volatile cache holds at most 3 entries (and no
    key twice) and holds the entry just put.  A put that does not raise the
    count above 3 evicts nothing.  A put that raises the count above 3 (the
    cache held 3 keys and the key is new) removes exactly the first-inserted
    key: the other entries stay, in order, followed by the new one. *)
Theorem volatile_cache_bound env w0 ops videoId captions captionData :
  let w := (run_ops env ops (constructor env w0).2).2 in
  let m := memoryCache w in
  let e := MemEntry.mk captions captionData (Date_now env (tick w)) in
  let m' := memoryCache (addToMemoryCache env videoId captions captionData w).2 in
  cache_ok m
  ∧ JsMap.size m' ≤ 3
  ∧ NoDup (JsMap.keys m')
  ∧ JsMap.get videoId m' = Some e
  ∧ (JsMap.size (JsMap.set videoId e m) ≤ 3 → m' = JsMap.set videoId e m)
  ∧ (JsMap.size (JsMap.set videoId e m) > 3 →
       ∃ k0 e0 rest,
         m = (k0, e0) :: rest
         ∧ JsMap.size m = 3
         ∧ JsMap.has videoId m = false
         ∧ m' = rest ++ [(videoId, e)]
         ∧ k0 ≠ videoId
         ∧ JsMap.get k0 m' = None).
Proof.
  intros w m e m'.
  assert (Hok : cache_ok m) by apply run_ops_cache_ok, constructor_cache_ok.
  assert (Hm' : m' = put_entry videoId e m).
  { unfold m'. by rewrite addToMemoryCache_run. }
  pose proof (put_entry_ok videoId e m Hok) as [Hnd' Hsz'].
  rewrite Hm'. split_and!; try done.
  - by apply put_entry_get.
  - apply put_entry_fits.
  - intros Hgt.
    destruct (put_entry_evicts videoId e m Hok Hgt) as (k0 & e0 & rest & Hm & Hp & Hne & Hg & Hk0).
    exists k0, e0, rest. split_and!; try done.
    + rewrite size_set in Hgt. destruct Hok as [_ Hsz].
      unfold maxMemoryCacheSize in *. destruct (JsMap.has videoId m); lia.
    + by apply has_false_get.
Qed.

Lemma volatile_cache_bound_witness :
  let env := sample_env NetworkFailure NetworkFailure in
  let ops := [OpPut "a" None None; OpPut "b" None None; OpPut "c" None None] in
  let w := (run_ops env ops (constructor env fresh_world).2).2 in
  let e := MemEntry.mk None None (Date_now env (tick w)) in
  let m' := memoryCache (addToMemoryCache env "d" None None w).2 in
  JsMap.size (JsMap.set "d" e (memoryCache w)) > 3
  ∧ ∃ k0 e0 rest,
      memoryCache w = (k0, e0) :: rest
      ∧ JsMap.size (memoryCache w) = 3
      ∧ JsMap.has "d" (memoryCache w) = false
      ∧ m' = rest ++ [("d", e)]
      ∧ k0 ≠ "d"
      ∧ JsMap.get k0 m' = None.
Proof.
  intros env ops w e m'.
  assert (Hgt : JsMap.size (JsMap.set "d" e (memoryCache w)) > 3).
  { vm_compute. lia. }
  split; [exact Hgt|].
  destruct (volatile_cache_bound env fresh_world ops "d" None None)
    as (_ & _ & _ & _ & _ & Hevict).
  exact (Hevict Hgt).
Defined.

(* ================================================================== *)
(** * The cloud source path *)
(* ================================================================== *)

Lemma digits2_pos_shift52 (m : positive) :
  digits2_pos (4503599627370496 * m) = (digits2_pos m + 52)%positive.
Proof.
  change (4503599627370496 * m)%positive with (Pos.iter xO m 52%positive).
  cbn [Pos.iter]. cbn [digits2_pos]. lia.
Qed.

Lemma SF64mul_one_r (x : spec_float) :
  valid_binary x = true →
  SF64mul x (S754_finite false 4503599627370496 (-52)) = x.
Proof.
  destruct x as [s | s | | s m e]; intros Hv.
  - destruct s; reflexivity.
  - destruct s; reflexivity.
  - reflexivity.
  - unfold SpecFloat.valid_binary, bounded, canonical_mantissa in Hv.
    apply andb_prop in Hv as [Hc Hb].
    apply Z.eqb_eq in Hc.
    unfold SF64mul, SFmul.
    rewrite Bool.xorb_false_r.
    unfold binary_round_aux, shr_fexp.
    rewrite Pos.mul_comm.
    unfold Zdigits2. rewrite digits2_pos_shift52.
    replace (fexp prec emax (Z.pos (digits2_pos m + 52) + (e + -52)))
      with e by (rewrite <- Hc at 1; f_equal; lia).
    replace (e - (e + -52))%Z with 52%Z by lia.
    change (4503599627370496 * m)%positive with (Pos.iter xO m 52%positive).
    cbn -[fexp Z.add Z.sub Z.leb].
    replace (e + -52 + 52)%Z with e by lia.
    rewrite Hc. rewrite Z.sub_diag. cbn -[Z.leb Z.sub].
    rewrite Hb. reflexivity.
Qed.

(** Multiplying a double by [1.0] gives the double back. *)
Lemma float_mul_one_r (x : float) : (x * 1)%float = x.
Proof.
  apply Prim2SF_inj. rewrite mul_spec.
  change (Prim2SF 1%float) with (S754_finite false 4503599627370496 (-52)).
  apply SF64mul_one_r, Prim2SF_valid.
Qed.

Lemma caption_of_times isGenerated segment :
  Caption.start (caption_of (durationMultiplier isGenerated) segment)
  = Snippet.start segment
  ∧ Caption.end_ (caption_of (durationMultiplier isGenerated) segment)
    = if isGenerated
      then (Snippet.start segment + Snippet.duration segment * 0.45)%float
      else (Snippet.start segment + Snippet.duration segment)%float.
Proof.
  destruct isGenerated; simpl; [done|].
  by rewrite float_mul_one_r.
Qed.

Lemma captions_of_times (isGenerated : bool) (segments : list Snippet.t) :
  Forall2
    (λ (segment : Snippet.t) (caption : Caption.t),
       Caption.start caption = Snippet.start segment
       ∧ Caption.end_ caption
         = if isGenerated
           then (Snippet.start segment + Snippet.duration segment * 0.45)%float
           else (Snippet.start segment + Snippet.duration segment)%float)
    segments (caption_of (durationMultiplier isGenerated) <$> segments).
Proof.
  induction segments as [|segment segments IH]; constructor; [|exact IH].
  apply caption_of_times.
Qed.

(** C5. On the cloud path, when the provider answers 2xx with
    [success] and a non-empty list of segments, [fetchFromVocabumin]
    returns a fresh [captions] array with one caption per segment, in
    order, whose [start] is the segment's and whose [end] is
    [start + duration * 0.45] for a machine-generated transcript and
    [start + duration] for a manually authored one; and a generated
    segment [{start:10, duration:4}] ends at [11.8]. *)
Theorem cloud_caption_end_time env videoId w st data segments :
  fetch_transcript env (tick w) videoId = Responded st (Some data) →
  (200 ≤ st ≤ 299)%Z →
  VocabuminData.success data = true →
  snippets_of (VocabuminData.transcript data) = Some segments →
  segments ≠ [] →
  let isGenerated := is_generated_of (VocabuminData.transcript data) in
  ∃ captions captionData w' caps,
    fetchFromVocabumin env videoId w
    = (Returned (FetchResult.mk true (Some captions) None (Some captionData) None), w')
    ∧ captionsObjs (heap w') !! captions = Some (CaptionArray caps)
    ∧ Forall2
        (λ (segment : Snippet.t) (caption : Caption.t),
           Caption.start caption = Snippet.start segment
           ∧ Caption.end_ caption
             = if isGenerated
               then (Snippet.start segment + Snippet.duration segment * 0.45)%float
               else (Snippet.start segment + Snippet.duration segment)%float)
        segments caps
    ∧ ∀ text,
        Caption.end_ (caption_of (durationMultiplier true) (Snippet.mk 10 4 text))
        = 11.8%float.
Proof.
  intros Hfetch Hst Hsucc Hsnip Hne isGenerated.
  unfold fetchFromVocabumin, fetch, json, ok. js_unfold. simpl.
  rewrite Hfetch. simpl.
  replace ((200 <=? st)%Z && (st <=? 299)%Z) with true by (symmetry; apply andb_true_intro; lia).
  rewrite Hsnip, Hsucc.
  destruct segments as [|s ss]; [done|]. simpl.
  eexists _, _, _, _. split; [reflexivity|]. simpl.
  split; [by rewrite lookup_app_r, Nat.sub_diag by done|].
  split; [|done].
  apply (captions_of_times isGenerated (s :: ss)).
Qed.

Lemma cloud_caption_end_time_witness :
  let env := sample_env NetworkFailure (Responded 200 (Some generated_transcript)) in
  let segments := [Snippet.mk 10 4 "Hello, world."] in
  (fetch_transcript env (tick fresh_world) "abc123"
   = Responded 200 (Some generated_transcript)
   ∧ (200 ≤ 200 ≤ 299)%Z
   ∧ VocabuminData.success generated_transcript = true
   ∧ snippets_of (VocabuminData.transcript generated_transcript) = Some segments
   ∧ segments ≠ [])
  ∧ ∃ captions captionData w' caps,
      fetchFromVocabumin env "abc123" fresh_world
      = (Returned (FetchResult.mk true (Some captions) None (Some captionData) None), w')
      ∧ captionsObjs (heap w') !! captions = Some (CaptionArray caps)
      ∧ Forall2
          (λ (segment : Snippet.t) (caption : Caption.t),
             Caption.start caption = Snippet.start segment
             ∧ Caption.end_ caption
               = (Snippet.start segment + Snippet.duration segment * 0.45)%float)
          segments caps
      ∧ ∀ text,
          Caption.end_ (caption_of (durationMultiplier true) (Snippet.mk 10 4 text))
          = 11.8%float.
Proof.
  intros env segments.
  assert (H1 : fetch_transcript env (tick fresh_world) "abc123"
               = Responded 200 (Some generated_transcript)) by reflexivity.
  assert (H2 : (200 ≤ 200 ≤ 299)%Z) by lia.
  assert (H3 : VocabuminData.success generated_transcript = true) by reflexivity.
  assert (H4 : snippets_of (VocabuminData.transcript generated_transcript) = Some segments)
    by reflexivity.
  assert (H5 : segments ≠ []) by done.
  split; [by split_and!|].
  exact (cloud_caption_end_time env "abc123" fresh_world 200 generated_transcript
           segments H1 H2 H3 H4 H5).
Defined.

(* ================================================================== *)
(** * The remote check *)
(* ================================================================== *)

Lemma getAuthToken_returns env w :
  ∃ token w1, getAuthToken env w = (Returned token, w1).
Proof.
  unfold getAuthToken, try_catch.
  match goal with |- context [match ?m w with _ => _ end] => destruct (m w) as [[token|e] w1] end;
    eauto.
Qed.

(** C2. [checkCacheAndLimits] always returns a decision and never throws.
    It returns exactly [{cached:false, allowed:true, usage:null}], an
    object without any other member, when no auth token can be obtained,
    when the request rejects, when the status is neither 2xx nor 429, and
    when the body is not JSON.  On a 2xx status and on 429 alike it
    returns the parsed body as it is. *)
Theorem remote_check_fails_open env videoId w :
  let fails_open (decision : ServerResponse.t) :=
    decision = {| ServerResponse.cached := false;
                  ServerResponse.subtitles := None;
                  ServerResponse.hit_count := None;
                  ServerResponse.age_days := None;
                  ServerResponse.allowed := true;
                  ServerResponse.reason := None;
                  ServerResponse.waitTime := None;
                  ServerResponse.usage := None |} in
  ∃ token w1 decision w',
    getAuthToken env (add_call (Invoke M_checkCacheAndLimits) w) = (Returned token, w1)
    ∧ checkCacheAndLimits env videoId w = (Returned decision, w')
    ∧ (falsy_opt token = true → fails_open decision)
    ∧ (falsy_opt token = false →
       ∀ answer, fetch_or_cache env (tick w1) videoId (or_else token "") = answer →
         (answer = NetworkFailure → fails_open decision)
         ∧ (∀ st body, answer = Responded st body →
              ¬ (200 ≤ st ≤ 299)%Z → st ≠ 429%Z → fails_open decision)
         ∧ (∀ st, answer = Responded st None → fails_open decision)
         ∧ (∀ st json, answer = Responded st (Some json) →
              (200 ≤ st ≤ 299)%Z ∨ st = 429%Z → decision = json)).
Proof.
  cbv zeta beta.
  destruct (getAuthToken_returns env (add_call (Invoke M_checkCacheAndLimits) w))
    as (token & w1 & Htok).
  exists token, w1.
  unfold checkCacheAndLimits, fetch, json, ok. js_unfold. simpl. rewrite Htok.
  destruct (falsy_opt token) eqn:Hfalsy; simpl.
  { eexists _, _. split; [done|]. split; [reflexivity|]. split; done. }
  destruct (fetch_or_cache env (tick w1) videoId (or_else token "")) as [|st body] eqn:Hans;
    simpl.
  { eexists _, _. split; [done|]. split; [reflexivity|]. split; [done|].
    intros _ answer <-. split_and!; done. }
  destruct ((200 <=? st)%Z && (st <=? 299)%Z || (st =? 429)%Z) eqn:Hst; simpl.
  - destruct body as [j|]; simpl.
    + eexists _, _. split; [done|]. split; [reflexivity|]. split; [done|].
      intros _ answer <-.
      split_and!; [done | | done |].
      * intros st' body' [= <- <-] Hno Hno'.
        apply orb_prop in Hst as [Hst|Hst]; [apply andb_prop in Hst|]; lia.
      * by intros st' j' [= <- <-] _.
    + eexists _, _. split; [done|]. split; [reflexivity|]. split; [done|].
      intros _ answer <-. split_and!; done.
  - eexists _, _. split; [done|]. split; [reflexivity|]. split; [done|].
    intros _ answer <-.
    split_and!; [done..|].
    intros st' j' [= <- ->] Hin.
    apply orb_false_elim in Hst as [Hst1 Hst2].
    apply andb_false_iff in Hst1. lia.
Qed.

Lemma remote_check_fails_open_witness :
  let run answer :=
    checkCacheAndLimits (sample_env answer NetworkFailure) "abc123" fresh_world in
  let no_storage :=
    mkEnv (λ n, 1700000000000 + 1000 * Z.of_nat n)%Z
      (λ _, true) (λ _, false) (λ _, false) (λ _, true)
      (λ _ _ _, Responded 200 (Some burst_limit_decision)) (λ _ _, NetworkFailure)
      (λ _ _ _, NetworkFailure) (λ _ _, Responded 200 (Some tt))
      (λ _, "k3j9x0q2a") (λ s, s) in
  let fails_open (outcome : Outcome ServerResponse.t * World) :=
    ∃ decision w',
      outcome = (Returned decision, w')
      ∧ ServerResponse.cached decision = false
      ∧ ServerResponse.allowed decision = true
      ∧ ServerResponse.usage decision = None
      ∧ ServerResponse.subtitles decision = None
      ∧ ServerResponse.waitTime decision = None in
  (∃ w', run (Responded 429 (Some burst_limit_decision))
         = (Returned burst_limit_decision, w'))
  ∧ fails_open (run NetworkFailure)
  ∧ fails_open (run (Responded 500 (Some burst_limit_decision)))
  ∧ fails_open (run (Responded 200 None))
  ∧ fails_open (checkCacheAndLimits no_storage "abc123" fresh_world).
Proof.
  intros run no_storage fails_open.
  assert (Hopen : ∀ decision : ServerResponse.t,
            decision = ServerResponse.mk false None None None true None None None →
            ∀ w', fails_open (Returned decision, w')).
  { intros decision -> w'.
    exists (ServerResponse.mk false None None None true None None None), w'.
    by split_and!. }
  split_and!.
  - pose proof (remote_check_fails_open
                  (sample_env (Responded 429 (Some burst_limit_decision)) NetworkFailure)
                  "abc123" fresh_world) as H.
    cbv zeta beta in H. destruct H as (token & w1 & decision & w' & Htok & Hrun & _ & Hyes).
    vm_compute in Htok. injection Htok as <- <-.
    exists w'. unfold run. rewrite Hrun. f_equal. f_equal.
    refine (proj2 (proj2 (proj2 (Hyes eq_refl _ eq_refl))) 429%Z burst_limit_decision
              eq_refl _).
    right. reflexivity.
  - pose proof (remote_check_fails_open (sample_env NetworkFailure NetworkFailure)
                  "abc123" fresh_world) as H.
    cbv zeta beta in H. destruct H as (token & w1 & decision & w' & Htok & Hrun & _ & Hyes).
    vm_compute in Htok. injection Htok as <- <-.
    unfold run. rewrite Hrun. apply Hopen.
    exact (proj1 (Hyes eq_refl _ eq_refl) eq_refl).
  - pose proof (remote_check_fails_open
                  (sample_env (Responded 500 (Some burst_limit_decision)) NetworkFailure)
                  "abc123" fresh_world) as H.
    cbv zeta beta in H. destruct H as (token & w1 & decision & w' & Htok & Hrun & _ & Hyes).
    vm_compute in Htok. injection Htok as <- <-.
    unfold run. rewrite Hrun. apply Hopen.
    refine (proj1 (proj2 (Hyes eq_refl _ eq_refl)) 500%Z (Some burst_limit_decision)
              eq_refl _ _); lia.
  - pose proof (remote_check_fails_open (sample_env (Responded 200 None) NetworkFailure)
                  "abc123" fresh_world) as H.
    cbv zeta beta in H. destruct H as (token & w1 & decision & w' & Htok & Hrun & _ & Hyes).
    vm_compute in Htok. injection Htok as <- <-.
    unfold run. rewrite Hrun. apply Hopen.
    exact (proj1 (proj2 (proj2 (Hyes eq_refl _ eq_refl))) 200%Z eq_refl).
  - pose proof (remote_check_fails_open no_storage "abc123" fresh_world) as H.
    cbv zeta beta in H. destruct H as (token & w1 & decision & w' & Htok & Hrun & Hno & _).
    vm_compute in Htok. injection Htok as <- <-.
    rewrite Hrun. apply Hopen. exact (Hno eq_refl).
Defined.

(* ================================================================== *)
(** * The persistent tier *)
(* ================================================================== *)

Ltac idb_unfold :=
  unfold getFromIndexedDB, saveToIndexedDB, deleteFromIndexedDB, ensure_db,
    initIndexedDB, transaction, request, now in *.

Lemma deserialize_run (r : Row.t) w :
  ∃ data h',
    deserialize r w = (Returned data, set_heap h' w)
    ∧ deserialized h' r data
    ∧ (∀ a, RowData.captions data = Some a → length (captionsObjs (heap w)) ≤ a)
    ∧ (∃ l, captionsObjs h' = captionsObjs (heap w) ++ l)
    ∧ (∃ l, captionDataObjs h' = captionDataObjs (heap w) ++ l).
Proof.
  unfold deserialize, new_captions_opt, new_captionData_opt, new_captions, new_captionData.
  js_unfold. destruct r as [v [c|] [d|] t]; simpl.
  - eexists _, _. split; [reflexivity|]. unfold deserialized. simpl.
    rewrite !lookup_app_r, !Nat.sub_diag by done. simpl.
    split_and!; try done.
    + by intros a [= <-].
    + by exists [c].
    + by exists [d].
  - eexists _, (mkHeap _ _). split; [reflexivity|]. unfold deserialized. simpl.
    rewrite !lookup_app_r, !Nat.sub_diag by done. simpl.
    split_and!; try done.
    + by intros a [= <-].
    + by exists [c].
    + exists []. by rewrite app_nil_r.
  - eexists _, (mkHeap _ _). split; [reflexivity|]. unfold deserialized. simpl.
    rewrite !lookup_app_r, !Nat.sub_diag by done. simpl.
    split_and!; try done.
    + exists []. by rewrite app_nil_r.
    + by exists [d].
  - exists (RowData.mk v None None t), (heap w). split.
    + by destruct w.
    + unfold deserialized. simpl. split_and!; try done.
      * exists []. by rewrite app_nil_r.
      * exists []. by rewrite app_nil_r.
Qed.

Lemma deleteFromIndexedDB_open env videoId w :
  db w = Some tt →
  idb_transaction_throws env (tick w) = false →
  idb_request_fails env (S (tick w)) = false →
  deleteFromIndexedDB env videoId w
  = (Returned true,
     set_idb_store (delete videoId (idb_store w))
       (bump (add_call (IdbDelete videoId) (bump (add_call (IdbTransaction true) w))))).
Proof.
  intros Hdb Hthrows Hfails. idb_unfold. js_unfold. simpl.
  rewrite Hdb, Hthrows. simpl. rewrite Hfails. reflexivity.
Qed.

(** Reading a key that has no row resolves with [null], whatever the
    browser does, once the store is open. *)
Lemma getFromIndexedDB_absent env videoId w :
  db w = Some tt →
  idb_store w !! videoId = None →
  ∃ w', getFromIndexedDB env videoId w = (Returned None, w')
        ∧ idb_store w' = idb_store w
        ∧ db w' = Some tt.
Proof.
  intros Hdb Hrow. idb_unfold. js_unfold. simpl. rewrite Hdb.
  destruct (idb_transaction_throws env (tick w)); simpl; [by eexists|].
  destruct (idb_request_fails env (S (tick w))); simpl; [by eexists|].
  rewrite Hrow. by eexists.
Qed.

(** A read with the store open and no fault. *)
Lemma getFromIndexedDB_open env videoId w row :
  db w = Some tt →
  idb_transaction_throws env (tick w) = false →
  idb_request_fails env (S (tick w)) = false →
  idb_store w !! videoId = Some row →
  ∃ data h',
    deserialized h' row data
    ∧ (∀ a, RowData.captions data = Some a → length (captionsObjs (heap w)) ≤ a)
    ∧ let w2 := bump (set_heap h' (after_read_request videoId w)) in
      let age := (read_clock env w - Row.cachedAt row)%Z in
      getFromIndexedDB env videoId w
      = if (age <? cacheExpiry)%Z
        then (Returned (Some (LocalHit.mk data age)), w2)
        else (Returned None, (deleteFromIndexedDB env videoId w2).2).
Proof.
  intros Hdb Hthrows Hfails Hrow.
  destruct (deserialize_run row (after_read_request videoId w))
    as (data & h' & Hde & Hdata & Hfresh & _ & _).
  exists data, h'. split; [done|]. split; [done|].
  unfold getFromIndexedDB, ensure_db, transaction, request, now. js_unfold. simpl.
  rewrite Hdb, Hthrows. simpl. rewrite Hfails. simpl. rewrite Hrow.
  unfold after_read_request in Hde. rewrite Hde. simpl.
  destruct Hdata as (_ & -> & _). unfold read_clock.
  by destruct (_ <? _)%Z.
Qed.

Lemma ensure_db_run env w w1 :
  ensure_db env w = (Returned tt, w1) →
  db w1 = Some tt ∧ idb_store w1 = idb_store w ∧ tick w ≤ tick w1.
Proof.
  unfold ensure_db, initIndexedDB. js_unfold. simpl.
  destruct (db w) as [[]|] eqn:Hdb.
  - intros [= <-]. by rewrite Hdb.
  - destruct (indexedDB_open env (tick w)); intros [= <-]. simpl.
    split_and!; [done..|lia].
Qed.

(** A read first makes sure that the store is open, and goes on from there. *)
Lemma getFromIndexedDB_after_open env videoId w w0 :
  ensure_db env w = (Returned tt, w0) →
  getFromIndexedDB env videoId w = getFromIndexedDB env videoId w0.
Proof.
  intros Hens. pose proof (ensure_db_run _ _ _ Hens) as (Hdb & _ & _).
  unfold getFromIndexedDB. unfold bind at 1 3. rewrite Hens.
  unfold ensure_db at 1. js_unfold. by rewrite Hdb.
Qed.

(** Whatever the browser does: a read that resolves with an entry found
    its row in the store, younger than the expiry window, and left the
    store as it was. *)
Lemma getFromIndexedDB_hit env videoId w hit w' :
  getFromIndexedDB env videoId w = (Returned (Some hit), w') →
  ∃ row,
    idb_store w !! videoId = Some row
    ∧ (LocalHit.age hit < cacheExpiry)%Z
    ∧ (∃ n, tick w ≤ n < tick w'
            ∧ LocalHit.age hit = (Date_now env n - Row.cachedAt row)%Z)
    ∧ deserialized (heap w') row (LocalHit.data hit)
    ∧ idb_store w' = idb_store w
    ∧ db w' = Some tt.
Proof.
  unfold getFromIndexedDB. unfold bind at 1.
  destruct (ensure_db env w) as [[[]|e] w1'] eqn:Hens; [|done].
  apply ensure_db_run in Hens as (Hdb1 & Hst1 & Htick1).
  unfold transaction, request, now. js_unfold. simpl.
  destruct (idb_transaction_throws env (tick w1')); simpl; [done|].
  destruct (idb_request_fails env (S (tick w1'))); simpl; [done|].
  destruct (idb_store w1' !! videoId) as [row|] eqn:Hrow; simpl; [|done].
  destruct (deserialize_run row
              (bump (add_call (IdbGet videoId) (bump (add_call (IdbTransaction false) w1')))))
    as (data & h' & Hde & Hdata & _).
  rewrite Hde. simpl.
  destruct (_ <? _)%Z eqn:Hage; simpl; [|done].
  intros [= <- <-]. exists row. simpl.
  rewrite <- Hst1. split_and!; try done.
  - by apply Z.ltb_lt.
  - exists (S (S (tick w1'))). split; [lia|].
    by destruct Hdata as (_ & -> & _).
Qed.

Lemma new_calls_app w w' l : trace w' = trace w ++ l → new_calls w w' = l.
Proof. unfold new_calls. intros ->. by rewrite drop_app_length. Qed.

Lemma new_tasks_app w w' l : background w' = background w ++ l → new_tasks w w' = l.
Proof. unfold new_tasks. intros ->. by rewrite drop_app_length. Qed.

Lemma read_again_absent envs videoId w :
  db w = Some tt →
  idb_store w !! videoId = None →
  db (read_again envs videoId w) = Some tt
  ∧ idb_store (read_again envs videoId w) !! videoId = None.
Proof.
  revert w. induction envs as [|env envs IH]; intros w Hdb Hrow; [done|].
  simpl. destruct (getFromIndexedDB_absent env videoId w Hdb Hrow) as (w' & -> & Hst & Hdb').
  simpl. apply IH; [done | by rewrite Hst].
Qed.

(** C6. The expiry window is 7 days.  A read resolves with an entry only
    if the row is stored and [now - cachedAt] is strictly below the window
    (whatever the browser does).  With the store open (or opened by the
    read) and no IndexedDB fault, a row younger than the window is returned
    as stored; a row at or past the window is answered with [null], its
    delete is requested by that same read and the row is gone from the
    store; and every later read of that key, in any browser conditions,
    resolves with [null] (never rejects) and finds no row. *)
Theorem persistent_read_expiry env videoId w :
  cacheExpiry = (7 * 24 * 60 * 60 * 1000)%Z
  ∧ (∀ hit w',
       getFromIndexedDB env videoId w = (Returned (Some hit), w') →
       ∃ row,
         idb_store w !! videoId = Some row
         ∧ (LocalHit.age hit < cacheExpiry)%Z
         ∧ (∃ n, tick w ≤ n < tick w'
                 ∧ LocalHit.age hit = (Date_now env n - Row.cachedAt row)%Z)
         ∧ deserialized (heap w') row (LocalHit.data hit)
         ∧ idb_store w' = idb_store w)
  ∧ (∀ w0 row,
       ensure_db env w = (Returned tt, w0) →
       idb_healthy env →
       idb_store w !! videoId = Some row →
       let age := (read_clock env w0 - Row.cachedAt row)%Z in
       ((age < cacheExpiry)%Z →
          ∃ data w',
            getFromIndexedDB env videoId w = (Returned (Some (LocalHit.mk data age)), w')
            ∧ deserialized (heap w') row data
            ∧ idb_store w' = idb_store w)
       ∧ ((cacheExpiry ≤ age)%Z →
          ∃ w',
            getFromIndexedDB env videoId w = (Returned None, w')
            ∧ new_calls w0 w'
              = [IdbTransaction false; IdbGet videoId; IdbTransaction true; IdbDelete videoId]
            ∧ idb_store w' = delete videoId (idb_store w)
            ∧ ∀ envs env',
                ∃ w'',
                  getFromIndexedDB env' videoId (read_again envs videoId w')
                  = (Returned None, w'')
                  ∧ idb_store w'' !! videoId = None)).
Proof.
  split; [reflexivity|]. split.
  { intros hit w' Hrun.
    destruct (getFromIndexedDB_hit env videoId w hit w' Hrun)
      as (row & ? & ? & ? & ? & ? & _).
    by exists row. }
  intros w0 row Hens Hhealthy Hrow age.
  rewrite (getFromIndexedDB_after_open env videoId w w0 Hens).
  apply ensure_db_run in Hens as (Hdb & Hst & _).
  rewrite <- Hst in *.
  destruct (getFromIndexedDB_open env videoId w0 row Hdb
              (proj1 (Hhealthy _)) (proj2 (Hhealthy _)) Hrow)
    as (data & h' & Hdata & _ & Hrun).
  cbv zeta in Hrun. fold age in Hrun. split.
  - intros Hfresh. apply Z.ltb_lt in Hfresh. rewrite Hfresh in Hrun.
    eexists data, _. split; [exact Hrun|]. done.
  - intros Hstale. apply Z.ltb_ge in Hstale. rewrite Hstale in Hrun.
    rewrite deleteFromIndexedDB_open in Hrun
      by (try apply Hhealthy; done).
    eexists. split; [exact Hrun|]. simpl.
    split; [apply new_calls_app; simpl; by rewrite <- !app_assoc|].
    split; [done|].
    intros envs env'.
    match goal with |- context [read_again envs videoId ?w1] =>
      destruct (read_again_absent envs videoId w1) as [Hdb' Hrow']
    end; [done | simpl; apply lookup_delete_eq |].
    destruct (getFromIndexedDB_absent env' videoId _ Hdb' Hrow') as (w'' & Hr & Hst' & _).
    exists w''. split; [done|]. by rewrite Hst'.
Qed.

Lemma persistent_read_expiry_witness :
  let env := sample_env NetworkFailure NetworkFailure in
  let stamp := (1700000002000 - 7 * 24 * 60 * 60 * 1000)%Z in
  let w := world_with_row stamp in
  (ensure_db env w = (Returned tt, w)
   ∧ idb_healthy env
   ∧ (cacheExpiry ≤ read_clock env w - stamp)%Z)
  ∧ ∃ w',
      getFromIndexedDB env "abc123" w = (Returned None, w')
      ∧ new_calls w w'
        = [IdbTransaction false; IdbGet "abc123"; IdbTransaction true; IdbDelete "abc123"]
      ∧ idb_store w' = delete "abc123" (idb_store w)
      ∧ ∀ envs env',
          ∃ w'',
            getFromIndexedDB env' "abc123" (read_again envs "abc123" w')
            = (Returned None, w'')
            ∧ idb_store w'' !! "abc123" = None.
Proof.
  intros env stamp w.
  assert (Hopen : ensure_db env w = (Returned tt, w)) by reflexivity.
  assert (Hhealthy : idb_healthy env) by (intros n; split; reflexivity).
  assert (Hstale : (cacheExpiry ≤ read_clock env w - stamp)%Z) by (vm_compute; discriminate).
  split; [by split_and!|].
  destruct (persistent_read_expiry env "abc123" w) as (_ & _ & Hread).
  exact (proj2 (Hread w _ Hopen Hhealthy eq_refl) Hstale).
Defined.

(* ================================================================== *)
(** * The orchestrator: local hits *)
(* ================================================================== *)

Lemma put_entry_get_new videoId e m :
  JsMap.get videoId m = None → JsMap.get videoId (put_entry videoId e m) = Some e.
Proof.
  intros Hnone. unfold put_entry. cbv zeta.
  rewrite keys_set_new by done.
  assert (Hget : JsMap.get videoId (m ++ [(videoId, e)]) = Some e).
  { rewrite <- (keys_set_new videoId e m) by done. apply get_set_eq. }
  destruct (_ <? _)%nat eqn:Hsz; [|done].
  destruct m as [|[k0 e0] rest]; [done|]. simpl.
  rewrite decide_True by done.
  assert (Hne : k0 ≠ videoId).
  { intros ->. simpl in Hnone. by rewrite decide_True in Hnone. }
  rewrite get_delete_ne by done.
  simpl in Hget. by rewrite decide_False in Hget.
Qed.

Lemma get_Some_keys {V} k (v : V) m : JsMap.get k m = Some v → k ∈ JsMap.keys m.
Proof.
  intros Hg. destruct (decide (k ∈ JsMap.keys m)) as [|Hnin]; [done|].
  apply get_None_keys in Hnin. congruence.
Qed.

(** C1. In a manager whose tiers are keyed by video ids: a call for an id
    held by the volatile cache returns [{source:"memory", cached:true}]
    with the cached references and the age, records no collaborator call
    at all, detaches no task and leaves both tiers as they are; a call for
    an id that misses the volatile cache and whose persistent read is a hit
    returns [{source:"local_cache", cached:true}] with the entry read,
    leaves that entry in the volatile cache, makes only IndexedDB calls (no
    remote call, no method of the remote client or source fetcher entered),
    and detaches no task. *)
Theorem local_hits_bypass_remote env videoId videoTitle channelName w :
  keys_truthy w →
  (∀ cached,
     JsMap.get videoId (memoryCache w) = Some cached →
     let age := (Date_now env (tick w) - MemEntry.timestamp cached)%Z in
     ∃ r w',
       fetchSubtitles env videoId videoTitle channelName w = (Returned r, w')
       ∧ r = result_memory cached age
       ∧ Result.source r = Some "memory"
       ∧ Result.cached r = Some true
       ∧ Result.error r = None
       ∧ Result.captions r = MemEntry.captions cached
       ∧ Result.captionData r = MemEntry.captionData cached
       ∧ Result.age_seconds r = Some (Math_round_div age 1000)
       ∧ trace w' = trace w
       ∧ background w' = background w
       ∧ memoryCache w' = memoryCache w
       ∧ idb_store w' = idb_store w)
  ∧ (JsMap.has videoId (memoryCache w) = false →
     ∀ hit w1,
       getFromIndexedDB env videoId (set_currentVideoId (Some videoId) w)
       = (Returned (Some hit), w1) →
       ∃ r w',
         fetchSubtitles env videoId videoTitle channelName w = (Returned r, w')
         ∧ r = result_local_cache hit (Math_round_div (LocalHit.age hit) (1000 * 60))
         ∧ Result.source r = Some "local_cache"
         ∧ Result.cached r = Some true
         ∧ Result.error r = None
         ∧ Result.captions r = RowData.captions (LocalHit.data hit)
         ∧ Result.captionData r = RowData.captionData (LocalHit.data hit)
         ∧ JsMap.get videoId (memoryCache w')
           = Some (MemEntry.mk (RowData.captions (LocalHit.data hit))
                     (RowData.captionData (LocalHit.data hit))
                     (Date_now env (tick w1)))
         ∧ forallb not_remote (new_calls w w') = true
         ∧ new_tasks w w' = []
         ∧ idb_store w' = idb_store w).
Proof.
  intros [Hmem Hstore]. split.
  - intros cached Hget age.
    assert (Htruthy : truthy videoId = true) by (eapply Hmem, get_Some_keys, Hget).
    unfold fetchSubtitles. rewrite Htruthy. js_unfold. simpl.
    unfold JsMap.has. rewrite Hget. unfold now. js_unfold. simpl.
    eexists _, _. split; [reflexivity|]. by split_and!.
  - intros Hmiss hit w1 Hread.
    pose proof (getFromIndexedDB_hit _ _ _ _ _ Hread) as (row & Hrow & _ & _ & _ & Hst & _).
    simpl in Hrow, Hst.
    assert (Htruthy : truthy videoId = true) by (apply Hstore; by rewrite Hrow).
    pose proof (getFromIndexedDB_same_memoryCache env videoId
                  (set_currentVideoId (Some videoId) w)) as Hsame.
    pose proof (getFromIndexedDB_calls env videoId
                  (set_currentVideoId (Some videoId) w)) as (calls & Hcalls & Hcallsok).
    pose proof (getFromIndexedDB_tasks env videoId
                  (set_currentVideoId (Some videoId) w)) as (tasks & Htasks & Htasksok).
    rewrite Hread in Hsame, Hcalls, Htasks. unfold same_memoryCache in Hsame.
    simpl in Hsame, Hcalls, Htasks.
    assert (tasks = []) as -> by (by destruct tasks).
    unfold fetchSubtitles. rewrite Htruthy. js_unfold. simpl.
    rewrite Hmiss, Hread. rewrite addToMemoryCache_run. simpl.
    eexists _, _. split; [reflexivity|]. split_and!; try done.
    + rewrite Hsame. apply put_entry_get_new. by apply has_false_get.
    + by rewrite (new_calls_app _ _ calls).
    + by apply new_tasks_app.
Qed.

Lemma keys_truthy_sample_memory : keys_truthy world_with_memory.
Proof.
  split; simpl.
  - intros k Hk. apply list_elem_of_singleton in Hk as ->. reflexivity.
  - intros k Hk. rewrite lookup_empty in Hk. by destruct Hk.
Qed.

Lemma keys_truthy_sample_row stamp : keys_truthy (world_with_row stamp).
Proof.
  split; simpl.
  - intros k Hk. by apply elem_of_nil in Hk.
  - intros k [row Hk]. apply lookup_singleton_Some in Hk as [<- _]. reflexivity.
Qed.

Lemma local_hits_bypass_remote_witness :
  let env := sample_env NetworkFailure NetworkFailure in
  (keys_truthy world_with_memory
   ∧ ∃ cached,
       JsMap.get "abc123" (memoryCache world_with_memory) = Some cached
       ∧ ∃ r w',
           fetchSubtitles env "abc123" None None world_with_memory = (Returned r, w')
           ∧ Result.source r = Some "memory"
           ∧ Result.cached r = Some true
           ∧ trace w' = trace world_with_memory
           ∧ background w' = background world_with_memory)
  ∧ (let w := world_with_row 1700000000000 in
     keys_truthy w
     ∧ JsMap.has "abc123" (memoryCache w) = false
     ∧ ∃ hit w1,
         getFromIndexedDB env "abc123" (set_currentVideoId (Some "abc123") w)
         = (Returned (Some hit), w1)
         ∧ ∃ r w',
             fetchSubtitles env "abc123" None None w = (Returned r, w')
             ∧ Result.source r = Some "local_cache"
             ∧ Result.cached r = Some true
             ∧ JsMap.get "abc123" (memoryCache w')
               = Some (MemEntry.mk (RowData.captions (LocalHit.data hit))
                         (RowData.captionData (LocalHit.data hit))
                         (Date_now env (tick w1)))
             ∧ forallb not_remote (new_calls w w') = true
             ∧ new_tasks w w' = []).
Proof.
  intros env. split.
  - split; [exact keys_truthy_sample_memory|].
    eexists. split; [reflexivity|].
    destruct (proj1 (local_hits_bypass_remote env "abc123" None None world_with_memory
                       keys_truthy_sample_memory) _ eq_refl)
      as (r & w' & Hrun & _ & Hsrc & Hc & _ & _ & _ & _ & Htr & Hbg & _).
    exists r, w'. by split_and!.
  - intros w. split; [apply keys_truthy_sample_row|]. split; [reflexivity|].
    destruct (getFromIndexedDB env "abc123" (set_currentVideoId (Some "abc123") w))
      as [[[hit|]|e] w1] eqn:Hread;
      [| exfalso; vm_compute in Hread; discriminate ..].
    exists hit, w1. split; [reflexivity|].
    destruct (proj2 (local_hits_bypass_remote env "abc123" None None w
                       (keys_truthy_sample_row _)) eq_refl _ _ Hread)
      as (r & w' & Hrun & _ & Hsrc & Hc & _ & _ & _ & Hget & Hcalls & Htasks & _).
    exists r, w'. by split_and!.
Defined.

(* ================================================================== *)
(** * The orchestrator: the quota gate *)
(* ================================================================== *)

Lemma adds_calls_new P w w' : adds_calls P w w' → forallb P (new_calls w w') = true.
Proof. intros (l & Hl & Hok). by rewrite (new_calls_app _ _ l). Qed.

(** C3. When both local tiers miss and the remote decision is a miss with
    [allowed:false], [fetchSubtitles] returns the rate-limit error, which
    carries the decision's [waitTime] and [usage], and no call of the
    source fetcher is made; for a [waitTime] of 300 seconds the message is
    a 5-minute wait. *)
Theorem quota_denial_is_terminal env videoId videoTitle channelName w w2 decision w3 :
  truthy videoId = true →
  JsMap.has videoId (memoryCache w) = false →
  getFromIndexedDB env videoId (set_currentVideoId (Some videoId) w) = (Returned None, w2) →
  checkCacheAndLimits env videoId w2 = (Returned decision, w3) →
  ServerResponse.cached decision = false →
  ServerResponse.allowed decision = false →
  ∃ r,
    fetchSubtitles env videoId videoTitle channelName w = (Returned r, w3)
    ∧ r = result_rate_limited decision
    ∧ is_Some (Result.error r)
    ∧ Result.wait_time r = ServerResponse.waitTime decision
    ∧ Result.usage r = ServerResponse.usage decision
    ∧ forallb not_source_fetch (new_calls w w3) = true
    ∧ (ServerResponse.waitTime decision = Some 300%Z →
       Result.error r = Some "Rate limited. Wait 5 minutes."
       ∧ Result.wait_time r = Some 300%Z).
Proof.
  intros Htruthy Hmiss Hread Hcheck Hcached Hallowed.
  exists (result_rate_limited decision). split_and!; try done.
  - unfold fetchSubtitles, fetchRemote. rewrite Htruthy. js_unfold. simpl.
    by rewrite Hmiss, Hread, Hcheck, Hcached, Hallowed.
  - apply adds_calls_new.
    pose proof (getFromIndexedDB_no_source env videoId (set_currentVideoId (Some videoId) w))
      as H1.
    pose proof (checkCacheAndLimits_no_source env videoId w2) as H2.
    rewrite Hread in H1. rewrite Hcheck in H2. simpl in H1, H2.
    destruct H1 as (l1 & E1 & F1). destruct H2 as (l2 & E2 & F2).
    exists (l1 ++ l2). simpl in E1.
    split; [by rewrite E2, E1, app_assoc | by rewrite forallb_app, F1, F2].
  - intros Hwait. unfold result_rate_limited. rewrite Hwait. by simpl.
Qed.

Lemma quota_denial_is_terminal_witness :
  let env := sample_env (Responded 429 (Some burst_limit_decision)) NetworkFailure in
  ∃ w2 w3,
    (truthy "abc123" = true
     ∧ JsMap.has "abc123" (memoryCache fresh_world) = false
     ∧ getFromIndexedDB env "abc123" (set_currentVideoId (Some "abc123") fresh_world)
       = (Returned None, w2)
     ∧ checkCacheAndLimits env "abc123" w2 = (Returned burst_limit_decision, w3)
     ∧ ServerResponse.cached burst_limit_decision = false
     ∧ ServerResponse.allowed burst_limit_decision = false)
    ∧ ∃ r,
        fetchSubtitles env "abc123" None None fresh_world = (Returned r, w3)
        ∧ Result.error r = Some "Rate limited. Wait 5 minutes."
        ∧ Result.wait_time r = Some 300%Z
        ∧ Result.usage r = ServerResponse.usage burst_limit_decision
        ∧ forallb not_source_fetch (new_calls fresh_world w3) = true.
Proof.
  intros env.
  destruct (getFromIndexedDB env "abc123" (set_currentVideoId (Some "abc123") fresh_world))
    as [[[hit|]|e] w2] eqn:Hread;
    [exfalso; vm_compute in Hread; discriminate | | exfalso; vm_compute in Hread; discriminate].
  destruct (checkCacheAndLimits env "abc123" w2) as [[decision|e] w3] eqn:Hcheck;
    [| exfalso; vm_compute in Hread; injection Hread as <-;
       vm_compute in Hcheck; discriminate].
  assert (Hdecision : decision = burst_limit_decision).
  { vm_compute in Hread. injection Hread as <-.
    vm_compute in Hcheck. by injection Hcheck as <- _. }
  subst decision.
  exists w2, w3. split; [by split_and!|].
  destruct (quota_denial_is_terminal env "abc123" None None fresh_world w2
              burst_limit_decision w3 eq_refl eq_refl Hread Hcheck eq_refl eq_refl)
    as (r & Hrun & _ & _ & Hwait & Husage & Hcalls & H300).
  exists r. destruct (H300 eq_refl) as [Herr Hw]. by split_and!.
Defined.

(* ================================================================== *)
(** * Round trips, and who shares what *)
(* ================================================================== *)

Lemma saveToIndexedDB_open env videoId captions captionData w :
  db w = Some tt →
  idb_transaction_throws env (tick w) = false →
  idb_request_fails env (S (S (tick w))) = false →
  let row := clone_row (heap w) videoId captions captionData (Date_now env (S (tick w))) in
  saveToIndexedDB env videoId captions captionData w
  = (Returned true,
     set_idb_store (<[videoId := row]> (idb_store w))
       (bump (add_call (IdbPut row) (bump (bump (add_call (IdbTransaction true) w)))))).
Proof.
  intros Hdb Hthrows Hfails row. idb_unfold. js_unfold. simpl.
  rewrite Hdb, Hthrows. simpl. rewrite Hfails. reflexivity.
Qed.

(** A row written by [saveToIndexedDB] and read back before it expires
    comes back as fresh objects holding what the written references held
    when the row was written, whatever has happened to the heap since. *)
Lemma save_then_read env videoId captions captionData w h :
  db w = Some tt →
  idb_healthy env →
  let stamp := Date_now env (S (tick w)) in
  let w1 := set_heap h (saveToIndexedDB env videoId captions captionData w).2 in
  let age := (read_clock env w1 - stamp)%Z in
  (age < cacheExpiry)%Z →
  ∃ data w2,
    getFromIndexedDB env videoId w1 = (Returned (Some (LocalHit.mk data age)), w2)
    ∧ deref_captions (heap w2) (RowData.captions data) = deref_captions (heap w) captions
    ∧ deref_captionData (heap w2) (RowData.captionData data)
      = deref_captionData (heap w) captionData
    ∧ (∀ a, RowData.captions data = Some a → length (captionsObjs h) ≤ a).
Proof.
  intros Hdb Hhealthy stamp w1 age. subst w1 age.
  rewrite saveToIndexedDB_open by (try apply Hhealthy; done). simpl.
  intros Hfresh.
  match goal with |- context [getFromIndexedDB env videoId ?w1] =>
    destruct (getFromIndexedDB_open env videoId w1
                (clone_row (heap w) videoId captions captionData stamp))
      as (data & h' & Hdata & Hnew & Hrun)
  end; try (try apply Hhealthy; done).
  { simpl. apply lookup_insert_eq. }
  cbv zeta in Hrun. simpl in Hrun.
  apply Z.ltb_lt in Hfresh. rewrite Hfresh in Hrun.
  eexists data, _. split; [exact Hrun|]. simpl.
  destruct Hdata as (_ & _ & Hc & Hd). by split_and!.
Qed.

(** C8, as the code has it.  The volatile tier stores and returns the very
    references it was given: a put followed by a get yields the same
    [captions] and [captionData] references (equal payload, shared, not
    copied).  The persistent tier stores a structured clone: with the store
    open, no fault and before expiry, a put followed by a get yields
    objects whose contents equal what was written field for field, at fresh
    references that differ from the ones written; and a mutation of the
    written object after the put does not change what the get returns. *)
Theorem tiers_round_trip env videoId captions captionData w :
  (cache_ok (memoryCache w) →
   ∃ t, JsMap.get videoId
          (memoryCache (addToMemoryCache env videoId captions captionData w).2)
        = Some (MemEntry.mk captions captionData t))
  ∧ (db w = Some tt → idb_healthy env →
     let stamp := Date_now env (S (tick w)) in
     let w1 := (saveToIndexedDB env videoId captions captionData w).2 in
     (read_clock env w1 - stamp < cacheExpiry)%Z →
     (∃ hit w2,
        getFromIndexedDB env videoId w1 = (Returned (Some hit), w2)
        ∧ deref_captions (heap w2) (RowData.captions (LocalHit.data hit))
          = deref_captions (heap w) captions
        ∧ deref_captionData (heap w2) (RowData.captionData (LocalHit.data hit))
          = deref_captionData (heap w) captionData
        ∧ (∀ a, captions = Some a → is_Some (captionsObjs (heap w) !! a) →
                RowData.captions (LocalHit.data hit) ≠ Some a))
     ∧ (∀ a o, captions = Some a →
        ∃ hit w2,
          getFromIndexedDB env videoId (set_heap (mutate_captions a o (heap w1)) w1)
          = (Returned (Some hit), w2)
          ∧ deref_captions (heap w2) (RowData.captions (LocalHit.data hit))
            = deref_captions (heap w) captions)).
Proof.
  split.
  - intros Hok. rewrite addToMemoryCache_run. simpl. eexists.
    by apply put_entry_get.
  - intros Hdb Hhealthy stamp w1 Hfresh. split.
    + destruct (save_then_read env videoId captions captionData w (heap w1) Hdb Hhealthy)
        as (data & w2 & Hrun & Hc & Hd & Hnew).
      { subst w1. by destruct (saveToIndexedDB env videoId captions captionData w).2. }
      assert (Hw1 : set_heap (heap w1) w1 = w1) by (by destruct w1).
      fold w1 in Hrun. rewrite Hw1 in Hrun.
      eexists _, _. split; [exact Hrun|]. simpl. split_and!; try done.
      intros a -> [o Ho] Hsame. apply Hnew in Hsame.
      apply lookup_lt_Some in Ho.
      assert (heap w1 = heap w) as Hheap.
      { subst w1. rewrite saveToIndexedDB_open by (try apply Hhealthy; done). done. }
      rewrite Hheap in Hsame. lia.
    + intros a o ->.
      destruct (save_then_read env videoId (Some a) captionData w
                  (mutate_captions a o (heap w1)) Hdb Hhealthy)
        as (data & w2 & Hrun & Hc & _).
      { done. }
      eexists _, _. split; [exact Hrun|]. done.
Qed.

(** The volatile tier does not copy: the entry read back after a put holds
    the reference that was put, and a mutation made through that reference
    is seen through the cache. *)
Lemma volatile_tier_shares_references :
  let env := sample_env NetworkFailure NetworkFailure in
  let w1 := (addToMemoryCache env "abc123" (Some 0) (Some 0) world_with_payload).2 in
  ¬ volatile_tier_copies env world_with_payload "abc123" 0 0
  ∧ ∃ entry,
      JsMap.get "abc123" (memoryCache w1) = Some entry
      ∧ MemEntry.captions entry = Some 0
      ∧ deref_captions (heap w1) (MemEntry.captions entry)
        = Some (CaptionArray [sample_caption])
      ∧ deref_captions (mutate_captions 0 (CaptionArray []) (heap w1))
          (MemEntry.captions entry)
        = Some (CaptionArray []).
Proof.
  intros env w1. split.
  - intros Hcopies.
    destruct (Hcopies (MemEntry.mk (Some 0) (Some 0) 1700000000000%Z) eq_refl) as [_ Hdiff].
    by apply Hdiff.
  - exists (MemEntry.mk (Some 0) (Some 0) 1700000000000%Z). by split_and!.
Qed.

Lemma tiers_round_trip_witness :
  let env := sample_env NetworkFailure NetworkFailure in
  let w := world_with_payload in
  let w1 := (saveToIndexedDB env "abc123" (Some 0) (Some 0) w).2 in
  (cache_ok (memoryCache w)
   ∧ db w = Some tt
   ∧ idb_healthy env
   ∧ (read_clock env w1 - Date_now env (S (tick w)) < cacheExpiry)%Z)
  ∧ (∃ t, JsMap.get "abc123"
            (memoryCache (addToMemoryCache env "abc123" (Some 0) (Some 0) w).2)
          = Some (MemEntry.mk (Some 0) (Some 0) t))
  ∧ (∃ hit w2,
       getFromIndexedDB env "abc123" w1 = (Returned (Some hit), w2)
       ∧ deref_captions (heap w2) (RowData.captions (LocalHit.data hit))
         = Some (CaptionArray [sample_caption])
       ∧ RowData.captions (LocalHit.data hit) ≠ Some 0)
  ∧ (∃ hit w2,
       getFromIndexedDB env "abc123"
         (set_heap (mutate_captions 0 (CaptionArray []) (heap w1)) w1)
       = (Returned (Some hit), w2)
       ∧ deref_captions (heap w2) (RowData.captions (LocalHit.data hit))
         = Some (CaptionArray [sample_caption])).
Proof.
  intros env w w1.
  assert (Hok : cache_ok (memoryCache w)).
  { split; [apply NoDup_nil_2 | vm_compute; lia]. }
  assert (Hdb : db w = Some tt) by reflexivity.
  assert (Hhealthy : idb_healthy env) by (intros n; split; reflexivity).
  assert (Hfresh : (read_clock env w1 - Date_now env (S (tick w)) < cacheExpiry)%Z)
    by (vm_compute; reflexivity).
  split; [by split_and!|].
  destruct (tiers_round_trip env "abc123" (Some 0) (Some 0) w) as [Hvolatile Hpersistent].
  split; [exact (Hvolatile Hok)|].
  destruct (Hpersistent Hdb Hhealthy Hfresh) as [Hread Hmutated].
  split.
  - destruct Hread as (hit & w2 & Hrun & Hc & _ & Hnew).
    exists hit, w2. split; [exact Hrun|]. split; [exact Hc|].
    apply Hnew; [reflexivity | by eexists].
  - destruct (Hmutated 0 (CaptionArray []) eq_refl) as (hit & w2 & Hrun & Hc).
    by exists hit, w2.
Defined.

(* ================================================================== *)
(** * The orchestrator: failures *)
(* ================================================================== *)

Lemma try_catch_total {A} (m : M A) (h : Exn → M A) w :
  (∀ e w1, ∃ a w2, h e w1 = (Returned a, w2)) →
  ∃ a w', try_catch m h w = (Returned a, w').
Proof.
  intros Hh. unfold try_catch. destruct (m w) as [[a|e] w1]; [by eexists _, _|].
  apply Hh.
Qed.

(** Once the store is open, no persistent-tier operation rejects. *)
Lemma persistent_tier_degrades env videoId captions captionData w :
  db w = Some tt →
  (∃ o w', getFromIndexedDB env videoId w = (Returned o, w'))
  ∧ (∃ b w', saveToIndexedDB env videoId captions captionData w = (Returned b, w'))
  ∧ (∃ b w', deleteFromIndexedDB env videoId w = (Returned b, w')).
Proof.
  intros Hdb. split_and!.
  - unfold getFromIndexedDB, ensure_db, bind, gets, ret. simpl. rewrite Hdb.
    apply try_catch_total. intros e w1. by eexists _, _.
  - unfold saveToIndexedDB, ensure_db, bind, gets, ret. simpl. rewrite Hdb.
    apply try_catch_total. intros e w1. by eexists _, _.
  - unfold deleteFromIndexedDB, bind, gets. simpl. rewrite Hdb.
    apply try_catch_total. intros e w1. by eexists _, _.
Qed.

(** C9, the defect.  With the store not yet open and [indexedDB.open]
    failing, the read of the persistent tier rejects instead of resolving
    with [null], a write rejects instead of resolving with [false], and
    [fetchSubtitles] itself rejects with the open error instead of
    returning a result: [await this.initIndexedDB()] stands outside the
    [try] of [getFromIndexedDB] and [saveToIndexedDB], and [fetchSubtitles]
    has no [try] of its own. *)
Theorem store_open_failure_escapes :
  (∃ w', getFromIndexedDB broken_store_env "abc123" fresh_world
         = (Thrown IdbOpenError, w'))
  ∧ (∃ w', saveToIndexedDB broken_store_env "abc123" None None fresh_world
           = (Thrown IdbOpenError, w'))
  ∧ (∃ w', fetchSubtitles broken_store_env "abc123" None None fresh_world
           = (Thrown IdbOpenError, w')).
Proof. split_and!; eexists; vm_compute; reflexivity. Qed.

(** A read that resolves with [null] left the store as it was, or deleted
    the row of that key, which was then at or past the expiry window. *)
Lemma getFromIndexedDB_miss env videoId w w' :
  getFromIndexedDB env videoId w = (Returned None, w') →
  idb_store w' = idb_store w
  ∨ (idb_store w' = delete videoId (idb_store w)
     ∧ ∃ row, idb_store w !! videoId = Some row ∧ expired_at env row).
Proof.
  unfold getFromIndexedDB. unfold bind at 1.
  destruct (ensure_db env w) as [[[]|e] w1'] eqn:Hens; [|done].
  apply ensure_db_run in Hens as (Hdb1 & Hst1 & Htick1).
  unfold transaction, request, now. js_unfold. simpl.
  destruct (idb_transaction_throws env (tick w1')); simpl.
  { intros [= <-]. by left. }
  destruct (idb_request_fails env (S (tick w1'))); simpl.
  { intros [= <-]. by left. }
  destruct (idb_store w1' !! videoId) as [row|] eqn:Hrow; simpl.
  2: { intros [= <-]. by left. }
  destruct (deserialize_run row
              (bump (add_call (IdbGet videoId) (bump (add_call (IdbTransaction false) w1')))))
    as (data & h' & Hde & Hdata & _).
  rewrite Hde. simpl.
  destruct (_ <? _)%Z eqn:Hage; simpl; [done|].
  intros [= <-].
  unfold deleteFromIndexedDB, transaction, request. js_unfold. simpl. rewrite Hdb1.
  destruct (idb_transaction_throws env _); simpl; [by left|].
  destruct (idb_request_fails env _); simpl; [by left|].
  right. rewrite <- Hst1. split; [done|]. exists row. split; [done|].
  eexists. apply Z.ltb_ge in Hage. destruct Hdata as (_ & <- & _). exact Hage.
Qed.

Lemma checkCacheAndLimits_returns env videoId w :
  ∃ decision w', checkCacheAndLimits env videoId w = (Returned decision, w').
Proof.
  unfold checkCacheAndLimits, bind, record, modify. simpl.
  apply try_catch_total. intros e w1. by eexists _, _.
Qed.

(** C10, as the code has it.  A call without a video id returns
    [{error:'No video ID provided', cached:false}] and leaves the world
    exactly as it was.  Every call that returns an error result leaves the
    volatile cache as it was and requests no put into the persistent cache;
    the store is as it was, except that the row of that video id may have
    been deleted by the read of the persistent tier, and then that row was
    at or past the expiry window. *)
Theorem error_paths_write_nothing env videoId videoTitle channelName w :
  (truthy videoId = false →
   fetchSubtitles env videoId videoTitle channelName w = (Returned result_no_video_id, w)
   ∧ Result.error result_no_video_id = Some "No video ID provided"
   ∧ Result.cached result_no_video_id = Some false)
  ∧ (∀ r w',
       fetchSubtitles env videoId videoTitle channelName w = (Returned r, w') →
       is_Some (Result.error r) →
       memoryCache w' = memoryCache w
       ∧ forallb not_idb_put (new_calls w w') = true
       ∧ (idb_store w' = idb_store w
          ∨ (idb_store w' = delete videoId (idb_store w)
             ∧ ∃ row, idb_store w !! videoId = Some row ∧ expired_at env row))).
Proof.
  split.
  { intros Hfalsy. unfold fetchSubtitles. by rewrite Hfalsy. }
  intros r w'.
  unfold fetchSubtitles.
  destruct (truthy videoId) eqn:Htruthy; simpl.
  2: { intros [= <- <-] _. split_and!; try done.
       - apply adds_calls_new. reflexivity.
       - by left. }
  js_unfold. simpl.
  destruct (JsMap.has videoId (memoryCache w)) eqn:Hhas.
  { destruct (JsMap.get videoId (memoryCache w)); [|done].
    unfold now. js_unfold. simpl. intros [= <- <-] [? Herr]. done. }
  set (w1 := set_currentVideoId (Some videoId) w).
  pose proof (getFromIndexedDB_error_path env videoId w1) as Hf1.
  destruct (getFromIndexedDB env videoId w1) as [[[hit|]|e] w2] eqn:Hread; [| |done].
  { rewrite addToMemoryCache_run. simpl. intros [= <- <-] [? Herr]. done. }
  apply getFromIndexedDB_miss in Hread as Hstore. simpl in Hf1, Hstore.
  unfold fetchRemote. js_unfold.
  pose proof (checkCacheAndLimits_error_path env videoId w2) as Hf2.
  destruct (checkCacheAndLimits env videoId w2) as [[decision|e] w3] eqn:Hcheck; [|done].
  simpl in Hf2.
  assert (Hf12 : error_path_frame videoId w w3) by (etrans; [exact Hf1 | exact Hf2]).
  assert (Hstore3 : idb_store w3 = idb_store w
                    ∨ (idb_store w3 = delete videoId (idb_store w)
                       ∧ ∃ row, idb_store w !! videoId = Some row ∧ expired_at env row)).
  { pose proof (checkCacheAndLimits_same_idb_store env videoId w2) as Hsame.
    rewrite Hcheck in Hsame. unfold same_idb_store in Hsame. simpl in Hsame.
    by rewrite Hsame. }
  destruct (ServerResponse.cached decision).
  { simpl. destruct (ServerResponse.subtitles decision); [|done].
    unfold new_captionData, new_captions. simpl. rewrite addToMemoryCache_run. simpl.
    intros [= <- <-] [? Herr]. done. }
  destruct (ServerResponse.allowed decision); simpl.
  2: { intros [= <- <-] _.
       destruct Hf12 as (Hm & _ & Hc). split; [done|].
       split; [by apply adds_calls_new | done]. }
  pose proof (fetchFromYtDlp_error_path env videoId (incr_misses w3)) as Hf3.
  pose proof (fetchFromYtDlp_same_idb_store env videoId (incr_misses w3)) as Hs4.
  unfold same_idb_store in Hs4.
  destruct (fetchFromYtDlp env videoId (incr_misses w3)) as [[fetchResult|e] w4]; [|done].
  simpl in Hf3, Hs4.
  destruct (FetchResult.success fetchResult); simpl.
  { unfold storeFreshFetch. js_unfold. simpl. rewrite addToMemoryCache_run. simpl.
    intros [= <- <-] [? Herr]. done. }
  intros [= <- <-] _.
  assert (Hf : error_path_frame videoId w w4).
  { etrans; [exact Hf12|]. etrans; [|exact Hf3]. split_and!.
    - reflexivity.
    - by left.
    - exists []. split; [by rewrite app_nil_r | done]. }
  destruct Hf as (Hm & _ & Hc). split; [done|].
  split; [by apply adds_calls_new|].
  rewrite Hs4. exact Hstore3.
Qed.

(** An error path that does modify the persistent tier for the id: the
    stored row is past the expiry window, so the read deletes it, and the
    quota service then denies the fetch. *)
Lemma quota_denial_after_expired_row :
  let env := sample_env (Responded 429 (Some burst_limit_decision)) NetworkFailure in
  let w := world_with_row 0 in
  ¬ error_leaves_tiers_untouched env w "abc123".
Proof.
  intros env w Hclaim.
  destruct (fetchSubtitles env "abc123" None None w) as [[r|e] w'] eqn:Hrun;
    [| vm_compute in Hrun; discriminate].
  destruct (Hclaim r w' Hrun) as [_ Hstore].
  { vm_compute in Hrun. injection Hrun as <- _. by eexists. }
  vm_compute in Hrun. injection Hrun as _ <-.
  vm_compute in Hstore. discriminate.
Qed.

Lemma error_paths_write_nothing_witness :
  let env := sample_env (Responded 429 (Some burst_limit_decision)) NetworkFailure in
  let w := world_with_row 0 in
  ∃ r w',
    (fetchSubtitles env "abc123" None None w = (Returned r, w')
     ∧ is_Some (Result.error r))
    ∧ memoryCache w' = memoryCache w
    ∧ forallb not_idb_put (new_calls w w') = true
    ∧ (idb_store w' = idb_store w
       ∨ (idb_store w' = delete "abc123" (idb_store w)
          ∧ ∃ row, idb_store w !! "abc123" = Some row ∧ expired_at env row)).
Proof.
  intros env w.
  destruct (fetchSubtitles env "abc123" None None w) as [[r|e] w'] eqn:Hrun;
    [| exfalso; vm_compute in Hrun; discriminate].
  assert (Herr : is_Some (Result.error r)).
  { vm_compute in Hrun. injection Hrun as <- _. by eexists. }
  exists r, w'. split; [by split|].
  destruct (proj2 (error_paths_write_nothing env "abc123" None None w) r w' Hrun Herr)
    as (Hm & Hc & Hs).
  by split_and!.
Defined.

(* ================================================================== *)
(** * The orchestrator: write-back of a fresh fetch *)
(* ================================================================== *)

(** A read that resolves leaves the store handle open. *)
Lemma getFromIndexedDB_db_open env videoId w o w' :
  getFromIndexedDB env videoId w = (Returned o, w') → db w' = Some tt.
Proof.
  unfold getFromIndexedDB. unfold bind at 1.
  destruct (ensure_db env w) as [[[]|e] w1] eqn:Hens; [|done].
  apply ensure_db_run in Hens as (Hdb1 & _ & _).
  match goal with |- ?rest w1 = _ → _ =>
    assert (Hrest : steps db_stays_open rest) by (steps_all; by intros ?)
  end.
  intros Hrun. specialize (Hrest w1). rewrite Hrun in Hrest. by apply Hrest.
Qed.

(** Detached tasks never reject. *)
Lemma run_task_returns env task w : ∃ w', run_task env task w = (Returned tt, w').
Proof.
  destruct task; simpl;
    unfold storeInServerCache, logFetch, logVocabuminAPIResponse;
    unfold bind at 1; unfold record, modify;
    match goal with
    | |- ∃ w', try_catch ?m ?h ?w0 = _ =>
        destruct (try_catch_total m h w0) as ([] & w' & Hrun);
          [intros e w1; by eexists _, _ | exists w'; exact Hrun]
    end.
Qed.

(** What a write does to the world when the store is open. *)
Lemma saveToIndexedDB_cases env videoId captions captionData w :
  db w = Some tt →
  let row := clone_row (heap w) videoId captions captionData (Date_now env (S (tick w))) in
  let w1 := bump (add_call (IdbTransaction true) w) in
  let w2 := bump (add_call (IdbPut row) (bump w1)) in
  (saveToIndexedDB env videoId captions captionData w).2
  = if idb_transaction_throws env (tick w) then w1
    else if idb_request_fails env (S (S (tick w))) then w2
    else set_idb_store (<[videoId := row]> (idb_store w)) w2.
Proof.
  intros Hdb. unfold saveToIndexedDB, ensure_db, transaction, request, now.
  js_unfold. simpl. rewrite Hdb. simpl.
  destruct (idb_transaction_throws env (tick w)); simpl; [done|].
  by destruct (idb_request_fails env (S (S (tick w)))).
Qed.

(** STEP 6 with the store open and the id not yet in the volatile cache. *)
Lemma storeFreshFetch_run env videoId videoTitle channelName fetchResult w :
  db w = Some tt →
  JsMap.get videoId (memoryCache w) = None →
  ∃ source w',
    storeFreshFetch env videoId videoTitle channelName fetchResult w
    = (Returned (result_fresh fetchResult source), w')
    ∧ heap w' = heap w
    ∧ JsMap.get videoId (memoryCache w')
      = Some (MemEntry.mk (FetchResult.captions fetchResult)
                (FetchResult.captionData fetchResult) (Date_now env (tick w)))
    ∧ background w'
      = background w
        ++ [TaskStoreInServerCache videoId videoTitle channelName fetchResult;
            TaskLogFetch videoId videoTitle true source false]
    ∧ let row := clone_row (heap w) videoId (FetchResult.captions fetchResult)
                   (FetchResult.captionData fetchResult) (Date_now env (S (S (tick w)))) in
      ((trace w' = trace w ++ [IdbTransaction true]
        ∧ idb_transaction_throws env (S (tick w)) = true)
       ∨ (trace w' = trace w ++ [IdbTransaction true; IdbPut row]
          ∧ (idb_request_fails env (S (S (S (tick w)))) = false →
             idb_store w' = <[videoId := row]> (idb_store w)))).
Proof.
  intros Hdb Hnone. unfold storeFreshFetch. js_unfold. simpl.
  rewrite addToMemoryCache_run. simpl.
  rewrite saveToIndexedDB_cases by done. simpl.
  eexists _, _. split; [reflexivity|].
  destruct (idb_transaction_throws env (S (tick w))) eqn:Hthrows; simpl.
  - split; [done|].
    split; [by apply put_entry_get_new|]. split; [by rewrite <- app_assoc|].
    left. done.
  - destruct (idb_request_fails env (S (S (S (tick w))))) eqn:Hfails; simpl.
    + split; [done|].
      split; [by apply put_entry_get_new|]. split; [by rewrite <- app_assoc|].
      right. split; [by rewrite <- app_assoc | done].
    + split; [done|].
      split; [by apply put_entry_get_new|]. split; [by rewrite <- app_assoc|].
      right. split; [by rewrite <- app_assoc | done].
Qed.

(** X17. What STEP 6 does keep of the write-through.  Every call that
    returns a fresh source fetch ([cached:false], no [error]) has, before
    returning: put the fetched [captions] and [captionData] into the
    volatile cache under the video id; as its last IndexedDB calls, opened
    the write transaction of the persistent tier and, unless that threw,
    requested the put of a clone of the same payload (with no IndexedDB
    fault the row is in the store); sent no request to the remote store or
    to the analytics log, whose methods were only started, as the last two
    detached tasks; and a detached task never rejects.  Only the
    [captions] and [captionData] of the fetch result are written; its
    [content] is not. *)
Theorem fresh_fetch_written_through env videoId videoTitle channelName w r w' :
  fetchSubtitles env videoId videoTitle channelName w = (Returned r, w') →
  Result.error r = None →
  Result.cached r = Some false →
  (∃ t, JsMap.get videoId (memoryCache w')
        = Some (MemEntry.mk (Result.captions r) (Result.captionData r) t))
  ∧ (∃ before t,
       let row := clone_row (heap w') videoId (Result.captions r) (Result.captionData r) t in
       (idb_calls (new_calls w w') = before ++ [IdbTransaction true; IdbPut row]
        ∨ idb_calls (new_calls w w') = before ++ [IdbTransaction true])
       ∧ (idb_healthy env →
          idb_calls (new_calls w w') = before ++ [IdbTransaction true; IdbPut row]
          ∧ idb_store w' !! videoId = Some row))
  ∧ forallb not_store_or_log_request (new_calls w w') = true
  ∧ (∃ earlier fetchResult source,
       new_tasks w w'
       = earlier ++ [TaskStoreInServerCache videoId videoTitle channelName fetchResult;
                     TaskLogFetch videoId videoTitle true source false]
       ∧ FetchResult.captions fetchResult = Result.captions r
       ∧ FetchResult.captionData fetchResult = Result.captionData r
       ∧ Result.source r = Some source)
  ∧ (∀ env' task w0, ∃ w1, run_task env' task w0 = (Returned tt, w1)).
Proof.
  unfold fetchSubtitles.
  destruct (truthy videoId) eqn:Htruthy; simpl; [|by intros [= <- <-]].
  js_unfold. simpl.
  destruct (JsMap.has videoId (memoryCache w)) eqn:Hhas.
  { destruct (JsMap.get videoId (memoryCache w)); [|done].
    unfold now. js_unfold. simpl. by intros [= <- <-]. }
  set (w1 := set_currentVideoId (Some videoId) w).
  pose proof (getFromIndexedDB_same_memoryCache env videoId w1) as Hm1.
  pose proof (getFromIndexedDB_no_store_log env videoId w1) as Hc1.
  pose proof (getFromIndexedDB_any_tasks env videoId w1) as Ht1.
  destruct (getFromIndexedDB env videoId w1) as [[[hit|]|e] w2] eqn:Hread; [| |done].
  { rewrite addToMemoryCache_run. simpl. by intros [= <- <-]. }
  apply getFromIndexedDB_db_open in Hread as Hdb2.
  unfold fetchRemote. js_unfold.
  pose proof (checkCacheAndLimits_same_memoryCache env videoId w2) as Hm2.
  pose proof (checkCacheAndLimits_no_store_log env videoId w2) as Hc2.
  pose proof (checkCacheAndLimits_tasks env videoId w2) as Ht2.
  pose proof (checkCacheAndLimits_db env videoId w2) as Hd2.
  destruct (checkCacheAndLimits env videoId w2) as [[decision|e] w3]; [|done].
  destruct (ServerResponse.cached decision).
  { simpl. destruct (ServerResponse.subtitles decision); [|done].
    unfold new_captionData, new_captions. simpl. rewrite addToMemoryCache_run. simpl.
    by intros [= <- <-]. }
  destruct (ServerResponse.allowed decision); simpl; [|by intros [= <- <-]].
  pose proof (fetchFromYtDlp_same_memoryCache env videoId (incr_misses w3)) as Hm3.
  pose proof (fetchFromYtDlp_no_store_log env videoId (incr_misses w3)) as Hc3.
  pose proof (fetchFromYtDlp_tasks env videoId (incr_misses w3)) as Ht3.
  pose proof (fetchFromYtDlp_db env videoId (incr_misses w3)) as Hd3.
  destruct (fetchFromYtDlp env videoId (incr_misses w3)) as [[fetchResult|e] w4]; [|done].
  destruct (FetchResult.success fetchResult) eqn:Hsuccess; simpl; [|by intros [= <- <-]].
  unfold same_memoryCache, db_stays_open in *. simpl in *.
  destruct (storeFreshFetch_run env videoId videoTitle channelName fetchResult w4)
    as (source & w5 & Hrun & Hheap & Hget & Hbg & Hsave).
  { by apply Hd3, Hd2. }
  { rewrite Hm3, Hm2, Hm1. by apply has_false_get. }
  rewrite Hrun. intros [= <- <-] _ _. simpl.
  destruct Hc1 as (l1 & E1 & F1). destruct Hc2 as (l2 & E2 & F2).
  destruct Hc3 as (l3 & E3 & F3). simpl in E1, E3.
  destruct Ht1 as (t1 & B1 & _). destruct Ht2 as (t2 & B2 & _).
  destruct Ht3 as (t3 & B3 & _). simpl in B1, B3.
  assert (Htrace : trace w4 = trace w ++ (l1 ++ l2 ++ l3)).
  { by rewrite E3, E2, E1, <- !app_assoc. }
  assert (Hl : forallb not_store_or_log (l1 ++ l2 ++ l3) = true).
  { by rewrite !forallb_app, F1, F2, F3. }
  assert (Hidb : ∀ last,
            trace w5 = trace w4 ++ last → idb_calls last = last →
            idb_calls (new_calls w w5) = idb_calls (l1 ++ l2 ++ l3) ++ last).
  { intros last Htr Hlast.
    rewrite (new_calls_app w w5 ((l1 ++ l2 ++ l3) ++ last))
      by (by rewrite Htr, Htrace, <- app_assoc).
    unfold idb_calls in *. by rewrite filter_app, Hlast. }
  split; [by eexists|].
  split.
  { exists (idb_calls (l1 ++ l2 ++ l3)), (Date_now env (S (S (tick w4)))).
    cbv zeta. rewrite Hheap.
    cbv zeta in Hsave. destruct Hsave as [[Htr Hthrows]|[Htr Hstore]].
    - split.
      + right. by apply Hidb.
      + intros Hhealthy. destruct (Hhealthy (S (tick w4))) as [Hno _]. congruence.
    - split.
      + left. by apply Hidb.
      + intros Hhealthy. split.
        * by apply Hidb.
        * rewrite Hstore by apply Hhealthy. apply lookup_insert_eq. }
  split.
  { assert (Hweaker : ∀ calls,
              forallb not_store_or_log calls = true →
              forallb not_store_or_log_request calls = true).
    { intros calls. rewrite !forallb_forall. intros Hall c Hc. specialize (Hall c Hc).
      by destruct c as [| | | | | | | | |[]|[]]. }
    apply Hweaker.
    cbv zeta in Hsave. destruct Hsave as [[Htr _]|[Htr _]].
    - rewrite (new_calls_app w w5 ((l1 ++ l2 ++ l3) ++ [IdbTransaction true]))
        by (by rewrite Htr, Htrace, <- app_assoc).
      by rewrite forallb_app, Hl.
    - rewrite (new_calls_app w w5 ((l1 ++ l2 ++ l3) ++ [IdbTransaction true; IdbPut _]))
        by (by rewrite Htr, Htrace, <- app_assoc).
      by rewrite forallb_app, Hl. }
  split; [|intros env' task w0; apply run_task_returns].
  exists (t1 ++ t2 ++ t3), fetchResult, source. split; [|done].
  apply new_tasks_app. by rewrite Hbg, B3, B2, B1, <- !app_assoc.
Qed.

Lemma fresh_fetch_written_through_witness :
  let env := sample_env (Responded 200 (Some fail_open))
               (Responded 200 (Some generated_transcript)) in
  let w := fresh_world in
  ∃ r w',
    (fetchSubtitles env "abc123" None None w = (Returned r, w')
     ∧ Result.error r = None
     ∧ Result.cached r = Some false
     ∧ idb_healthy env)
    ∧ (∃ t, JsMap.get "abc123" (memoryCache w')
            = Some (MemEntry.mk (Result.captions r) (Result.captionData r) t))
    ∧ (∃ before t,
         let row := clone_row (heap w') "abc123" (Result.captions r)
                      (Result.captionData r) t in
         idb_calls (new_calls w w') = before ++ [IdbTransaction true; IdbPut row]
         ∧ idb_store w' !! "abc123" = Some row)
    ∧ forallb not_store_or_log_request (new_calls w w') = true
    ∧ (∃ earlier fetchResult source,
         new_tasks w w'
         = earlier ++ [TaskStoreInServerCache "abc123" None None fetchResult;
                       TaskLogFetch "abc123" None true source false]).
Proof.
  intros env w.
  destruct (fetchSubtitles env "abc123" None None w) as [[r|e] w'] eqn:Hrun;
    [| exfalso; vm_compute in Hrun; discriminate].
  assert (Herr : Result.error r = None).
  { vm_compute in Hrun. by injection Hrun as <- _. }
  assert (Hcached : Result.cached r = Some false).
  { vm_compute in Hrun. by injection Hrun as <- _. }
  assert (Hhealthy : idb_healthy env) by (intros n; split; reflexivity).
  exists r, w'. split; [by split_and!|].
  destruct (fresh_fetch_written_through env "abc123" None None w r w' Hrun Herr Hcached)
    as (Hmem & (before & t & _ & Hput) & Hcalls & (earlier & fr & src & Htasks & _) & _).
  split; [exact Hmem|]. split; [|split; [exact Hcalls|]].
  - exists before, t. exact (Hput Hhealthy).
  - by exists earlier, fr, src.
Defined.

(* ================================================================== *)
(** * The tiers are keyed by video ids *)
(* ================================================================== *)

Global Instance keeps_keys_truthy_refl : Reflexive keeps_keys_truthy.
Proof. intros w Hk. exact Hk. Qed.
Global Instance keeps_keys_truthy_trans : Transitive keeps_keys_truthy.
Proof. intros w1 w2 w3 H1 H2 Hk. by apply H2, H1. Qed.

Lemma keys_set_elem {V} k k' (v : V) m :
  k' ∈ JsMap.keys (JsMap.set k v m) → k' = k ∨ k' ∈ JsMap.keys m.
Proof.
  induction m as [|[k0 v0] m IH]; simpl.
  - rewrite list_elem_of_singleton. by left.
  - destruct (decide (k = k0)) as [->|]; simpl; rewrite !elem_of_cons.
    + intros [->|?]; auto.
    + intros [->|Hin]; [auto|]. destruct (IH Hin); auto.
Qed.

Lemma keys_delete_elem {V} k k' (m : JsMap.t V) :
  k' ∈ JsMap.keys (JsMap.delete k m) → k' ∈ JsMap.keys m.
Proof.
  induction m as [|[k0 v0] m IH]; simpl; [done|].
  destruct (decide (k = k0)) as [->|]; simpl; rewrite !elem_of_cons; [auto|].
  intros [->|Hin]; auto.
Qed.

Lemma keys_put_entry_elem k k' e m :
  k' ∈ JsMap.keys (put_entry k e m) → k' = k ∨ k' ∈ JsMap.keys m.
Proof.
  unfold put_entry. cbv zeta.
  destruct (_ <? _)%nat; [destruct (JsMap.first_key _)|];
    intros Hin; try apply keys_delete_elem in Hin; by apply keys_set_elem in Hin.
Qed.

Ltac keys_leaf :=
  first
    [ by (intros Hk; exact Hk)
    | by (intros [Hm Hs]; split; [exact Hm|]; simpl; intros k [r Hr];
          apply Hs; apply lookup_delete_Some in Hr as [_ Hr]; eauto) ].

Section KeysTruthy.
Variable env : Env.

Lemma getFromIndexedDB_keys videoId :
  steps keeps_keys_truthy (getFromIndexedDB env videoId).
Proof. steps_all; keys_leaf. Qed.

Lemma checkCacheAndLimits_keys videoId :
  steps keeps_keys_truthy (checkCacheAndLimits env videoId).
Proof. steps_all; keys_leaf. Qed.

Lemma fetchFromYtDlp_keys videoId :
  steps keeps_keys_truthy (fetchFromYtDlp env videoId).
Proof. steps_all; keys_leaf. Qed.

Lemma addToMemoryCache_keys videoId captions captionData :
  truthy videoId = true →
  steps keeps_keys_truthy (addToMemoryCache env videoId captions captionData).
Proof.
  intros Htruthy w [Hm Hs]. rewrite addToMemoryCache_run. split; [|exact Hs].
  simpl. intros k Hk. apply keys_put_entry_elem in Hk as [->|Hk]; auto.
Qed.

Lemma saveToIndexedDB_keys videoId captions captionData :
  truthy videoId = true →
  steps keeps_keys_truthy (saveToIndexedDB env videoId captions captionData).
Proof.
  intros Htruthy. steps_all; try keys_leaf.
  intros [Hm Hs]. split; [exact Hm|]. simpl. intros k [r Hr].
  apply lookup_insert_Some in Hr as [[<- _]|[_ Hr]]; [done|]. apply Hs. eauto.
Qed.

(** [fetchSubtitles] never puts a falsy key into either tier. *)
Lemma fetchSubtitles_keys videoId videoTitle channelName :
  steps keeps_keys_truthy (fetchSubtitles env videoId videoTitle channelName).
Proof.
  unfold fetchSubtitles. destruct (truthy videoId) eqn:Htruthy; simpl.
  2: { apply steps_ret. tc_solve. }
  pose proof (addToMemoryCache_keys videoId) as Hadd.
  pose proof (saveToIndexedDB_keys videoId) as Hsave.
  pose proof (getFromIndexedDB_keys videoId) as Hread.
  pose proof (checkCacheAndLimits_keys videoId) as Hcheck.
  pose proof (fetchFromYtDlp_keys videoId) as Hfetch.
  unfold fetchRemote, storeFreshFetch.
  repeat match goal with
    | |- steps _ (addToMemoryCache _ _ _ _) => by apply Hadd
    | |- steps _ (saveToIndexedDB _ _ _ _) => by apply Hsave
    | |- steps _ (getFromIndexedDB _ _) => apply Hread
    | |- steps _ (checkCacheAndLimits _ _) => apply Hcheck
    | |- steps _ (fetchFromYtDlp _ _) => apply Hfetch
    | |- steps _ (ret _) => apply steps_ret; tc_solve
    | |- steps _ (throw _) => apply steps_throw; tc_solve
    | |- steps _ (gets _) => apply steps_gets; tc_solve
    | |- steps _ (bind _ _) => apply steps_bind; [tc_solve | | intros ?]
    | |- steps _ (detach _) => apply steps_detach
    | |- steps _ (modify _) => apply steps_modify; intros ?
    | |- steps _ (query _) => apply steps_query; intros ?
    | |- steps _ (new_captions _) => apply steps_new_captions; intros ?
    | |- steps _ (new_captionData _) => apply steps_new_captionData; intros ?
    | |- steps _ (match ?x with _ => _ end) => destruct x
    | |- steps _ _ => progress (lazy zeta)
    | |- steps _ _ => progress (unfold record, spawn, now)
    end; keys_leaf.
Qed.

End KeysTruthy.

Lemma fresh_world_keys_truthy : keys_truthy fresh_world.
Proof.
  split; simpl.
  - intros k Hk. by apply elem_of_nil in Hk.
  - intros k Hk. rewrite lookup_empty in Hk. by destruct Hk.
Qed.

(* ================================================================== *)
(** * The write-back of a VTT fetch *)
(* ================================================================== *)

(** C4, the defect.  The user selected the local server, its JSON3
    endpoint answers 404 and its VTT endpoint succeeds.  [fetchSubtitles]
    returns the fetch as fresh, with the VTT document in [content] and no
    [captions]; but the volatile entry and the persistent row it wrote for
    the id hold no captions and no content, while the detached remote
    store is given the whole fetch result.  The next call for the same id
    is answered from memory with neither [captions] nor [content]. *)
Theorem vtt_fetch_not_cached :
  ∃ r w',
    fetchSubtitles local_vtt_env "abc123" None None world_prefers_local = (Returned r, w')
    ∧ Result.error r = None
    ∧ Result.cached r = Some false
    ∧ Result.source r = Some "local-ytdlp"
    ∧ Result.content r = Some vtt_document
    ∧ Result.captions r = None
    ∧ (∃ t, JsMap.get "abc123" (memoryCache w')
            = Some (MemEntry.mk None (Result.captionData r) t))
    ∧ (∃ row, idb_store w' !! "abc123" = Some row ∧ Row.captions row = None)
    ∧ (∃ fetchResult source,
         new_tasks world_prefers_local w'
         = [TaskStoreInServerCache "abc123" None None fetchResult;
            TaskLogFetch "abc123" None true source false]
         ∧ FetchResult.content fetchResult = Some vtt_document)
    ∧ ∃ r2 w'',
        fetchSubtitles local_vtt_env "abc123" None None w' = (Returned r2, w'')
        ∧ Result.source r2 = Some "memory"
        ∧ Result.cached r2 = Some true
        ∧ Result.captions r2 = None
        ∧ Result.content r2 = None.
Proof.
  destruct (fetchSubtitles local_vtt_env "abc123" None None world_prefers_local)
    as [[r|e] w'] eqn:Hrun; [| exfalso; vm_compute in Hrun; discriminate].
  exists r, w'. split; [reflexivity|].
  vm_compute in Hrun. injection Hrun as <- <-.
  split_and!; try reflexivity.
  - by eexists.
  - eexists. split; [vm_compute; reflexivity | reflexivity].
  - eexists _, _. split; reflexivity.
  - eexists _, _. split; [vm_compute; reflexivity|]. by split_and!.
Qed.

(* ================================================================== *)
(** * Words of a caption text *)
(* ================================================================== *)

Lemma append_nil_l (s : string) : EmptyString +:+ s = s.
Proof. reflexivity. Qed.

Lemma append_cons (c : ascii) (s t : string) : String c s +:+ t = String c (s +:+ t).
Proof. reflexivity. Qed.

Ltac str_simpl := repeat (progress (simpl; rewrite ?append_nil_l, ?append_cons)).

Lemma append_empty_r (s : string) : s +:+ EmptyString = s.
Proof. induction s as [|c s IH]; str_simpl; [done | by rewrite IH]. Qed.

Lemma append_assoc (a b c : string) : (a +:+ b) +:+ c = a +:+ (b +:+ c).
Proof. induction a as [|x a IH]; str_simpl; [done | by rewrite IH]. Qed.

Lemma strip_whitespace_append (a b : string) :
  strip_whitespace (a +:+ b) = strip_whitespace a +:+ strip_whitespace b.
Proof.
  induction a as [|c a IH]; simpl; [done|].
  destruct (is_whitespace c); simpl; by rewrite IH.
Qed.

Lemma join_split_whitespace (s cur : string) (in_gap : bool) :
  join_strings (split_whitespace s cur in_gap) = cur +:+ strip_whitespace s.
Proof.
  revert cur in_gap. induction s as [|c s IH]; intros cur in_gap; simpl.
  - by rewrite append_empty_r.
  - destruct (is_whitespace c).
    + destruct in_gap; simpl; by rewrite IH.
    + rewrite IH. by rewrite append_assoc.
Qed.

Lemma join_filter_nonempty (pieces : list string) :
  join_strings (filter (λ word, (0 <? String.length word)%nat) pieces) = join_strings pieces.
Proof.
  induction pieces as [|p pieces IH]; [done|].
  destruct p as [|c p].
  - rewrite filter_cons_False by (by intros ?). exact IH.
  - rewrite filter_cons_True by done. simpl. by rewrite IH.
Qed.

Lemma split_whitespace_pieces (s cur : string) (in_gap : bool) (piece : string) :
  strip_whitespace cur = cur →
  piece ∈ split_whitespace s cur in_gap →
  strip_whitespace piece = piece.
Proof.
  revert cur in_gap. induction s as [|c s IH]; intros cur in_gap Hcur; simpl.
  - by intros ->%list_elem_of_singleton.
  - destruct (is_whitespace c) eqn:Hc.
    + destruct in_gap.
      * by apply IH.
      * intros [->|Hin]%elem_of_cons; [done|]. by apply (IH EmptyString true).
    + apply IH. rewrite strip_whitespace_append, Hcur. simpl. by rewrite Hc.
Qed.

Lemma split_last_append (init : string) (l : ascii) :
  split_last (init +:+ String l EmptyString) = Some (init, l).
Proof.
  induction init as [|c init IH]; [done|].
  rewrite append_cons. simpl. by rewrite IH.
Qed.

Lemma split_last_spec (s init : string) (l : ascii) :
  split_last s = Some (init, l) ↔ s = init +:+ String l EmptyString.
Proof.
  split; [|intros ->; apply split_last_append].
  revert init l. induction s as [|c s IH]; intros init l; simpl; [done|].
  destruct (split_last s) as [[init' l']|] eqn:Hs.
  - intros [= <- <-]. by rewrite (IH init' l').
  - intros [= <- <-]. destruct s as [|c1 s]; [done|].
    simpl in Hs. by destruct (split_last s) as [[? ?]|].
Qed.

Lemma split_last_None (s : string) : split_last s = None ↔ s = EmptyString.
Proof.
  destruct s as [|c s]; simpl; [done|].
  destruct (split_last s) as [[? ?]|]; done.
Qed.

Lemma word_source_word_of (word : string) : word_source (word_of word) = word.
Proof.
  unfold word_of, word_source.
  destruct (split_last word) as [[init l]|] eqn:Hs.
  - apply split_last_spec in Hs as ->. destruct (is_punctuation l); simpl; [done|].
    apply append_empty_r.
  - simpl. apply append_empty_r.
Qed.

Lemma words_sources (text : string) :
  word_source <$> extractWordsFromText text
  = filter (λ word, (0 <? String.length word)%nat) (split_whitespace text EmptyString false).
Proof.
  unfold extractWordsFromText. rewrite <- list_fmap_compose.
  rewrite <- (list_fmap_id (filter _ _)) at 2.
  apply list_fmap_ext. intros i word _. apply word_source_word_of.
Qed.

Lemma join_strings_empty (pieces : list string) :
  Forall (λ piece, piece ≠ EmptyString) pieces →
  join_strings pieces = EmptyString → pieces = [].
Proof.
  intros Hall. destruct Hall as [|p pieces Hp _]; [done|].
  simpl. destruct p; [done|]. done.
Qed.

(** X1. [extractWordsFromText] loses and reorders no character: the
    texts and punctuation marks of the words, written one after the other,
    are the input with its whitespace removed.  In particular a text has
    no words exactly when it is empty or all whitespace. *)
Theorem words_keep_every_character (text : string) :
  join_strings (word_source <$> extractWordsFromText text) = strip_whitespace text
  ∧ (extractWordsFromText text = [] ↔ strip_whitespace text = EmptyString).
Proof.
  assert (Hjoin : join_strings (word_source <$> extractWordsFromText text)
                  = strip_whitespace text).
  { rewrite words_sources, join_filter_nonempty. apply join_split_whitespace. }
  split; [exact Hjoin|]. split.
  - intros Hnil. by rewrite <- Hjoin, Hnil.
  - intros Hblank. rewrite <- Hjoin in Hblank.
    apply join_strings_empty in Hblank.
    + by apply fmap_nil_inv in Hblank.
    + rewrite words_sources. apply Forall_forall. intros piece Hin.
      apply list_elem_of_filter in Hin as [Hlen _]. by destruct piece.
Qed.

(** X2. Every word that [extractWordsFromText] returns comes from a
    non-empty token without whitespace.  Either its [punctuation] is empty,
    its [text] is the whole token and the token does not end in one of
    [.,!?;:]; or its [punctuation] is that one final character (only one
    is split off, and the [text] may then be empty). *)
Theorem word_shape (text : string) (w : Word.t) :
  w ∈ extractWordsFromText text →
  word_source w ≠ EmptyString
  ∧ strip_whitespace (word_source w) = word_source w
  ∧ ((Word.punctuation w = EmptyString
      ∧ Word.text w = word_source w
      ∧ ∀ init c, word_source w = init +:+ String c EmptyString → is_punctuation c = false)
     ∨ (∃ c, Word.punctuation w = String c EmptyString ∧ is_punctuation c = true)).
Proof.
  intros Hin.
  assert (Hsrc : word_source w ∈ word_source <$> extractWordsFromText text)
    by (by apply list_elem_of_fmap_2).
  rewrite words_sources in Hsrc. apply list_elem_of_filter in Hsrc as [Hlen Hpiece].
  split; [by destruct (word_source w)|].
  split; [by apply (split_whitespace_pieces text EmptyString false)|].
  unfold extractWordsFromText in Hin.
  apply list_elem_of_fmap in Hin as (word & -> & _).
  rewrite word_source_word_of. unfold word_of.
  destruct (split_last word) as [[init l]|] eqn:Hs.
  - destruct (is_punctuation l) eqn:Hl; simpl.
    + right. by exists l.
    + left. split_and!; try done.
      intros init' c Hw. apply split_last_spec in Hw. congruence.
  - left. simpl. split_and!; try done.
    intros init c Hw. apply split_last_spec in Hw. congruence.
Qed.

Lemma word_shape_witness :
  let w := Word.mk "world" "." in
  w ∈ extractWordsFromText "Hello,  world."
  ∧ word_source w = "world."
  ∧ ∃ c, Word.punctuation w = String c EmptyString ∧ is_punctuation c = true.
Proof.
  intros w.
  assert (Hin : w ∈ extractWordsFromText "Hello,  world.").
  { vm_compute. apply list_elem_of_further, list_elem_of_here. }
  split; [exact Hin|]. split; [reflexivity|].
  destruct (word_shape "Hello,  world." w Hin) as (_ & _ & [[Hp _]|Hc]); [discriminate | exact Hc].
Defined.

(* ================================================================== *)
(** * The auth token *)
(* ================================================================== *)

Lemma falsy_opt_false (o : option string) :
  falsy_opt o = false ↔ ∃ s, o = Some s ∧ truthy s = true.
Proof.
  destruct o as [s|]; simpl.
  - rewrite negb_false_iff. split; [by exists s | by intros (? & [= <-] & ?)].
  - split; [done | by intros (? & ? & ?)].
Qed.

Lemma or_else_truthy (s d : string) : truthy s = true → or_else (Some s) d = s.
Proof. intros H. simpl. by rewrite H. Qed.

(** A stored, truthy id is returned as it is, after one storage read. *)
Lemma getOrCreateTempUserId_reuse env w id :
  truthy id = true →
  storage_local w !! "tempUserId" = Some id →
  chrome_storage_rejects env (tick w) = false →
  getOrCreateTempUserId env w
  = (Returned id, bump (add_call (StorageLocalGet "tempUserId") w)).
Proof.
  intros Htruthy Hstored Hok.
  unfold getOrCreateTempUserId, chrome_storage_local_get. js_unfold. simpl.
  rewrite Hok. simpl. rewrite Hstored. simpl. by rewrite Htruthy.
Qed.

(** The two ways in which [getOrCreateTempUserId] returns. *)
Lemma getOrCreateTempUserId_cases env w id w1 :
  getOrCreateTempUserId env w = (Returned id, w1) →
  (truthy id = true
   ∧ storage_local w !! "tempUserId" = Some id
   ∧ w1 = bump (add_call (StorageLocalGet "tempUserId") w))
  ∨ (falsy_opt (storage_local w !! "tempUserId") = true
     ∧ id = "temp_" +:+ Math_random_id env (S (tick w))
     ∧ storage_local w1 = <["tempUserId" := id]> (storage_local w)
     ∧ trace w1 = trace w ++ [StorageLocalGet "tempUserId"; StorageLocalSet "tempUserId" id]
     ∧ tick w1 = S (S (S (tick w)))
     ∧ storage_sync w1 = storage_sync w
     ∧ memoryCache w1 = memoryCache w
     ∧ idb_store w1 = idb_store w).
Proof.
  unfold getOrCreateTempUserId, chrome_storage_local_get, chrome_storage_local_set.
  js_unfold. simpl.
  destruct (chrome_storage_rejects env (tick w)); simpl; [done|].
  destruct (falsy_opt (storage_local w !! "tempUserId")) eqn:Hfalsy; simpl.
  - destruct (chrome_storage_rejects env (S (S (tick w)))); simpl; [done|].
    intros [= <- <-]. right. simpl. split_and!; try done. by rewrite <- app_assoc.
  - apply falsy_opt_false in Hfalsy as (stored & Hstored & Htruthy).
    rewrite Hstored. simpl. rewrite Htruthy. intros [= <- <-]. by left.
Qed.

(** X3. A call of [getOrCreateTempUserId] that returns leaves the id it
    returned under [tempUserId] in [chrome.storage.local], and the id is
    truthy.  Either it was stored already and is returned after one read,
    or nothing truthy was stored and the id is ['temp_'] followed by the
    random suffix, written with one [set].  From then on every call that
    finds this id stored and whose read does not reject returns the same
    id and writes nothing. *)
Theorem temp_user_id_is_stable env w id w1 :
  getOrCreateTempUserId env w = (Returned id, w1) →
  truthy id = true
  ∧ storage_local w1 !! "tempUserId" = Some id
  ∧ ((storage_local w !! "tempUserId" = Some id
      ∧ storage_local w1 = storage_local w
      ∧ new_calls w w1 = [StorageLocalGet "tempUserId"])
     ∨ (falsy_opt (storage_local w !! "tempUserId") = true
        ∧ id = "temp_" +:+ Math_random_id env (S (tick w))
        ∧ storage_local w1 = <["tempUserId" := id]> (storage_local w)
        ∧ new_calls w w1 = [StorageLocalGet "tempUserId"; StorageLocalSet "tempUserId" id]))
  ∧ ∀ env' w2,
      storage_local w2 !! "tempUserId" = Some id →
      chrome_storage_rejects env' (tick w2) = false →
      getOrCreateTempUserId env' w2
      = (Returned id, bump (add_call (StorageLocalGet "tempUserId") w2)).
Proof.
  intros Hrun.
  apply getOrCreateTempUserId_cases in Hrun
    as [(Htruthy & Hstored & ->)|(Hfalsy & Hid & Hlocal & Htrace & _)].
  - split_and!; try done.
    + left. split_and!; try done. by apply new_calls_app.
    + intros env' w2. by apply getOrCreateTempUserId_reuse.
  - assert (Htruthy : truthy id = true) by (by rewrite Hid).
    split_and!; try done.
    + rewrite Hlocal. apply lookup_insert_eq.
    + right. split_and!; try done. by apply new_calls_app.
    + intros env' w2. by apply getOrCreateTempUserId_reuse.
Qed.

Lemma temp_user_id_is_stable_witness :
  let env := sample_env NetworkFailure NetworkFailure in
  ∃ id w1,
    getOrCreateTempUserId env fresh_world = (Returned id, w1)
    ∧ id = "temp_k3j9x0q2a"
    ∧ storage_local w1 !! "tempUserId" = Some id
    ∧ getOrCreateTempUserId env w1
      = (Returned id, bump (add_call (StorageLocalGet "tempUserId") w1)).
Proof.
  intros env.
  destruct (getOrCreateTempUserId env fresh_world) as [[id|e] w1] eqn:Hrun;
    [| exfalso; vm_compute in Hrun; discriminate].
  exists id, w1. split; [reflexivity|].
  destruct (temp_user_id_is_stable env fresh_world id w1 Hrun) as (_ & Hstored & _ & Hagain).
  split; [vm_compute in Hrun; by injection Hrun as <- _|].
  split; [exact Hstored|].
  apply Hagain; [exact Hstored | reflexivity].
Defined.

Global Instance same_sync_storage_refl : Reflexive same_sync_storage.
Proof. intros w. reflexivity. Qed.
Global Instance same_sync_storage_trans : Transitive same_sync_storage.
Proof. unfold same_sync_storage. intros w1 w2 w3 H1 H2. by rewrite H2. Qed.

Lemma getOrCreateTempUserId_thrown env w e w1 :
  getOrCreateTempUserId env w = (Thrown e, w1) →
  ∃ n, tick w ≤ n < tick w1 ∧ chrome_storage_rejects env n = true.
Proof.
  unfold getOrCreateTempUserId, chrome_storage_local_get, chrome_storage_local_set.
  js_unfold. simpl.
  destruct (chrome_storage_rejects env (tick w)) eqn:H1; simpl.
  { intros [= <- <-]. exists (tick w). simpl. split; [lia | done]. }
  destruct (falsy_opt (storage_local w !! "tempUserId")); simpl; [|done].
  destruct (chrome_storage_rejects env (S (S (tick w)))) eqn:H2; simpl; [|done].
  intros [= <- <-]. exists (S (S (tick w))). simpl. split; [lia | done].
Qed.

Section AuthFrames.
Variable env : Env.

Lemma getAuthToken_same_memoryCache : steps same_memoryCache (getAuthToken env).
Proof. steps_all; reflexivity. Qed.

Lemma getAuthToken_same_idb_store : steps same_idb_store (getAuthToken env).
Proof. steps_all; reflexivity. Qed.

Lemma getAuthToken_same_sync_storage : steps same_sync_storage (getAuthToken env).
Proof. steps_all; reflexivity. Qed.

End AuthFrames.

(** X4. [getAuthToken] never rejects and leaves both cache tiers and
    [chrome.storage.sync] as they are.  It resolves with [null] only if a
    [chrome.storage] call rejected during the call.  With a truthy
    [vocabToken] stored it resolves with that token after a single read,
    touching nothing else (unless that read rejects).  Without one, the
    token is [btoa] of the temporary user id, which is then stored under
    [tempUserId], a colon and a reading of the clock. *)
Theorem auth_token_never_rejects env w :
  ∃ token w',
    getAuthToken env w = (Returned token, w')
    ∧ memoryCache w' = memoryCache w
    ∧ idb_store w' = idb_store w
    ∧ storage_sync w' = storage_sync w
    ∧ (token = None → ∃ n, tick w ≤ n < tick w' ∧ chrome_storage_rejects env n = true)
    ∧ (∀ vocabToken,
         storage_sync w !! "vocabToken" = Some vocabToken →
         truthy vocabToken = true →
         token = None
         ∨ (token = Some vocabToken
            ∧ storage_local w' = storage_local w
            ∧ new_calls w w' = [StorageSyncGet "vocabToken"]))
    ∧ (falsy_opt (storage_sync w !! "vocabToken") = true →
       ∀ tok, token = Some tok →
         ∃ id n,
           storage_local w' !! "tempUserId" = Some id
           ∧ truthy id = true
           ∧ tok = btoa env (id +:+ ":" +:+ pretty (Date_now env n))).
Proof.
  destruct (getAuthToken_returns env w) as (token & w' & Hrun).
  exists token, w'. split; [exact Hrun|].
  pose proof (getAuthToken_same_memoryCache env w) as Hm.
  pose proof (getAuthToken_same_idb_store env w) as Hs.
  pose proof (getAuthToken_same_sync_storage env w) as Hy.
  rewrite Hrun in Hm, Hs, Hy.
  split; [exact Hm|]. split; [exact Hs|]. split; [exact Hy|].
  clear Hm Hs Hy. revert Hrun.
  unfold getAuthToken, chrome_storage_sync_get, now. js_unfold. simpl.
  destruct (chrome_storage_rejects env (tick w)) eqn:Hsync; simpl.
  { intros [= <- <-]. split_and!; [|by auto|done].
    intros _. exists (tick w). simpl. split; [lia | done]. }
  destruct (falsy_opt (storage_sync w !! "vocabToken")) eqn:Hfalsy; simpl.
  - destruct (getOrCreateTempUserId env (bump (add_call (StorageSyncGet "vocabToken") w)))
      as [[id|e] w1] eqn:Hid; simpl.
    + intros [= <- <-]. split_and!; [done| |].
      * intros vocabToken Hstored Htruthy. rewrite Hstored in Hfalsy. simpl in Hfalsy.
        by rewrite Htruthy in Hfalsy.
      * intros _ tok [= <-].
        exists id, (tick w1). split_and!; [| |done].
        -- apply getOrCreateTempUserId_cases in Hid
             as [(_ & Hstored & ->)|(_ & Hnew & Hlocal & _)]; [done|].
           simpl. rewrite Hlocal. apply lookup_insert_eq.
        -- apply getOrCreateTempUserId_cases in Hid as [(? & _)|(_ & -> & _)]; done.
    + intros [= <- <-]. split_and!; [|by auto|done].
      intros _. apply getOrCreateTempUserId_thrown in Hid as (n & Hn & Hrej).
      exists n. simpl in Hn. split; [lia | done].
  - apply falsy_opt_false in Hfalsy as (stored & Hstored & Htruthy).
    rewrite Hstored. intros [= <- <-]. split_and!; [done| |done].
    intros vocabToken [= <-] _. right.
    split_and!; try done. by apply new_calls_app.
Qed.

(* ================================================================== *)
(** * The persistent tier: delete, save, clear *)
(* ================================================================== *)

(** X5. [deleteFromIndexedDB] never rejects and never touches the
    volatile tier or the store handle.  With the store not opened it
    resolves with [false] and does nothing at all.  When it resolves with
    [false] the store is as it was; when it resolves with [true] the row
    of that id is gone, every other row is as it was, the calls made were
    one read-write transaction and the delete, and a read of that id, in
    any browser conditions, then resolves with [null]. *)
Theorem delete_reports_and_removes env videoId w :
  ∃ removed w',
    deleteFromIndexedDB env videoId w = (Returned removed, w')
    ∧ memoryCache w' = memoryCache w
    ∧ db w' = db w
    ∧ (db w = None → removed = false ∧ w' = w)
    ∧ (removed = false → idb_store w' = idb_store w)
    ∧ (removed = true →
       idb_store w' = delete videoId (idb_store w)
       ∧ (∀ other, other ≠ videoId → idb_store w' !! other = idb_store w !! other)
       ∧ new_calls w w' = [IdbTransaction true; IdbDelete videoId]
       ∧ ∀ env', ∃ w'', getFromIndexedDB env' videoId w' = (Returned None, w'')).
Proof.
  unfold deleteFromIndexedDB, transaction, request. js_unfold. simpl.
  destruct (db w) as [[]|] eqn:Hdb.
  2: { eexists _, _. split; [reflexivity|]. by split_and!. }
  destruct (idb_transaction_throws env (tick w)); simpl.
  { eexists _, _. split; [reflexivity|]. by split_and!. }
  destruct (idb_request_fails env (S (tick w))); simpl.
  { eexists _, _. split; [reflexivity|]. by split_and!. }
  eexists _, _. split; [reflexivity|]. simpl. split_and!; try done.
  intros _. split_and!; try done.
  - intros other Hne. by apply lookup_delete_ne.
  - apply new_calls_app. simpl. by rewrite <- app_assoc.
  - intros env'.
    match goal with |- context [getFromIndexedDB env' videoId ?w1] =>
      destruct (getFromIndexedDB_absent env' videoId w1) as (w'' & Hread & _)
    end; [done | simpl; apply lookup_delete_eq |].
    by exists w''.
Qed.

(** X7. With the store open and no IndexedDB fault, [clearAllCaches]
    returns with both tiers empty, after one read-write transaction and
    one [clear]; afterwards no id is held by the volatile tier and a read
    of any id, in any browser conditions, resolves with [null]. *)
Theorem clear_all_caches_empties_both_tiers env w :
  db w = Some tt →
  idb_transaction_throws env (tick w) = false →
  idb_request_fails env (S (tick w)) = false →
  ∃ w',
    clearAllCaches env w = (Returned tt, w')
    ∧ memoryCache w' = []
    ∧ idb_store w' = ∅
    ∧ new_calls w w' = [IdbTransaction true; IdbClear]
    ∧ ∀ env' videoId,
        JsMap.has videoId (memoryCache w') = false
        ∧ ∃ w'', getFromIndexedDB env' videoId w' = (Returned None, w'').
Proof.
  intros Hdb Hthrows Hfails.
  unfold clearAllCaches, clearMemoryCache, transaction, request. js_unfold. simpl.
  rewrite Hdb. simpl. rewrite Hthrows. simpl. rewrite Hfails.
  eexists. split; [reflexivity|]. simpl. split_and!; try done.
  - apply new_calls_app. simpl. by rewrite <- app_assoc.
  - intros env' videoId. split; [done|].
    match goal with |- context [getFromIndexedDB env' videoId ?w1] =>
      destruct (getFromIndexedDB_absent env' videoId w1) as (w'' & Hread & _)
    end; [done | simpl; apply lookup_empty |].
    by exists w''.
Qed.

Lemma clear_all_caches_empties_both_tiers_witness :
  let env := sample_env NetworkFailure NetworkFailure in
  let w := world_with_row 1700000000000 in
  (db w = Some tt
   ∧ is_Some (idb_store w !! "abc123")
   ∧ idb_transaction_throws env (tick w) = false
   ∧ idb_request_fails env (S (tick w)) = false)
  ∧ ∃ w',
      clearAllCaches env w = (Returned tt, w')
      ∧ idb_store w' = ∅
      ∧ ∃ w'', getFromIndexedDB env "abc123" w' = (Returned None, w'').
Proof.
  intros env w.
  split; [split_and!; try reflexivity; by eexists|].
  destruct (clear_all_caches_empties_both_tiers env w eq_refl eq_refl eq_refl)
    as (w' & Hrun & _ & Hstore & _ & Hlater).
  exists w'. split; [exact Hrun|]. split; [exact Hstore|].
  exact (proj2 (Hlater env "abc123")).
Defined.

(** X8. Before the store has been opened ([this.db] is [null]),
    [clearAllCaches] clears the volatile tier only: it makes no IndexedDB
    call and the rows stay.  A later [fetchSubtitles] for a stored id, in
    a browser where the store opens without a fault and the row is
    younger than seven days, is answered from [local_cache] with the
    stored payload. *)
Theorem clear_all_caches_skips_unopened_store env w :
  db w = None →
  clearAllCaches env w = (Returned tt, set_memoryCache [] w)
  ∧ ∀ env' videoId videoTitle channelName row,
      truthy videoId = true →
      idb_store w !! videoId = Some row →
      indexedDB_open env' (tick w) = true →
      idb_healthy env' →
      let age := (Date_now env' (3 + tick w) - Row.cachedAt row)%Z in
      (age < cacheExpiry)%Z →
      ∃ r w',
        fetchSubtitles env' videoId videoTitle channelName (clearAllCaches env w).2
        = (Returned r, w')
        ∧ Result.source r = Some "local_cache"
        ∧ Result.cached r = Some true
        ∧ deref_captions (heap w') (Result.captions r) = Row.captions row
        ∧ deref_captionData (heap w') (Result.captionData r) = Row.captionData row
        ∧ Result.age_minutes r = Some (Math_round_div age (1000 * 60)).
Proof.
  intros Hdb.
  assert (Hrun : clearAllCaches env w = (Returned tt, set_memoryCache [] w)).
  { unfold clearAllCaches, clearMemoryCache. js_unfold. simpl. by rewrite Hdb. }
  split; [exact Hrun|].
  intros env' videoId videoTitle channelName row Htruthy Hrow Hopen Hhealthy age Hfresh.
  rewrite Hrun. simpl.
  set (w1 := set_currentVideoId (Some videoId) (set_memoryCache [] w)).
  set (w0 := set_db (Some tt) (bump (add_call IdbOpen w1))).
  assert (Hens : ensure_db env' w1 = (Returned tt, w0)).
  { unfold ensure_db, initIndexedDB, w0, w1. js_unfold. simpl. rewrite Hdb. simpl.
    by rewrite Hopen. }
  destruct (getFromIndexedDB_open env' videoId w0 row eq_refl
              (proj1 (Hhealthy _)) (proj2 (Hhealthy _)) Hrow)
    as (data & h' & Hdata & _ & Hread).
  cbv zeta in Hread.
  change (read_clock env' w0 - Row.cachedAt row)%Z with age in Hread.
  apply Z.ltb_lt in Hfresh. rewrite Hfresh in Hread.
  rewrite <- (getFromIndexedDB_after_open env' videoId w1 w0 Hens) in Hread.
  unfold fetchSubtitles. rewrite Htruthy. js_unfold. simpl.
  fold w1. rewrite Hread. rewrite addToMemoryCache_run. simpl.
  eexists _, _. split; [reflexivity|]. simpl.
  destruct Hdata as (_ & _ & Hc & Hd). by split_and!.
Qed.

Lemma clear_all_caches_skips_unopened_store_witness :
  let env := sample_env NetworkFailure NetworkFailure in
  let w := set_db None (world_with_row 1700000000000) in
  (db w = None
   ∧ truthy "abc123" = true
   ∧ is_Some (idb_store w !! "abc123")
   ∧ indexedDB_open env (tick w) = true
   ∧ idb_healthy env
   ∧ (Date_now env (3 + tick w) - 1700000000000 < cacheExpiry)%Z)
  ∧ ∃ r w',
      fetchSubtitles env "abc123" None None (clearAllCaches env w).2 = (Returned r, w')
      ∧ Result.source r = Some "local_cache"
      ∧ Result.cached r = Some true.
Proof.
  intros env w.
  assert (Hhealthy : idb_healthy env) by (intros n; split; reflexivity).
  assert (Hfresh : (Date_now env (3 + tick w) - 1700000000000 < cacheExpiry)%Z)
    by (vm_compute; reflexivity).
  split; [split_and!; try done; by eexists|].
  destruct (proj2 (clear_all_caches_skips_unopened_store env w eq_refl)
              env "abc123" None None _ eq_refl eq_refl eq_refl Hhealthy Hfresh)
    as (r & w' & Hrun & Hsrc & Hc & _).
  by exists r, w'.
Defined.

(** X6. A [saveToIndexedDB] that resolves leaves the volatile tier and the
    heap as they are and the store handle open.  It resolves with [true]
    exactly when the row was written: on [false] the store is as it was;
    on [true] the row of that id is a clone of the given [captions] and
    [captionData] stamped with a reading of the clock taken during the
    call (an existing row is replaced), every other row is as it was, and
    the last two calls were the read-write transaction and the put. *)
Theorem save_reports_the_truth env videoId captions captionData w saved w' :
  saveToIndexedDB env videoId captions captionData w = (Returned saved, w') →
  memoryCache w' = memoryCache w
  ∧ heap w' = heap w
  ∧ db w' = Some tt
  ∧ (saved = false → idb_store w' = idb_store w)
  ∧ (saved = true →
     ∃ n,
       tick w ≤ n < tick w'
       ∧ let row := clone_row (heap w) videoId captions captionData (Date_now env n) in
         idb_store w' = <[videoId := row]> (idb_store w)
         ∧ (∀ other, other ≠ videoId → idb_store w' !! other = idb_store w !! other)
         ∧ ∃ before, new_calls w w' = before ++ [IdbTransaction true; IdbPut row]).
Proof.
  unfold saveToIndexedDB. unfold bind at 1.
  destruct (ensure_db env w) as [[[]|e] w1] eqn:Hens; [|done].
  assert (Hframe : memoryCache w1 = memoryCache w ∧ heap w1 = heap w
                   ∧ ∃ before, trace w1 = trace w ++ before).
  { revert Hens. unfold ensure_db, initIndexedDB. js_unfold. simpl.
    destruct (db w) as [[]|].
    - intros [= <-]. split_and!; try done. exists []. by rewrite app_nil_r.
    - destruct (indexedDB_open env (tick w)); intros [= <-]. simpl.
      split_and!; try done. by exists [IdbOpen]. }
  destruct Hframe as (Hm & Hh & before & Htr).
  apply ensure_db_run in Hens as (Hdb1 & Hst1 & Htick1).
  unfold transaction, request, now. js_unfold. simpl.
  destruct (idb_transaction_throws env (tick w1)); simpl.
  { intros [= <- <-]. simpl. by split_and!. }
  destruct (idb_request_fails env (S (S (tick w1)))); simpl.
  { intros [= <- <-]. simpl. by split_and!. }
  intros [= <- <-]. simpl. split_and!; try done.
  intros _. exists (S (tick w1)). split; [lia|]. cbv zeta. rewrite Hh, Hst1.
  split_and!; try done.
  - intros other Hne. by apply lookup_insert_ne.
  - exists before. apply new_calls_app. simpl. rewrite Htr. by rewrite <- !app_assoc.
Qed.

Lemma save_reports_the_truth_witness :
  let env := sample_env NetworkFailure NetworkFailure in
  ∃ w',
    saveToIndexedDB env "abc123" (Some 0) (Some 0) world_with_payload = (Returned true, w')
    ∧ ∃ n row,
        Row.captions row = Some (CaptionArray [sample_caption])
        ∧ Row.cachedAt row = Date_now env n
        ∧ idb_store w' = <["abc123" := row]> (idb_store world_with_payload).
Proof.
  intros env.
  destruct (saveToIndexedDB env "abc123" (Some 0) (Some 0) world_with_payload)
    as [[[]|e] w'] eqn:Hrun; [| exfalso; vm_compute in Hrun; discriminate ..].
  exists w'. split; [reflexivity|].
  destruct (save_reports_the_truth env "abc123" (Some 0) (Some 0) world_with_payload
              true w' Hrun) as (_ & _ & _ & _ & Hsaved).
  destruct (Hsaved eq_refl) as (n & _ & Hstore & _).
  eexists n, _. split; [|split; [|exact Hstore]]; reflexivity.
Defined.

(* ================================================================== *)
(** * The source fetcher *)
(* ================================================================== *)

Section SourceFrames.
Variable env : Env.

Lemma fetchFromVocabumin_not_local videoId :
  steps (adds_calls not_local_server_call) (fetchFromVocabumin env videoId).
Proof. steps_all; calls_leaf. Qed.

Lemma fetchFromLocalYtDlp_not_cloud videoId :
  steps (adds_calls not_cloud_call) (fetchFromLocalYtDlp env videoId).
Proof. steps_all; calls_leaf. Qed.

Lemma fetchFromLocalYtDlp_no_task videoId :
  steps (adds_tasks no_task) (fetchFromLocalYtDlp env videoId).
Proof. steps_all; by (exists []; split; [by rewrite app_nil_r | done]). Qed.

Lemma fetchFromLocalYtDlp_same_memoryCache videoId :
  steps same_memoryCache (fetchFromLocalYtDlp env videoId).
Proof. steps_all; reflexivity. Qed.

Lemma fetchFromLocalYtDlp_same_idb_store videoId :
  steps same_idb_store (fetchFromLocalYtDlp env videoId).
Proof. steps_all; reflexivity. Qed.

Lemma fetchFromVocabumin_same_memoryCache videoId :
  steps same_memoryCache (fetchFromVocabumin env videoId).
Proof. steps_all; reflexivity. Qed.

Lemma fetchFromVocabumin_same_idb_store videoId :
  steps same_idb_store (fetchFromVocabumin env videoId).
Proof. steps_all; reflexivity. Qed.

End SourceFrames.

Lemma adds_tasks_none w w' : adds_tasks no_task w w' → new_tasks w w' = [].
Proof.
  intros (l & Hl & Hok). rewrite (new_tasks_app _ _ l) by done. by destruct l.
Qed.

(** X9. [fetchFromYtDlp] uses the preferred server only.  When the stored
    [subtitleServer] preference is missing, empty or ['cloud'], no request
    goes to the local extraction server; with any other preference, the
    cloud provider is not called and no health-log task is detached.
    This holds whatever the servers answer: there is no fallback from one
    to the other. *)
Theorem preferred_server_only env videoId w :
  let preferredServer := or_else (storage_sync w !! "subtitleServer") "cloud" in
  let w' := (fetchFromYtDlp env videoId w).2 in
  (preferredServer = "cloud" →
   forallb not_local_server_call (new_calls w w') = true)
  ∧ (preferredServer ≠ "cloud" →
     forallb not_cloud_call (new_calls w w') = true
     ∧ new_tasks w w' = []).
Proof.
  intros preferredServer w'. subst w'.
  unfold fetchFromYtDlp, chrome_storage_sync_get. js_unfold. simpl.
  destruct (chrome_storage_rejects env (tick w)); simpl.
  { assert (Hcalls : ∀ P, P (Invoke M_fetchFromYtDlp) = true →
                          P (StorageSyncGet "subtitleServer") = true →
                          forallb P (new_calls w
                                       (bump (add_call (StorageSyncGet "subtitleServer")
                                                (add_call (Invoke M_fetchFromYtDlp) w))))
                          = true).
    { intros P H1 H2. rewrite (new_calls_app _ _ [Invoke M_fetchFromYtDlp;
                                                 StorageSyncGet "subtitleServer"]).
      - simpl. by rewrite H1, H2.
      - simpl. by rewrite <- app_assoc. }
    split; intros _; [by apply Hcalls|]. split; [by apply Hcalls|].
    apply new_tasks_app. simpl. by rewrite app_nil_r. }
  fold preferredServer.
  set (w1 := bump (add_call (StorageSyncGet "subtitleServer")
                     (add_call (Invoke M_fetchFromYtDlp) w))).
  assert (Hpre : ∀ P, P (Invoke M_fetchFromYtDlp) = true →
                      P (StorageSyncGet "subtitleServer") = true →
                      adds_calls P w w1).
  { intros P H1 H2. eexists [_; _].
    split; [unfold w1; simpl; by rewrite <- app_assoc | simpl; by rewrite H1, H2]. }
  destruct (decide (preferredServer = "cloud")) as [Hcloud|Hlocal].
  - split; [intros _ | done].
    apply adds_calls_new. etrans; [by apply Hpre|].
    apply fetchFromVocabumin_not_local.
  - split; [done | intros _]. split.
    + apply adds_calls_new. etrans; [by apply Hpre|].
      apply fetchFromLocalYtDlp_not_cloud.
    + apply adds_tasks_none.
      etrans; [|apply fetchFromLocalYtDlp_no_task].
      exists []. split; [by rewrite app_nil_r | done].
Qed.

Lemma or_else_default_truthy (o : option string) (d : string) :
  truthy d = true → truthy (or_else o d) = true.
Proof.
  intros Hd. destruct o as [s|]; simpl; [|done].
  by destruct (truthy s) eqn:Hs.
Qed.

Lemma caption_of_words multiplier (segments : list Snippet.t) :
  Forall (λ caption, Caption.words caption = extractWordsFromText (Caption.text caption))
    (caption_of multiplier <$> segments).
Proof. induction segments; constructor; done. Qed.

(** X10. [fetchFromVocabumin] never rejects, leaves both cache tiers as
    they are and sends exactly one HTTP request before it returns, to the
    transcript endpoint.
    A result with [success:true] carries a fresh, non-empty [captions]
    array whose every caption has the words of its own text, and a fresh
    [captionData] with a truthy language, type ['auto-generated'] or
    ['manual'] and source ['vocabumin'].  A result with [success:false]
    carries no payload and allocates nothing.  Exactly one health-log task
    is detached, with the success flag of the result, except for a
    structured failure (a 2xx answer without a usable transcript), which
    is not logged. *)
Theorem cloud_fetch_outcomes env videoId w :
  ∃ r w',
    fetchFromVocabumin env videoId w = (Returned r, w')
    ∧ memoryCache w' = memoryCache w
    ∧ idb_store w' = idb_store w
    ∧ http_requests (new_calls w w') = [HttpFetch TranscriptApi videoId]
    ∧ (FetchResult.success r = true →
       ∃ captions captionData caps language type,
         r = FetchResult.mk true (Some captions) None (Some captionData) None
         ∧ captionsObjs (heap w') !! captions = Some (CaptionArray caps)
         ∧ caps ≠ []
         ∧ Forall (λ caption,
                     Caption.words caption = extractWordsFromText (Caption.text caption)) caps
         ∧ captionDataObjs (heap w') !! captionData
           = Some (CaptionData.mk (Some language) (Some type) (Some "vocabumin"))
         ∧ truthy language = true
         ∧ (type = "auto-generated" ∨ type = "manual"))
    ∧ (FetchResult.success r = false →
       FetchResult.captions r = None
       ∧ FetchResult.content r = None
       ∧ FetchResult.captionData r = None
       ∧ heap w' = heap w)
    ∧ match FetchResult.failure r with
      | Some _ => new_tasks w w' = []
      | None =>
          ∃ statusCode errorMessage,
            new_tasks w w'
            = [TaskLogVocabuminAPIResponse videoId statusCode (FetchResult.success r)
                 errorMessage]
            ∧ (FetchResult.success r = true → errorMessage = None)
      end.
Proof.
  unfold fetchFromVocabumin, fetch, json. js_unfold. simpl.
  assert (Hcalls : ∀ w1,
            trace w1 = (trace w ++ [Invoke M_fetchFromVocabumin])
                       ++ [HttpFetch TranscriptApi videoId] →
            http_requests (new_calls w w1) = [HttpFetch TranscriptApi videoId]).
  { intros w1 Htr.
    by rewrite (new_calls_app w w1
                  [Invoke M_fetchFromVocabumin; HttpFetch TranscriptApi videoId])
      by (by rewrite Htr, <- app_assoc). }
  assert (Htasks : ∀ w1 l, background w1 = background w ++ l → new_tasks w w1 = l).
  { intros w1 l. apply new_tasks_app. }
  destruct (fetch_transcript env (tick w) videoId) as [|st body]; simpl.
  { eexists _, _. split; [reflexivity|]. simpl. split_and!; try done.
    - by apply Hcalls.
    - eexists _, _. split; [by apply Htasks | done]. }
  destruct (ok (mkResponse st body)) eqn:Hok; simpl.
  2: { eexists _, _. split; [reflexivity|]. simpl. split_and!; try done.
       - by apply Hcalls.
       - eexists _, _. split; [by apply Htasks | done]. }
  destruct body as [data|]; simpl.
  2: { eexists _, _. split; [reflexivity|]. simpl. split_and!; try done.
       - by apply Hcalls.
       - eexists _, _. split; [by apply Htasks | done]. }
  assert (Hfail : ∃ r w',
            (Returned (vocabumin_failure data),
             bump (add_call (HttpFetch TranscriptApi videoId)
                     (add_call (Invoke M_fetchFromVocabumin) w))) = (Returned r, w')
            ∧ memoryCache w' = memoryCache w
            ∧ idb_store w' = idb_store w
            ∧ http_requests (new_calls w w') = [HttpFetch TranscriptApi videoId]
            ∧ (FetchResult.success r = true →
               ∃ captions captionData caps language type,
                 r = FetchResult.mk true (Some captions) None (Some captionData) None
                 ∧ captionsObjs (heap w') !! captions = Some (CaptionArray caps)
                 ∧ caps ≠ []
                 ∧ Forall (λ caption,
                             Caption.words caption
                             = extractWordsFromText (Caption.text caption)) caps
                 ∧ captionDataObjs (heap w') !! captionData
                   = Some (CaptionData.mk (Some language) (Some type) (Some "vocabumin"))
                 ∧ truthy language = true
                 ∧ (type = "auto-generated" ∨ type = "manual"))
            ∧ (FetchResult.success r = false →
               FetchResult.captions r = None
               ∧ FetchResult.content r = None
               ∧ FetchResult.captionData r = None
               ∧ heap w' = heap w)
            ∧ match FetchResult.failure r with
              | Some _ => new_tasks w w' = []
              | None =>
                  ∃ statusCode errorMessage,
                    new_tasks w w'
                    = [TaskLogVocabuminAPIResponse videoId statusCode (FetchResult.success r)
                         errorMessage]
                    ∧ (FetchResult.success r = true → errorMessage = None)
              end).
  { eexists _, _. split; [reflexivity|]. simpl. split_and!; try done.
    - by apply Hcalls.
    - apply Htasks. simpl. by rewrite app_nil_r. }
  destruct (snippets_of (VocabuminData.transcript data)) as [[|s ss]|]; try exact Hfail.
  destruct (VocabuminData.success data); try exact Hfail.
  unfold new_captions, new_captionData. simpl.
  eexists _, _. split; [reflexivity|]. simpl. split_and!; try done.
  - by apply Hcalls.
  - intros _. eexists _, _, _, _, _. split; [reflexivity|].
    rewrite !lookup_app_r, !Nat.sub_diag by done. simpl.
    split_and!; try done.
    + constructor; [done|]. apply caption_of_words.
    + by apply or_else_default_truthy.
    + destruct (is_generated_of _); auto.
  - eexists _, _. split; [by apply Htasks | done].
Qed.

(** X11. The structured failure built from a provider answer has
    [success:false], a truthy [errorType] and a truthy [errorMessage].  It
    is a user-side issue exactly for the types [no_transcript],
    [transcripts_disabled], [video_unavailable], a server issue exactly
    for [server_error], [youtube_ip_blocked], [network_error], and never
    both.  A missing or empty [error_type] becomes ['unknown'], which is
    neither; a missing or empty [error] becomes ['Unknown error']. *)
Theorem failure_categories (data : VocabuminData.t) :
  ∃ f,
    vocabumin_failure data = FetchResult.mk false None None None (Some f)
    ∧ truthy (Failure.errorType f) = true
    ∧ truthy (Failure.errorMessage f) = true
    ∧ (Failure.isUserSideIssue f = true
       ↔ Failure.errorType f ∈ ["no_transcript"; "transcripts_disabled"; "video_unavailable"])
    ∧ (Failure.isServerIssue f = true
       ↔ Failure.errorType f ∈ ["server_error"; "youtube_ip_blocked"; "network_error"])
    ∧ ¬ (Failure.isUserSideIssue f = true ∧ Failure.isServerIssue f = true)
    ∧ (falsy_opt (VocabuminData.error_type data) = true →
       Failure.errorType f = "unknown"
       ∧ Failure.isUserSideIssue f = false
       ∧ Failure.isServerIssue f = false)
    ∧ (falsy_opt (VocabuminData.error data) = true →
       Failure.errorMessage f = "Unknown error")
    ∧ Failure.warpActive f = VocabuminData.warp_active data.
Proof.
  eexists. split; [reflexivity|]. simpl.
  set (errorType := or_else (VocabuminData.error_type data) "unknown").
  assert (Htruthy : truthy errorType = true) by (by apply or_else_default_truthy).
  rewrite Htruthy, orb_false_r.
  rewrite !bool_decide_eq_true.
  split_and!; try done.
  - by apply or_else_default_truthy.
  - intros [Huser Hserver].
    rewrite !elem_of_cons in Huser, Hserver.
    destruct Huser as [->|[->|[->|?%elem_of_nil]]]; [| | |done];
      destruct Hserver as [?|[?|[?|?%elem_of_nil]]]; done.
  - intros Hfalsy.
    assert (errorType = "unknown") as ->.
    { unfold errorType. destruct (VocabuminData.error_type data) as [s|]; [|done].
      simpl in *. by destruct (truthy s). }
    by split_and!.
  - intros Hfalsy. destruct (VocabuminData.error data) as [s|]; [|done].
    simpl in *. by destruct (truthy s).
Qed.

Section LocalPath.
Local Arguments ok : simpl never.

(** X12. The local path never rejects, touches no cache tier and detaches
    no task.  It first asks the JSON3 endpoint.  If that answer is a
    success, the result is that answer's and the VTT endpoint is not asked.
    If the JSON3 request rejects, or its 2xx body is not JSON, the result
    is [{success:false}] and the VTT endpoint is not asked either.
    Otherwise (a non-2xx status, or [success] falsy) the VTT endpoint is
    asked next, and the result is its document in [content], with no
    [captions] and type ['vtt'], or [{success:false}]. *)
Theorem local_fallback_order env videoId w :
  let first := fetch_ytdlp env (tick w) ExtractSubsJson3 videoId in
  let second := fetch_ytdlp env (S (tick w)) ExtractSubs videoId in
  ∃ r w',
    fetchFromLocalYtDlp env videoId w = (Returned r, w')
    ∧ memoryCache w' = memoryCache w
    ∧ idb_store w' = idb_store w
    ∧ new_tasks w w' = []
    ∧ FetchResult.failure r = None
    ∧ if ytdlp_succeeded first then
        new_calls w w' = [HttpFetch ExtractSubsJson3 videoId]
        ∧ FetchResult.success r = true
        ∧ FetchResult.content r = None
        ∧ deref_captionData (heap w') (FetchResult.captionData r) ≫= CaptionData.source
          = Some "local-ytdlp"
      else if ytdlp_threw first then
        new_calls w w' = [HttpFetch ExtractSubsJson3 videoId]
        ∧ r = fetch_failed
      else
        new_calls w w' = [HttpFetch ExtractSubsJson3 videoId; HttpFetch ExtractSubs videoId]
        ∧ if ytdlp_succeeded second then
            FetchResult.success r = true
            ∧ FetchResult.captions r = None
            ∧ (∃ st data,
                 second = Responded st (Some data)
                 ∧ FetchResult.content r = YtDlpData.content data
                 ∧ deref_captionData (heap w') (FetchResult.captionData r)
                   = Some (CaptionData.mk (YtDlpData.language data) (Some "vtt")
                             (Some "local-ytdlp")))
          else r = fetch_failed.
Proof.
  intros first second. subst first second.
  unfold fetchFromLocalYtDlp, fetch, json, new_captions_opt, new_captionData, new_captions,
    ytdlp_succeeded, ytdlp_threw.
  js_unfold. simpl.
  destruct (fetch_ytdlp env (tick w) ExtractSubsJson3 videoId) as [|st [data|]]; simpl;
    [ | destruct (ok (mkResponse st (Some data))); simpl;
        [destruct (YtDlpData.success data); simpl;
         [destruct (YtDlpData.caption_groups data); simpl|] |]
      | destruct (ok (mkResponse st None)); simpl ];
    try (destruct (fetch_ytdlp env (S (tick w)) ExtractSubs videoId) as [|st2 [data2|]];
         simpl;
         [ | destruct (ok (mkResponse st2 (Some data2))); simpl;
             [destruct (YtDlpData.success data2); simpl |]
           | destruct (ok (mkResponse st2 None)); simpl ]);
    (eexists _, _; split; [reflexivity|]); simpl;
    repeat match goal with
      | |- _ ∧ _ => split
      | |- new_calls _ _ = _ => apply new_calls_app; simpl; by rewrite <- ?app_assoc
      | |- new_tasks _ _ = _ => apply new_tasks_app; simpl; by rewrite app_nil_r
      | |- ∃ st data, Responded _ _ = Responded st (Some data) ∧ _ =>
          eexists _, _; split; [reflexivity|]
      | |- _ => done
      | |- _ => by rewrite lookup_app_r, Nat.sub_diag
      end.
Qed.

End LocalPath.

(* ================================================================== *)
(** * The orchestrator: what it returns and counts *)
(* ================================================================== *)

Section SourceOfFetch.
Variable env : Env.
Local Arguments ok : simpl never.




End SourceOfFetch.



Global Instance same_stats_refl : Reflexive same_stats.
Proof. intros w. reflexivity. Qed.
Global Instance same_stats_trans : Transitive same_stats.
Proof. unfold same_stats. intros w1 w2 w3 H1 H2. by rewrite H2. Qed.

Global Instance same_currentVideoId_refl : Reflexive same_currentVideoId.
Proof. intros w. reflexivity. Qed.
Global Instance same_currentVideoId_trans : Transitive same_currentVideoId.
Proof. unfold same_currentVideoId. intros w1 w2 w3 H1 H2. by rewrite H2. Qed.

Section MoreFrames.
Variable env : Env.





Lemma addToMemoryCache_same_stats videoId captions captionData :
  steps same_stats (addToMemoryCache env videoId captions captionData).
Proof. steps_all; reflexivity. Qed.

End MoreFrames.



Section MoreFrames2.
Variable env : Env.

Lemma saveToIndexedDB_same_memoryCache videoId captions captionData :
  steps same_memoryCache (saveToIndexedDB env videoId captions captionData).
Proof. steps_all; reflexivity. Qed.

End MoreFrames2.

(** STEP 1: a call for an id held by the volatile tier. *)
Lemma fetchSubtitles_memory_hit env videoId videoTitle channelName w cached :
  truthy videoId = true →
  JsMap.get videoId (memoryCache w) = Some cached →
  fetchSubtitles env videoId videoTitle channelName w
  = (Returned (result_memory cached (Date_now env (tick w) - MemEntry.timestamp cached)),
     incr_memoryHits (bump (set_currentVideoId (Some videoId) w))).
Proof.
  intros Htruthy Hget. unfold fetchSubtitles. rewrite Htruthy. js_unfold. simpl.
  unfold JsMap.has. rewrite Hget. unfold now. js_unfold. by simpl.
Qed.

(** A call that returns captions leaves them in the volatile tier. *)
Lemma fetchSubtitles_leaves_entry env videoId videoTitle channelName w r w' :
  fetchSubtitles env videoId videoTitle channelName w = (Returned r, w') →
  Result.error r = None →
  truthy videoId = true
  ∧ ∃ t, JsMap.get videoId (memoryCache w')
         = Some (MemEntry.mk (Result.captions r) (Result.captionData r) t).
Proof.
  pose proof (saveToIndexedDB_same_memoryCache env) as H4.
  unfold steps, same_memoryCache in H4.
  unfold fetchSubtitles.
  destruct (truthy videoId) eqn:Htruthy; simpl; [|by intros [= <- <-]].
  js_unfold. simpl.
  destruct (JsMap.has videoId (memoryCache w)) eqn:Hhas.
  { destruct (JsMap.get videoId (memoryCache w)) as [[c d t]|] eqn:Hget; [|done].
    unfold now. js_unfold. simpl. intros [= <- <-] _. simpl. split; [done|]. by exists t. }
  apply has_false_get in Hhas.
  set (w1 := set_currentVideoId (Some videoId) w).
  pose proof (getFromIndexedDB_same_memoryCache env videoId w1) as H1.
  destruct (getFromIndexedDB env videoId w1) as [[[hit|]|e] w2]; [| |done];
    unfold same_memoryCache in H1; simpl in H1.
  { rewrite addToMemoryCache_run. simpl. intros [= <- <-] _. simpl. split; [done|].
    eexists. apply put_entry_get_new. by rewrite H1. }
  unfold fetchRemote. js_unfold.
  pose proof (checkCacheAndLimits_same_memoryCache env videoId w2) as H2.
  destruct (checkCacheAndLimits env videoId w2) as [[decision|e] w3]; [|done].
  unfold same_memoryCache in H2; simpl in H2.
  destruct (ServerResponse.cached decision).
  { simpl. destruct (ServerResponse.subtitles decision); [|done].
    unfold new_captionData, new_captions. simpl. rewrite addToMemoryCache_run. simpl.
    intros [= <- <-] _. simpl. rewrite H4. simpl. split; [done|].
    eexists. apply put_entry_get_new. by rewrite H2, H1. }
  destruct (ServerResponse.allowed decision); simpl; [|by intros [= <- <-]].
  pose proof (fetchFromYtDlp_same_memoryCache env videoId (incr_misses w3)) as H3.
  destruct (fetchFromYtDlp env videoId (incr_misses w3)) as [[fetchResult|e] w4]; [|done].
  unfold same_memoryCache in H3; simpl in H3.
  destruct (FetchResult.success fetchResult); simpl; [|by intros [= <- <-]].
  unfold storeFreshFetch. js_unfold. simpl. rewrite addToMemoryCache_run. simpl.
  intros [= <- <-] _. simpl. rewrite H4. simpl. split; [done|].
  eexists. apply put_entry_get_new. by rewrite H3, H2, H1.
Qed.

(** X15. After any call of [fetchSubtitles] that returned without an
    error, the next call for the same id, in any browser conditions, is a
    memory hit: it returns [{source:'memory', cached:true}] with the same
    [captions] and [captionData] references and no [content], records no
    collaborator call, detaches no task and leaves both tiers as they
    are. *)
Theorem next_call_is_a_memory_hit env videoId videoTitle channelName w r w' :
  fetchSubtitles env videoId videoTitle channelName w = (Returned r, w') →
  Result.error r = None →
  ∀ env' videoTitle' channelName',
    ∃ r2 w'',
      fetchSubtitles env' videoId videoTitle' channelName' w' = (Returned r2, w'')
      ∧ Result.source r2 = Some "memory"
      ∧ Result.cached r2 = Some true
      ∧ Result.error r2 = None
      ∧ Result.captions r2 = Result.captions r
      ∧ Result.captionData r2 = Result.captionData r
      ∧ Result.content r2 = None
      ∧ trace w'' = trace w'
      ∧ background w'' = background w'
      ∧ memoryCache w'' = memoryCache w'
      ∧ idb_store w'' = idb_store w'.
Proof.
  intros Hrun Hok env' videoTitle' channelName'.
  destruct (fetchSubtitles_leaves_entry _ _ _ _ _ _ _ Hrun Hok) as (Htruthy & t & Hget).
  rewrite (fetchSubtitles_memory_hit env' videoId videoTitle' channelName' w' _ Htruthy Hget).
  eexists _, _. split; [reflexivity|]. by split_and!.
Qed.

Lemma next_call_is_a_memory_hit_witness :
  let env := sample_env (Responded 200 (Some fail_open))
               (Responded 200 (Some generated_transcript)) in
  ∃ r w',
    (fetchSubtitles env "abc123" None None fresh_world = (Returned r, w')
     ∧ Result.error r = None
     ∧ Result.cached r = Some false)
    ∧ ∃ r2 w'',
        fetchSubtitles env "abc123" None None w' = (Returned r2, w'')
        ∧ Result.source r2 = Some "memory"
        ∧ Result.captions r2 = Result.captions r
        ∧ trace w'' = trace w'.
Proof.
  intros env.
  destruct (fetchSubtitles env "abc123" None None fresh_world) as [[r|e] w'] eqn:Hrun;
    [| exfalso; vm_compute in Hrun; discriminate].
  assert (Herr : Result.error r = None).
  { vm_compute in Hrun. by injection Hrun as <- _. }
  assert (Hcached : Result.cached r = Some false).
  { vm_compute in Hrun. by injection Hrun as <- _. }
  exists r, w'. split; [by split_and!|].
  destruct (next_call_is_a_memory_hit env "abc123" None None fresh_world r w' Hrun Herr
              env None None) as (r2 & w'' & Hrun2 & Hsrc & _ & _ & Hc & _ & _ & Htr & _).
  exists r2, w''. by split_and!.
Defined.

(* ================================================================== *)
(** * The orchestrator: a hit in the shared cache *)
(* ================================================================== *)

Section ServerHitFrames.
Variable env : Env.


End ServerHitFrames.





(* ================================================================== *)
(** * The volatile tier under any use of the manager *)
(* ================================================================== *)

Global Instance keeps_cache_ok_refl : Reflexive keeps_cache_ok.
Proof. intros w Hk. exact Hk. Qed.
Global Instance keeps_cache_ok_trans : Transitive keeps_cache_ok.
Proof. intros w1 w2 w3 H1 H2 Hk. by apply H2, H1. Qed.

Lemma same_memoryCache_keeps {A} (m : M A) :
  steps same_memoryCache m → steps keeps_cache_ok m.
Proof. intros Hm w Hok. by rewrite (Hm w). Qed.

Lemma cache_ok_empty : cache_ok [].
Proof. split; [apply NoDup_nil_2 | unfold maxMemoryCacheSize; simpl; lia]. Qed.

Section CacheOkOfMethods.
Variable env : Env.

Lemma addToMemoryCache_cache_ok videoId captions captionData :
  steps keeps_cache_ok (addToMemoryCache env videoId captions captionData).
Proof. intros w Hok. rewrite addToMemoryCache_run. simpl. by apply put_entry_ok. Qed.

Lemma run_task_same_memoryCache task : steps same_memoryCache (run_task env task).
Proof. destruct task; steps_all; reflexivity. Qed.

Lemma deleteFromIndexedDB_same_memoryCache videoId :
  steps same_memoryCache (deleteFromIndexedDB env videoId).
Proof. steps_all; reflexivity. Qed.

Lemma clearAllCaches_cache_ok : steps keeps_cache_ok (clearAllCaches env).
Proof.
  unfold clearAllCaches, clearMemoryCache.
  apply steps_bind; [tc_solve | | intros ?].
  - apply steps_modify. intros w _. exact cache_ok_empty.
  - apply same_memoryCache_keeps. steps_all; reflexivity.
Qed.

Lemma fetchSubtitles_cache_ok videoId videoTitle channelName :
  steps keeps_cache_ok (fetchSubtitles env videoId videoTitle channelName).
Proof.
  pose proof (addToMemoryCache_cache_ok videoId) as Hadd.
  pose proof (λ c d, same_memoryCache_keeps _ (saveToIndexedDB_same_memoryCache env videoId c d))
    as Hsave.
  pose proof (same_memoryCache_keeps _ (getFromIndexedDB_same_memoryCache env videoId)) as Hread.
  pose proof (same_memoryCache_keeps _ (checkCacheAndLimits_same_memoryCache env videoId))
    as Hcheck.
  pose proof (same_memoryCache_keeps _ (fetchFromYtDlp_same_memoryCache env videoId)) as Hfetch.
  unfold fetchSubtitles, fetchRemote, storeFreshFetch.
  repeat match goal with
    | |- steps _ (addToMemoryCache _ _ _ _) => apply Hadd
    | |- steps _ (saveToIndexedDB _ _ _ _) => apply Hsave
    | |- steps _ (getFromIndexedDB _ _) => apply Hread
    | |- steps _ (checkCacheAndLimits _ _) => apply Hcheck
    | |- steps _ (fetchFromYtDlp _ _) => apply Hfetch
    | |- steps _ (ret _) => apply steps_ret; tc_solve
    | |- steps _ (throw _) => apply steps_throw; tc_solve
    | |- steps _ (gets _) => apply steps_gets; tc_solve
    | |- steps _ (bind _ _) => apply steps_bind; [tc_solve | | intros ?]
    | |- steps _ (detach _) => apply steps_detach
    | |- steps _ (modify _) => apply steps_modify; intros ?
    | |- steps _ (query _) => apply steps_query; intros ?
    | |- steps _ (new_captions _) => apply steps_new_captions; intros ?
    | |- steps _ (new_captionData _) => apply steps_new_captionData; intros ?
    | |- steps _ (match ?x with _ => _ end) => destruct x
    | |- steps _ (if ?x then _ else _) => destruct x
    | |- steps _ _ => progress (lazy zeta)
    | |- steps _ _ => progress (unfold record, spawn, now)
    end; by intros Hk.
Qed.

Lemma after_call_cache_ok c w :
  cache_ok (memoryCache w) → cache_ok (memoryCache (after_call env c w)).
Proof.
  destruct c; simpl.
  - apply (same_memoryCache_keeps _ (initIndexedDB_same_memoryCache env)).
  - apply (same_memoryCache_keeps _ (getFromIndexedDB_same_memoryCache env videoId)).
  - apply (same_memoryCache_keeps _
             (saveToIndexedDB_same_memoryCache env videoId captions captionData)).
  - apply (same_memoryCache_keeps _ (deleteFromIndexedDB_same_memoryCache videoId)).
  - apply (same_memoryCache_keeps _ (getAuthToken_same_memoryCache env)).
  - apply fetchSubtitles_cache_ok.
  - apply addToMemoryCache_cache_ok.
  - apply (same_memoryCache_keeps _ (checkCacheAndLimits_same_memoryCache env videoId)).
  - apply (same_memoryCache_keeps _ (fetchFromYtDlp_same_memoryCache env videoId)).
  - intros _. exact cache_ok_empty.
  - apply clearAllCaches_cache_ok.
  - apply (same_memoryCache_keeps _ (run_task_same_memoryCache task)).
Qed.

End CacheOkOfMethods.

(** X18. Whatever methods are called on a freshly constructed manager, in
    whatever order and browser conditions, and whether they return or
    throw (detached tasks included), the volatile tier holds at most 3
    entries and no key twice. *)
Theorem volatile_bound_survives_any_use env0 w0 (calls : list (Env * MethodCall)) :
  let m := memoryCache (after_calls calls (constructor env0 w0).2) in
  JsMap.size m ≤ 3 ∧ NoDup (JsMap.keys m).
Proof.
  intros m.
  assert (Hok : cache_ok m); [|by destruct Hok].
  subst m. generalize (constructor_cache_ok env0 w0).
  generalize ((constructor env0 w0).2). clear w0.
  induction calls as [|[env c] calls IH]; intros w Hok; [done|].
  simpl. apply IH. by apply after_call_cache_ok.
Qed.

(* ================================================================== *)
(** * Video id tracking and detached tasks *)
(* ================================================================== *)

(** X19. After a call of [fetchSubtitles] with a truthy id, however it
    ends, [this.currentVideoId] is that id; a call with a falsy id leaves
    it as it was. *)
Theorem current_video_id_tracks_requests env videoId videoTitle channelName w :
  currentVideoId (fetchSubtitles env videoId videoTitle channelName w).2
  = if truthy videoId then Some videoId else currentVideoId w.
Proof.
  unfold fetchSubtitles. destruct (truthy videoId); simpl; [|done].
  unfold bind at 1. unfold modify at 1.
  match goal with |- currentVideoId (?rest ?w1).2 = _ =>
    assert (Hrest : steps same_currentVideoId rest)
  end.
  { unfold fetchRemote, storeFreshFetch. steps_all; reflexivity. }
  by rewrite (Hrest _).
Qed.

Global Instance only_storage_local_refl : Reflexive only_storage_local.
Proof. intros w. by split_and!. Qed.
Global Instance only_storage_local_trans : Transitive only_storage_local.
Proof.
  intros w1 w2 w3 (A1 & B1 & C1 & D1 & E1 & F1 & G1 & H1) (A2 & B2 & C2 & D2 & E2 & F2 & G2 & H2).
  split_and!; congruence.
Qed.

Section TaskFrames.
Variable env : Env.

Lemma getAuthToken_only_storage_local : steps only_storage_local (getAuthToken env).
Proof. steps_all; by split_and!. Qed.

Lemma getAuthToken_storage_calls : steps (adds_calls is_storage_call) (getAuthToken env).
Proof. steps_all; calls_leaf. Qed.

Lemma run_task_only_storage_local task : steps only_storage_local (run_task env task).
Proof. destruct task; steps_all; by split_and!. Qed.

End TaskFrames.

(** X20. A detached task ([storeInServerCache], [logFetch],
    [logVocabuminAPIResponse]) never rejects and leaves the volatile tier,
    the store, the heap, the counters and the list of detached tasks as
    they are.  After entering its method it calls [chrome.storage] only
    (to obtain the token) and then makes at most one request, to its own
    endpoint and for its own video id. *)
Theorem background_tasks_touch_no_tier env task w :
  ∃ w',
    run_task env task w = (Returned tt, w')
    ∧ memoryCache w' = memoryCache w
    ∧ idb_store w' = idb_store w
    ∧ heap w' = heap w
    ∧ stats w' = stats w
    ∧ background w' = background w
    ∧ ∃ storage request,
        new_calls w w' = Invoke (task_method task) :: storage ++ request
        ∧ forallb is_storage_call storage = true
        ∧ (request = [] ∨ request = [HttpFetch (task_endpoint task) (task_videoId task)]).
Proof.
  destruct (run_task_returns env task w) as (w' & Hrun).
  exists w'. split; [exact Hrun|].
  pose proof (run_task_only_storage_local env task w) as (Hm & _ & _ & Hs & Hh & Hi & _ & Hb).
  rewrite Hrun in Hm, Hs, Hh, Hi, Hb. simpl in *.
  split_and!; try done.
  clear Hm Hs Hh Hi Hb. revert Hrun.
  set (w0 := add_call (Invoke (task_method task)) w).
  pose proof (getAuthToken_storage_calls env w0) as (storage & Htr & Hst).
  assert (Hrun0 : run_task env task w
                  = try_catch
                      (token <- getAuthToken env ;;
                       if falsy_opt token then ret tt
                       else
                         fetch (task_endpoint task) (task_videoId task)
                           (λ n, fetch_post env n (task_endpoint task)) ;;
                         ret tt)
                      (λ _, ret tt) w0).
  { by destruct task. }
  rewrite Hrun0. clear Hrun0.
  unfold try_catch. unfold bind at 1.
  destruct (getAuthToken env w0) as [[token|e] w1]; simpl in Htr.
  2: { intros [= <-]. exists storage, []. split_and!; try done; [|by left].
       apply new_calls_app. rewrite Htr. unfold w0. simpl.
       by rewrite app_nil_r, <- app_assoc. }
  destruct (falsy_opt token); simpl.
  { intros [= <-]. exists storage, []. split_and!; try done; [|by left].
    apply new_calls_app. rewrite Htr. unfold w0. simpl.
    by rewrite app_nil_r, <- app_assoc. }
  unfold fetch. js_unfold. simpl.
  destruct (fetch_post env (tick w1) (task_endpoint task)); simpl;
    intros [= <-]; exists storage, [HttpFetch (task_endpoint task) (task_videoId task)];
    (split_and!; try done; [|by right]);
    apply new_calls_app; simpl; rewrite Htr; unfold w0; simpl;
    by rewrite <- !app_assoc.
Qed.

(* ================================================================== *)
(** * Forced segmentation by word count *)
(* ================================================================== *)

(** The size of the chunks of [forceSegmentByWords]. *)
Lemma chunk_size (idealWords maxWords left : nat) :
  (if (maxWords <? Nat.min idealWords left)%nat then maxWords else Nat.min idealWords left)
  = Nat.min (Nat.min idealWords maxWords) left.
Proof. destruct (Nat.ltb_spec maxWords (Nat.min idealWords left)); lia. Qed.

Lemma forceSegmentByWords_from_spec caption idealWords maxWords fuel currentIndex :
  let words := Caption.words caption in
  let size := Nat.min idealWords maxWords in
  0 < size →
  currentIndex ≤ length words →
  length words - currentIndex ≤ fuel →
  ∃ segments,
    forceSegmentByWords_from fuel caption idealWords maxWords currentIndex = Some segments
    ∧ concat (Caption.words <$> segments) = drop currentIndex words
    ∧ Forall (λ segment,
                0 < length (Caption.words segment) ≤ size
                ∧ Caption.text segment
                  = String.concat " " (word_source <$> Caption.words segment)) segments
    ∧ length words - currentIndex ≤ size * length segments
      < length words - currentIndex + size
    ∧ ∀ i segment,
        segments !! i = Some segment → S i < length segments →
        length (Caption.words segment) = size.
Proof.
  intros words size Hsize. revert currentIndex.
  induction fuel as [|fuel IH]; intros currentIndex Hle Hfuel.
  - assert (currentIndex = length words) as -> by lia.
    exists []. simpl. fold words. rewrite Nat.ltb_irrefl, drop_all.
    split_and!; try done; simpl; lia.
  - simpl. fold words.
    destruct (Nat.ltb_spec currentIndex (length words)) as [Hlt|Hge].
    2: { exists []. rewrite drop_ge by lia. split_and!; try done; simpl; lia. }
    rewrite chunk_size. fold size.
    set (chunkSize := Nat.min size (length words - currentIndex)).
    assert (Hchunk : 0 < chunkSize ≤ size) by (unfold chunkSize; lia).
    destruct (IH (currentIndex + chunkSize)) as (segments & -> & Hwords & Hall & Hcount & Hfull);
      [unfold chunkSize; lia.. |].
    assert (Hlast : length words - currentIndex ≤ size → segments = []).
    { intros Hfew. destruct segments; [done|]. simpl in Hcount. unfold chunkSize in Hcount.
      nia. }
    eexists. split; [reflexivity|]. simpl.
    assert (Hlen : length (take chunkSize (drop currentIndex words)) = chunkSize).
    { rewrite length_take, length_drop. unfold chunkSize. lia. }
    split_and!.
    + rewrite <- (take_drop chunkSize (drop currentIndex words)) at 2. f_equal.
      rewrite drop_drop. exact Hwords.
    + constructor; [|exact Hall]. simpl. rewrite Hlen. split; [lia | done].
    + destruct (Nat.le_gt_cases (length words - currentIndex) size) as [Hfew|Hmany].
      * rewrite (Hlast Hfew). simpl. lia.
      * unfold chunkSize in *. simpl. lia.
    + destruct (Nat.le_gt_cases (length words - currentIndex) size) as [Hfew|Hmany].
      * rewrite (Hlast Hfew). simpl. lia.
      * unfold chunkSize in *. simpl. lia.
    + intros [|i] segment; simpl.
      * intros [= <-] Hmore. simpl. rewrite Hlen.
        destruct (Nat.le_gt_cases (length words - currentIndex) size) as [Hfew|Hmany].
        -- rewrite (Hlast Hfew) in Hmore. simpl in Hmore. lia.
        -- unfold chunkSize. lia.
      * intros Hi Hmore. apply (Hfull i); [done | lia].
Qed.

(** More fuel than needed changes nothing. *)
Lemma forceSegmentByWords_from_more_fuel caption idealWords maxWords fuel currentIndex segments :
  forceSegmentByWords_from fuel caption idealWords maxWords currentIndex = Some segments →
  forceSegmentByWords_from (S fuel) caption idealWords maxWords currentIndex = Some segments.
Proof.
  revert currentIndex segments. induction fuel as [|fuel IH]; intros currentIndex segments.
  - simpl. destruct (_ <? _)%nat; [done|]. by intros [= <-].
  - intros Hrun. simpl in Hrun.
    change (forceSegmentByWords_from (S (S fuel)) caption idealWords maxWords currentIndex)
      with (let words := Caption.words caption in
            let duration := (Caption.end_ caption - Caption.start caption)%float in
            if (currentIndex <? length words)%nat then
              let chunkSize := Nat.min idealWords (length words - currentIndex) in
              let chunkSize := if (maxWords <? chunkSize)%nat then maxWords else chunkSize in
              let chunkWords := take chunkSize (drop currentIndex words) in
              let chunkText := String.concat " " (word_source <$> chunkWords) in
              let progress := (number currentIndex / number (length words))%float in
              let nextProgress :=
                Math_min (number (currentIndex + chunkSize) / number (length words)) 1 in
              segments ← forceSegmentByWords_from (S fuel) caption idealWords maxWords
                           (currentIndex + chunkSize) ;
              Some (Caption.mk
                      (Caption.start caption + progress * duration)%float
                      (Caption.start caption + nextProgress * duration)%float
                      chunkText chunkWords
                    :: segments)
            else Some []).
    cbv zeta. destruct (_ <? _)%nat; [|done].
    destruct (forceSegmentByWords_from fuel caption idealWords maxWords _) as [rest|] eqn:Hrest;
      [|done].
    by rewrite (IH _ _ Hrest).
Qed.

(** What [forceSegmentByWords] returns, for the proofs about its callers. *)
Lemma forceSegmentByWords_spec caption idealWords maxWords :
  0 < idealWords →
  0 < maxWords →
  ∃ segments,
    forceSegmentByWords caption idealWords maxWords = Some segments
    ∧ concat (Caption.words <$> segments) = Caption.words caption
    ∧ Forall (λ segment,
                0 < length (Caption.words segment) ≤ Nat.min idealWords maxWords) segments.
Proof.
  intros Hideal Hmax.
  pose proof (forceSegmentByWords_from_spec caption idealWords maxWords
                (length (Caption.words caption)) 0) as Hspec.
  cbv zeta in Hspec.
  destruct Hspec as (segments & Hrun & Hwords & Hall & _); [lia..|].
  exists segments. split_and!; try done.
  eapply Forall_impl; [exact Hall|]. by intros segment [? _].
Qed.

(** X21. [forceSegmentByWords] with an ideal and a maximal size above 0
    returns: its loop ends within as many rounds as the caption has words,
    and more fuel changes nothing.  The words of the segments, one segment
    after the other, are the words of the caption.  Every segment has
    between one and [min idealWords maxWords] words, and its text is its
    words joined by single spaces.  All segments but the last have exactly
    that many words, so their number is the number of words divided by
    that size, rounded up. *)
Theorem forced_segments_keep_every_word caption idealWords maxWords :
  0 < idealWords →
  0 < maxWords →
  let words := Caption.words caption in
  let size := Nat.min idealWords maxWords in
  ∃ segments,
    forceSegmentByWords caption idealWords maxWords = Some segments
    ∧ (∀ fuel, length words ≤ fuel →
         forceSegmentByWords_from fuel caption idealWords maxWords 0 = Some segments)
    ∧ concat (Caption.words <$> segments) = words
    ∧ Forall (λ segment,
                0 < length (Caption.words segment) ≤ size
                ∧ Caption.text segment
                  = String.concat " " (word_source <$> Caption.words segment)) segments
    ∧ length words ≤ size * length segments < length words + size
    ∧ ∀ i segment,
        segments !! i = Some segment → S i < length segments →
        length (Caption.words segment) = size.
Proof.
  intros Hideal Hmax words size.
  pose proof (forceSegmentByWords_from_spec caption idealWords maxWords (length words) 0)
    as Hspec.
  cbv zeta in Hspec. fold words size in Hspec.
  destruct Hspec as (segments & Hrun & Hwords & Hall & Hcount & Hfull); [lia..|].
  exists segments. rewrite Nat.sub_0_r in Hcount. split_and!; try done; try lia.
  intros fuel Hfuel. induction Hfuel as [|fuel _ IH]; [exact Hrun|].
  by apply forceSegmentByWords_from_more_fuel.
Qed.

Lemma forced_segments_keep_every_word_witness :
  let caption := Caption.mk 0 5 "one two three, four five"
                   (extractWordsFromText "one two three, four five") in
  ∃ segments,
    forceSegmentByWords caption 2 12 = Some segments
    ∧ length segments = 3
    ∧ Caption.text <$> segments = ["one two"; "three, four"; "five"].
Proof.
  intros caption.
  destruct (forced_segments_keep_every_word caption 2 12) as (segments & Hrun & _);
    [lia..|].
  exists segments. split; [exact Hrun|].
  vm_compute in Hrun. injection Hrun as <-. by split.
Defined.

(** X22. With an ideal or a maximal size of 0, and a caption that has
    words, the loop of [forceSegmentByWords] makes no progress: the chunk
    is empty and [currentIndex] stays 0.  The call does not return,
    whatever the number of rounds it is given. *)
Theorem forced_segmentation_needs_positive_sizes caption idealWords maxWords fuel :
  Caption.words caption ≠ [] →
  idealWords = 0 ∨ maxWords = 0 →
  forceSegmentByWords_from fuel caption idealWords maxWords 0 = None
  ∧ forceSegmentByWords caption idealWords maxWords = None.
Proof.
  intros Hwords Hzero.
  assert (Hloop : ∀ fuel, forceSegmentByWords_from fuel caption idealWords maxWords 0 = None).
  { clear fuel. intros fuel. induction fuel as [|fuel IH]; simpl.
    - destruct (Caption.words caption); done.
    - destruct (Nat.ltb_spec 0 (length (Caption.words caption))) as [_|Hlen].
      2: { destruct (Caption.words caption); [done | simpl in Hlen; lia]. }
      rewrite chunk_size.
      replace (Nat.min (Nat.min idealWords maxWords) (length (Caption.words caption) - 0))
        with 0 by lia.
      simpl. by rewrite IH. }
  split; [apply Hloop | apply Hloop].
Qed.

Lemma forced_segmentation_needs_positive_sizes_witness :
  let caption := Caption.mk 0 5 "one two" (extractWordsFromText "one two") in
  Caption.words caption ≠ []
  ∧ forceSegmentByWords_from 1000 caption 0 12 0 = None.
Proof.
  intros caption.
  assert (Hwords : Caption.words caption ≠ []) by done.
  split; [exact Hwords|].
  exact (proj1 (forced_segmentation_needs_positive_sizes caption 0 12 1000 Hwords
                  (or_introl eq_refl))).
Defined.

(* ================================================================== *)
(** * Segmentation at natural breaks *)
(* ================================================================== *)

(** The loop of [selectOptimalBreaks] ends: it is entered only when the
    test [breakPoints.length <= numBreaks] failed, so its own test fails
    at the latest for [i = breakPoints.length]. *)
Lemma select_breaks_total idealInterval numBreaks breakPoints fuel i selected :
  0 < length breakPoints →
  (number (length breakPoints) <=? numBreaks)%float = false →
  i + fuel = S (length breakPoints) →
  (2 ≤ i → (number (i - 1) <=? numBreaks)%float = true) →
  is_Some (select_breaks fuel idealInterval numBreaks breakPoints i selected).
Proof.
  intros Hlen Hentry. revert i selected.
  induction fuel as [|fuel IH]; intros i selected Hsum Hprev; simpl.
  - destruct (number i <=? numBreaks)%float; [|done].
    assert (i - 1 = length breakPoints) as Hi by lia.
    rewrite Hi in Hprev. rewrite Hprev in Hentry; [done | lia].
  - destruct (number i <=? numBreaks)%float eqn:Hcheck; [|done].
    apply IH; [lia|]. intros _. by replace (S i - 1) with i by lia.
Qed.

Lemma selectOptimalBreaks_total text breakPoints numBreaks :
  breakPoints ≠ [] →
  is_Some (selectOptimalBreaks text breakPoints numBreaks).
Proof.
  intros Hne. unfold selectOptimalBreaks.
  destruct (number (length breakPoints) <=? numBreaks)%float eqn:Hentry; [done|].
  apply fmap_is_Some. apply select_breaks_total; try done.
  - destruct breakPoints; [done | simpl; lia].
  - lia.
Qed.

(** The inner loop of [segmentAtBreaks] cuts the words in two. *)
Lemma take_segment_words_app text lastPosition breakPosition words segmentWords remaining :
  take_segment_words text lastPosition breakPosition words = (segmentWords, remaining) →
  words = segmentWords ++ remaining.
Proof.
  revert segmentWords remaining.
  induction words as [|word words IH]; intros segmentWords remaining; simpl.
  - by intros [= <- <-].
  - destruct (indexOf _ _ _) as [wordPos|]; [|by intros [= <- <-]].
    destruct (_ <=? _)%nat; [by intros [= <- <-]|].
    destruct (take_segment_words text lastPosition breakPosition words) as [taken rest].
    intros [= <- <-]. simpl. f_equal. by apply IH.
Qed.

Lemma segments_at_spec caption limits breakPositions lastPosition words :
  0 < Limits.idealWords limits →
  0 < Limits.absoluteMaxWords limits →
  ∃ segments,
    segments_at caption limits breakPositions lastPosition words = Some segments
    ∧ Forall (segment_ok limits) segments
    ∧ concat (Caption.words <$> segments) `prefix_of` words.
Proof.
  intros Hideal Hmax. revert lastPosition words.
  induction breakPositions as [|breakPosition breakPositions IH]; intros lastPosition words.
  { exists []. split; [done|]. split; [done|]. apply prefix_nil. }
  cbn [segments_at]. cbv zeta.
  destruct (negb (truthy _)); [apply IH|].
  destruct (take_segment_words _ _ _ _) as [segmentWords remaining] eqn:Htake.
  apply take_segment_words_app in Htake as ->.
  destruct (IH breakPosition remaining) as (segments & -> & Hall & Hprefix).
  destruct (Nat.ltb_spec 0 (length segmentWords)) as [Hsome|Hnone]; simpl.
  - destruct (Nat.leb_spec (length segmentWords) (Limits.absoluteMaxWords limits))
      as [Hfits|Hlong]; simpl.
    + destruct (_ <=? _)%float.
      * eexists. split; [reflexivity|]. split.
        -- constructor; [|done]. unfold segment_ok. simpl. lia.
        -- simpl. by apply prefix_app.
      * match goal with |- context [forceSegmentByWords ?c _ _] =>
          destruct (forceSegmentByWords_spec c (Limits.idealWords limits)
                      (Limits.absoluteMaxWords limits) Hideal Hmax)
            as (sub & -> & Hsub & Hsuball)
        end.
        simpl. eexists. split; [reflexivity|]. split.
        -- apply Forall_app. split; [|done].
           eapply Forall_impl; [exact Hsuball|]. unfold segment_ok. simpl. lia.
        -- rewrite fmap_app, concat_app, Hsub. simpl. by apply prefix_app.
    + match goal with |- context [forceSegmentByWords ?c _ _] =>
        destruct (forceSegmentByWords_spec c (Limits.idealWords limits)
                    (Limits.absoluteMaxWords limits) Hideal Hmax)
          as (sub & -> & Hsub & Hsuball)
      end.
      simpl. eexists. split; [reflexivity|]. split.
      * apply Forall_app. split; [|done].
        eapply Forall_impl; [exact Hsuball|]. unfold segment_ok. simpl. lia.
      * rewrite fmap_app, concat_app, Hsub. simpl. by apply prefix_app.
  - assert (segmentWords = []) as -> by (destruct segmentWords; [done | simpl in Hnone; lia]).
    simpl. eexists. split; [reflexivity|]. by split.
Qed.

(** ** Strings *)

Lemma length_append (a b : string) :
  String.length (a +:+ b) = String.length a + String.length b.
Proof. induction a as [|c a IH]; str_simpl; [done | by rewrite IH]. Qed.

Lemma substring_prefix (word after : string) :
  String.substring 0 (String.length word) (word +:+ after) = word.
Proof. induction word as [|c word IH]; str_simpl; [by destruct after | by rewrite IH]. Qed.

Lemma occurs_at_substring text p word :
  occurs_at text p word → String.substring p (String.length word) text = word.
Proof.
  intros (before & after & -> & <-).
  induction before as [|c before IH]; str_simpl; [apply substring_prefix | exact IH].
Qed.

Lemma occurs_at_length text p word :
  occurs_at text p word → p + String.length word ≤ String.length text.
Proof. intros (before & after & -> & <-). rewrite !length_append. lia. Qed.

Lemma placed_mono text from from' words :
  from' ≤ from → placed text from words → placed text from' words.
Proof.
  intros Hle. destruct words as [|word words]; [done|].
  intros (p & Hp & Hocc & Hrest). exists p. split; [lia | done].
Qed.

(** [indexOf] finds a word that stands at or after [from], there or
    earlier. *)
Lemma indexOf_finds text p word from :
  occurs_at text p word → word ≠ EmptyString → from ≤ p →
  ∃ q, indexOf word from text = Some q ∧ q ≤ p.
Proof.
  intros Hocc Hword Hfrom. unfold indexOf.
  pose proof (occurs_at_substring _ _ _ Hocc) as Hsub.
  set (n := Nat.min from (String.length text)). assert (n ≤ p) by lia.
  destruct (index n word text) as [q|] eqn:Hindex.
  - exists q. split; [done|]. destruct (Nat.le_gt_cases q p) as [|Hlt]; [done|].
    by destruct (index_correct2 _ _ _ _ Hindex p).
  - by destruct (index_correct3 _ p _ _ Hindex).
Qed.

(** ** Where the words of a text stand *)

Lemma split_whitespace_placed text s cur in_gap before :
  text = before +:+ cur +:+ s →
  (in_gap = true → cur = EmptyString) →
  placed text (String.length before)
    (filter (λ word, (0 <? String.length word)%nat) (split_whitespace s cur in_gap)).
Proof.
  revert cur in_gap before.
  induction s as [|c s IH]; intros cur in_gap before Htext Hgap; simpl.
  - destruct cur as [|c cur].
    + by rewrite filter_cons_False by (by intros ?).
    + rewrite filter_cons_True by done. simpl.
      exists (String.length before). split; [done|]. split; [|done].
      by exists before, EmptyString.
  - destruct (is_whitespace c) eqn:Hc.
    + destruct in_gap.
      * rewrite (Hgap eq_refl) in Htext |- *.
        apply (placed_mono _ (String.length (before +:+ String c EmptyString))).
        { rewrite length_append. lia. }
        apply IH; [|done]. rewrite Htext. str_simpl. by rewrite append_assoc.
      * assert (Hrest : placed text (String.length before)
                  (filter (λ word, (0 <? String.length word)%nat)
                     (split_whitespace s EmptyString true))).
        { apply (placed_mono _ (String.length (before +:+ cur +:+ String c EmptyString))).
          { rewrite length_append. lia. }
          apply IH; [|done]. rewrite Htext. str_simpl.
          rewrite !append_assoc. by str_simpl. }
        destruct cur as [|c' cur].
        -- by rewrite filter_cons_False by (by intros ?).
        -- rewrite filter_cons_True by done. simpl.
           exists (String.length before). split; [done|]. split; [|done].
           by exists before, (String c s).
    + apply IH; [|done]. rewrite Htext. rewrite !append_assoc. by str_simpl.
Qed.

Lemma words_placed text :
  placed text 0 (word_source <$> extractWordsFromText text).
Proof.
  rewrite words_sources. by apply (split_whitespace_placed text text EmptyString false EmptyString).
Qed.

Lemma words_are_tokens text :
  Forall is_token (word_source <$> extractWordsFromText text).
Proof.
  rewrite words_sources. apply Forall_forall. intros piece Hin.
  apply list_elem_of_filter in Hin as [Hlen Hpiece]. split; [by destruct piece|].
  by apply (split_whitespace_pieces text EmptyString false).
Qed.

(** ** Trimming *)

Lemma trimEnd_empty s : trimEnd s = EmptyString → strip_whitespace s = EmptyString.
Proof.
  induction s as [|c s IH]; simpl; [done|].
  destruct (trimEnd s); [|done]. destruct (is_whitespace c); [intros _; by apply IH | done].
Qed.

Lemma strip_whitespace_run s :
  strip_whitespace (drop_chars (whitespace_run s) s) = strip_whitespace s.
Proof.
  induction s as [|c s IH]; simpl; [done|].
  destruct (is_whitespace c) eqn:Hc; simpl; [exact IH | by rewrite Hc].
Qed.

Lemma trim_empty s : trim s = EmptyString → strip_whitespace s = EmptyString.
Proof. intros H%trimEnd_empty. by rewrite strip_whitespace_run in H. Qed.

Lemma substring_to_end from s :
  String.substring from (String.length s - from) s = drop_chars from s.
Proof.
  revert from. induction s as [|c s IH]; intros [|from]; simpl; try done.
  - f_equal. specialize (IH 0). rewrite Nat.sub_0_r in IH. exact IH.
Qed.

Lemma String_substring_to_end from s :
  from ≤ String.length s →
  String_substring from (String.length s) s = drop_chars from s.
Proof.
  intros Hle. unfold String_substring.
  rewrite Nat.min_id, (Nat.min_l from) by done. rewrite Nat.min_l, Nat.max_r by done.
  apply substring_to_end.
Qed.

Lemma drop_chars_append before rest from :
  from ≤ String.length before →
  drop_chars from (before +:+ rest) = drop_chars from before +:+ rest.
Proof.
  revert from. induction before as [|c before IH]; intros [|from] Hle; str_simpl; try done.
  - simpl in Hle. lia.
  - apply IH. simpl in Hle. lia.
Qed.

(** The text from [from] on is not blank when a token stands there. *)
Lemma token_not_trimmed text p word from :
  occurs_at text p word → is_token word → from ≤ p →
  truthy (trim (String_substring from (String.length text) text)) = true.
Proof.
  intros Hocc [Hne Htoken] Hfrom.
  pose proof (occurs_at_length _ _ _ Hocc) as Hlen.
  rewrite String_substring_to_end by lia.
  destruct (trim _) eqn:Htrim; [|done].
  apply trim_empty in Htrim. destruct Hocc as (before & after & -> & <-).
  rewrite drop_chars_append, !strip_whitespace_append, Htoken in Htrim by done.
  destruct (strip_whitespace (drop_chars from before)); str_simpl; [|done].
  destruct word; [done|]. by str_simpl.
Qed.

(** The words that the inner loop of [segmentAtBreaks] leaves stand at
    or after the break; none is left at the end of the text. *)
Lemma take_segment_words_placed text lastPosition breakPosition words segmentWords remaining :
  placed text lastPosition (word_source <$> words) →
  Forall is_token (word_source <$> words) →
  take_segment_words text lastPosition breakPosition words = (segmentWords, remaining) →
  placed text breakPosition (word_source <$> remaining)
  ∧ Forall is_token (word_source <$> remaining)
  ∧ (breakPosition = String.length text → remaining = []).
Proof.
  revert segmentWords remaining.
  induction words as [|word words IH]; intros segmentWords remaining; simpl.
  { by intros _ _ [= <- <-]. }
  intros (p & Hfrom & Hocc & Hplaced) Htokens.
  apply Forall_cons in Htokens as [[Hne Htoken] Htokens].
  destruct (indexOf_finds _ _ _ lastPosition Hocc Hne Hfrom) as (q & -> & Hq).
  destruct (Nat.leb_spec breakPosition q) as [Hstop|Hgo].
  - intros [= <- <-]. simpl. split_and!.
    + exists p. split; [lia | done].
    + by constructor.
    + intros ->. pose proof (occurs_at_length _ _ _ Hocc).
      destruct (word_source word); [done | simpl in *; lia].
  - destruct (take_segment_words text lastPosition breakPosition words) as [taken rest].
    intros [= <- <-]. apply (IH taken rest); try done.
    by apply (placed_mono _ p).
Qed.

Lemma segments_at_keeps_words caption limits breakPositions lastPosition words segments :
  0 < Limits.idealWords limits →
  0 < Limits.absoluteMaxWords limits →
  placed (Caption.text caption) lastPosition (word_source <$> words) →
  Forall is_token (word_source <$> words) →
  (breakPositions = [] → words = []) →
  (∀ breakPosition,
     last breakPositions = Some breakPosition →
     breakPosition = String.length (Caption.text caption)) →
  segments_at caption limits breakPositions lastPosition words = Some segments →
  concat (Caption.words <$> segments) = words.
Proof.
  intros Hideal Hmax. revert lastPosition words segments.
  induction breakPositions as [|breakPosition breakPositions IH];
    intros lastPosition words segments Hplaced Htokens Hnil Hlast.
  { rewrite (Hnil eq_refl). by intros [= <-]. }
  cbn [segments_at]. cbv zeta.
  destruct (truthy _) eqn:Htext; simpl.
  2: { apply IH; try done.
       - intros ->. rewrite (Hlast breakPosition eq_refl) in Htext.
         destruct words as [|word words]; [done|]. exfalso.
         destruct Hplaced as (p & Hfrom & Hocc & _).
         apply Forall_cons in Htokens as [Htoken _].
         by rewrite (token_not_trimmed _ _ _ _ Hocc Htoken Hfrom) in Htext.
       - intros b Hb. apply Hlast. destruct breakPositions; [done | exact Hb]. }
  destruct (take_segment_words _ _ _ _) as [segmentWords remaining] eqn:Htake.
  pose proof (take_segment_words_app _ _ _ _ _ _ Htake) as ->.
  rewrite fmap_app in Hplaced, Htokens.
  assert (Hrest : ∀ rest,
            segments_at caption limits breakPositions breakPosition remaining = Some rest →
            concat (Caption.words <$> rest) = remaining).
  { intros rest.
    assert (Hinit : placed (Caption.text caption) lastPosition
                      (word_source <$> segmentWords ++ remaining))
      by (by rewrite fmap_app).
    assert (Htok : Forall is_token (word_source <$> segmentWords ++ remaining))
      by (by rewrite fmap_app).
    destruct (take_segment_words_placed _ _ _ _ _ _ Hinit Htok Htake)
      as (Hplaced' & Htokens' & Hend).
    apply IH; try done.
    - intros ->. by apply Hend, Hlast.
    - intros b Hb. apply Hlast. destruct breakPositions; [done | exact Hb]. }
  destruct (segments_at caption limits breakPositions breakPosition remaining)
    as [rest|] eqn:Hrun.
  2: { destruct (_ && _); simpl; [done|].
       destruct (0 <? _)%nat; [|done]. by destruct (forceSegmentByWords _ _ _). }
  specialize (Hrest rest eq_refl).
  destruct (_ && _); simpl.
  { intros [= <-]. rewrite fmap_cons. cbn [concat]. by rewrite Hrest. }
  destruct (Nat.ltb_spec 0 (length segmentWords)) as [Hsome|Hnone].
  - match goal with |- context [forceSegmentByWords ?c _ _] =>
      destruct (forceSegmentByWords_spec c (Limits.idealWords limits)
                  (Limits.absoluteMaxWords limits) Hideal Hmax)
        as (sub & -> & Hsub & _)
    end.
    simpl. intros [= <-]. rewrite fmap_app, concat_app, Hsub, Hrest. done.
  - intros [= <-]. rewrite Hrest.
    by assert (segmentWords = []) as -> by (destruct segmentWords; [done | simpl in Hnone; lia]).
Qed.

(** What [segmentCaption] returns, whatever the caption. *)
Lemma segmentCaption_spec caption limits :
  0 < Limits.idealWords limits →
  0 < Limits.absoluteMaxWords limits →
  ∃ segments,
    segmentCaption caption limits = Some segments
    ∧ Forall (segment_ok limits) segments
    ∧ concat (Caption.words <$> segments) `prefix_of` Caption.words caption
    ∧ (segments = [] ↔ Caption.words caption = [])
    ∧ (Caption.words caption = extractWordsFromText (Caption.text caption) →
       concat (Caption.words <$> segments) = Caption.words caption).
Proof.
  intros Hideal Hmax.
  destruct (forceSegmentByWords_spec caption _ _ Hideal Hmax)
    as (forced & Hforced & Hwords & Hall).
  assert (Hfallback :
            Forall (segment_ok limits) forced
            ∧ concat (Caption.words <$> forced) `prefix_of` Caption.words caption
            ∧ (forced = [] ↔ Caption.words caption = [])
            ∧ (Caption.words caption = extractWordsFromText (Caption.text caption) →
               concat (Caption.words <$> forced) = Caption.words caption)).
  { split_and!.
    - eapply Forall_impl; [exact Hall|]. unfold segment_ok. simpl. lia.
    - by rewrite Hwords.
    - rewrite <- Hwords. split; [by intros ->|]. intros Hnil.
      destruct Hall as [|segment forced Hsegment _]; [done|].
      simpl in Hnil. destruct (Caption.words segment); [simpl in Hsegment; lia | done].
    - done. }
  unfold segmentCaption. cbv zeta. rewrite Hforced.
  destruct (_ && _) eqn:Hnatural; [|by exists forced].
  apply andb_prop in Hnatural as [Hbreaks _].
  unfold segmentAtBreaks.
  destruct (selectOptimalBreaks_total (Caption.text caption)
              (findNaturalBreaks (Caption.text caption))
              (Math_max
                 (Math_ceil (number (length (Caption.words caption))
                             / number (Limits.idealWords limits)))
                 (Math_ceil ((Caption.end_ caption - Caption.start caption)
                             / Limits.idealDuration limits)) - 1)%float)
    as [selectedBreaks Hselected].
  { destruct (findNaturalBreaks _); [done | done]. }
  rewrite Hselected. simpl.
  destruct (segments_at_spec caption limits
              (selectedBreaks ++ [String.length (Caption.text caption)]) 0
              (Caption.words caption) Hideal Hmax)
    as (natural & Hrun & Hok & Hprefix).
  rewrite Hrun. simpl.
  destruct natural as [|segment natural]; simpl; [by exists forced|].
  eexists. split; [reflexivity|]. split_and!; try done.
  - split; [done|]. intros Hnil. rewrite Hnil in Hprefix.
    apply prefix_nil_inv in Hprefix.
    apply Forall_cons in Hok as [[Hsome _] _]. simpl in Hprefix.
    destruct (Caption.words segment); [simpl in Hsome; lia | done].
  - intros Hextracted.
    apply (segments_at_keeps_words caption limits
             (selectedBreaks ++ [String.length (Caption.text caption)]) 0); try done.
    + rewrite Hextracted. apply words_placed.
    + rewrite Hextracted. apply words_are_tokens.
    + by destruct selectedBreaks.
    + intros b. rewrite last_snoc. by intros [= <-].
Qed.

(* ================================================================== *)
(** * Segmentation of a list of captions *)
(* ================================================================== *)

(** What one caption contributes to the result of
    [applyUltraStrictSegmentation]. *)
Lemma segments_of_spec caption :
  ∃ segments,
    segments_of caption = Some segments
    ∧ ((already_perfect caption = true ∧ segments = [caption])
       ∨ (already_perfect caption = false
          ∧ Forall (λ segment,
                      0 < length (Caption.words segment) ≤ ABSOLUTE_MAX_WORDS) segments
          ∧ concat (Caption.words <$> segments) `prefix_of` Caption.words caption
          ∧ (segments = [] ↔ Caption.words caption = [])))
    ∧ (words_of_text caption →
       concat (Caption.words <$> segments) = Caption.words caption).
Proof.
  unfold segments_of. destruct (already_perfect caption) eqn:Hperfect.
  - exists [caption]. split; [done|]. split; [by left|]. intros _. simpl. apply app_nil_r.
  - destruct (segmentCaption_spec caption
                (Limits.mk ABSOLUTE_MAX_WORDS ABSOLUTE_MAX_DURATION IDEAL_WORDS IDEAL_DURATION))
      as (segments & -> & Hok & Hprefix & Hnil & Hkeep); [simpl; unfold IDEAL_WORDS; lia
                                                          | simpl; unfold ABSOLUTE_MAX_WORDS; lia |].
    exists segments. split; [done|]. split; [|exact Hkeep]. right. by split_and!.
Qed.

(** X23. [applyUltraStrictSegmentation] returns for every list of raw
    captions, whatever their texts and words.  The result is made of one
    group per raw caption, in the order of the raw captions.  A caption
    that is "already perfect" (at most 8 words and at most 2.5 seconds) is
    passed on as it is.  Any other caption is replaced by segments that
    have between 1 and 12 words each, and whose words, one segment after
    the other, are an initial part of the words of the caption; it
    disappears exactly when it has no words.  So no caption of the result
    has more than 12 words. *)
Theorem segmentation_bounds_every_caption (rawCaptions : list Caption.t) :
  ∃ groups,
    applyUltraStrictSegmentation rawCaptions = Some (concat groups)
    ∧ Forall2 (λ caption group,
                 (already_perfect caption = true ∧ group = [caption])
                 ∨ (already_perfect caption = false
                    ∧ Forall (λ segment,
                                0 < length (Caption.words segment) ≤ ABSOLUTE_MAX_WORDS)
                        group
                    ∧ concat (Caption.words <$> group) `prefix_of` Caption.words caption
                    ∧ (group = [] ↔ Caption.words caption = [])))
        rawCaptions groups
    ∧ Forall (λ segment, length (Caption.words segment) ≤ ABSOLUTE_MAX_WORDS)
        (concat groups).
Proof.
  induction rawCaptions as [|caption rawCaptions IH].
  { exists []. by split_and!. }
  destruct IH as (groups & Hrun & Hgroups & Hbound).
  destruct (segments_of_spec caption) as (segments & Hsegments & Hcase & _).
  exists (segments :: groups). simpl. rewrite Hsegments, Hrun. simpl.
  split; [done|]. split; [by constructor|].
  apply Forall_app. split; [|exact Hbound].
  destruct Hcase as [[Hperfect ->]|(_ & Hok & _)].
  - constructor; [|done]. unfold already_perfect in Hperfect.
    apply andb_prop in Hperfect as [Hwords%Nat.leb_le _].
    unfold IDEAL_WORDS in Hwords. unfold ABSOLUTE_MAX_WORDS. lia.
  - eapply Forall_impl; [exact Hok|]. simpl. lia.
Qed.

(** X24. When the words of every raw caption are the words of its text,
    as [extractRawCaptions] builds them, segmentation loses, repeats and
    reorders no word: the words of the result, one caption after the
    other, are the words of the raw captions. *)
Theorem segmentation_keeps_every_word (rawCaptions : list Caption.t) :
  Forall words_of_text rawCaptions →
  ∃ segmentedCaptions,
    applyUltraStrictSegmentation rawCaptions = Some segmentedCaptions
    ∧ concat (Caption.words <$> segmentedCaptions)
      = concat (Caption.words <$> rawCaptions).
Proof.
  induction 1 as [|caption rawCaptions Hwords _ IH].
  { by exists []. }
  destruct IH as (segmentedCaptions & Hrun & Hsame).
  destruct (segments_of_spec caption) as (segments & Hsegments & _ & Hkeep).
  exists (segments ++ segmentedCaptions). simpl. rewrite Hsegments, Hrun. simpl.
  split; [done|]. by rewrite fmap_app, concat_app, Hsame, Hkeep.
Qed.

Lemma segmentation_keeps_every_word_witness :
  let caption := Caption.mk 0 6 sample_text (extractWordsFromText sample_text) in
  Forall words_of_text [caption]
  ∧ ∃ segmentedCaptions,
      applyUltraStrictSegmentation [caption] = Some segmentedCaptions
      ∧ Caption.text <$> segmentedCaptions
        = ["well,"; "I think that we should go to the";
           "market and buy some apples,"; "then come home"]
      ∧ concat (Caption.words <$> segmentedCaptions) = extractWordsFromText sample_text.
Proof.
  intros caption.
  assert (Hwords : Forall words_of_text [caption]) by (by constructor).
  split; [exact Hwords|].
  destruct (segmentation_keeps_every_word [caption] Hwords) as (segmentedCaptions & Hrun & Hsame).
  exists segmentedCaptions. split; [exact Hrun|].
  split; [|rewrite Hsame; vm_compute; reflexivity].
  vm_compute in Hrun. injection Hrun as <-. reflexivity.
Defined.

(* ================================================================== *)
(** * Natural breaks and their selection *)
(* ================================================================== *)

(** ** Matches *)

Lemma drop_chars_empty n : drop_chars n EmptyString = EmptyString.
Proof. by destruct n. Qed.

Lemma drop_chars_add n m s : drop_chars m (drop_chars n s) = drop_chars (n + m) s.
Proof.
  revert s. induction n as [|n IH]; intros s; simpl; [done|].
  destruct s; [apply drop_chars_empty | apply IH].
Qed.

Lemma drop_chars_split n s c t :
  drop_chars n s = String c t →
  ∃ before, s = before +:+ String c t ∧ String.length before = n.
Proof.
  revert s. induction n as [|n IH]; intros s; simpl.
  - intros ->. by exists EmptyString.
  - destruct s as [|c' s]; [done|]. intros (before & -> & <-)%IH.
    by exists (String c' before).
Qed.

Lemma whitespace_run_split t :
  0 < whitespace_run t →
  ∃ before c after,
    t = before +:+ String c after ∧ S (String.length before) = whitespace_run t
    ∧ is_whitespace c = true ∧ whitespace_run after = 0.
Proof.
  induction t as [|c t IH]; simpl; [lia|].
  destruct (is_whitespace c) eqn:Hc; [|lia]. intros _.
  destruct (whitespace_run t) as [|n] eqn:Hrun.
  - by exists EmptyString, c, t.
  - destruct IH as (before & c' & after & -> & Hlen & Hc' & Hafter); [lia|].
    exists (String c before), c', after. str_simpl. split_and!; try done. lia.
Qed.

Lemma match_here_after_whitespace pattern s len :
  match_here pattern s = Some len → after_whitespace s len.
Proof.
  unfold match_here. destruct (_ && _); [done|].
  set (lead := if Pattern.leading_whitespace pattern then whitespace_run s else 0).
  destruct (find _ _) as [alternative|] eqn:Hfind; [|done]. simpl. intros [= <-].
  apply find_some in Hfind as [_ [_ Hrun%Nat.ltb_lt]%andb_prop].
  rewrite drop_chars_add in Hrun |- *.
  destruct (whitespace_run_split _ Hrun) as (mid & c & after & Hsplit & Hlen & Hc & Hafter).
  destruct mid as [|c0 mid].
  - apply drop_chars_split in Hsplit as (before & -> & Hbefore).
    exists before, c, after. split_and!; try done.
    rewrite <- Hlen, Hbefore. simpl. lia.
  - rewrite append_cons in Hsplit.
    apply drop_chars_split in Hsplit as (before & -> & Hbefore).
    exists (before +:+ String c0 mid), c, after. split_and!; try done.
    + rewrite append_assoc. by str_simpl.
    + rewrite length_append, Hbefore, <- Hlen. simpl. lia.
Qed.

Lemma match_ends_after_whitespace pattern text s offset skip before e :
  text = before +:+ s → String.length before = offset →
  e ∈ match_ends pattern s offset skip →
  after_whitespace text e.
Proof.
  revert offset skip before.
  induction s as [|c s IH]; intros offset skip before Htext Hoffset; simpl.
  { by intros ?%elem_of_nil. }
  assert (Hnext : ∀ skip', e ∈ match_ends pattern s (S offset) skip' → after_whitespace text e).
  { intros skip'. apply (IH _ _ (before +:+ String c EmptyString)).
    - rewrite Htext, append_assoc. by str_simpl.
    - rewrite length_append, Hoffset. simpl. lia. }
  destruct skip as [|skip]; [|apply Hnext].
  destruct (match_here pattern (String c s)) as [len|] eqn:Hmatch; [|apply Hnext].
  intros [->|Hin]%elem_of_cons; [|by eapply Hnext].
  apply match_here_after_whitespace in Hmatch
    as (mid & c' & after & Hs & Hlen & Hc' & Hafter).
  exists (before +:+ mid), c', after. split_and!; try done.
  - by rewrite Htext, Hs, append_assoc.
  - rewrite length_append, Hoffset, <- Hlen. lia.
Qed.

(** ** Sorting *)

Lemma insert_break_elem_of b b' sorted :
  b' ∈ insert_break b sorted ↔ b' = b ∨ b' ∈ sorted.
Proof.
  induction sorted as [|h sorted IH]; simpl.
  - rewrite list_elem_of_singleton. split; [by left | by intros [?|?%elem_of_nil]].
  - destruct (_ <? _)%nat; rewrite !elem_of_cons; [|done]. rewrite IH. tauto.
Qed.

Lemma sort_breaks_elem_of b breaks : b ∈ sort_breaks breaks ↔ b ∈ breaks.
Proof.
  induction breaks as [|h breaks IH]; simpl; [done|].
  rewrite insert_break_elem_of, elem_of_cons, IH. done.
Qed.

Lemma insert_break_sorted b sorted :
  StronglySorted (λ x y, Break.position x ≤ Break.position y) sorted →
  StronglySorted (λ x y, Break.position x ≤ Break.position y) (insert_break b sorted).
Proof.
  induction 1 as [|h sorted Hsorted IH Hall]; simpl.
  - by repeat constructor.
  - destruct (Nat.ltb_spec (Break.position h) (Break.position b)).
    + constructor; [done|]. apply Forall_forall. intros x [->|Hx]%insert_break_elem_of.
      * lia.
      * by eapply Forall_forall in Hall.
    + constructor; [by constructor|]. constructor; [done|].
      eapply Forall_impl; [exact Hall|]. simpl. lia.
Qed.

Lemma sort_breaks_sorted breaks :
  StronglySorted (λ x y, Break.position x ≤ Break.position y) (sort_breaks breaks).
Proof.
  induction breaks as [|h breaks IH]; simpl; [constructor | by apply insert_break_sorted].
Qed.

Lemma unique_breaks_sorted seenPositions breaks :
  StronglySorted (λ x y, Break.position x ≤ Break.position y) breaks →
  StronglySorted (λ x y, Break.position x < Break.position y)
    (unique_breaks seenPositions breaks)
  ∧ Forall (λ b, b ∈ breaks ∧ Break.position b ∉ seenPositions)
      (unique_breaks seenPositions breaks).
Proof.
  intros Hsorted. revert seenPositions.
  induction Hsorted as [|h breaks Hsorted IH Hall]; intros seenPositions; simpl.
  { split; constructor. }
  case_bool_decide as Hseen.
  - destruct (IH seenPositions) as [Hstrict Hin]. split; [done|].
    eapply Forall_impl; [exact Hin|]. simpl. intros b [? ?]. split; [by right | done].
  - destruct (IH (Break.position h :: seenPositions)) as [Hstrict Hin]. split.
    + constructor; [done|]. eapply Forall_impl; [exact Hin|]. simpl.
      intros b [Hb Hnot]. eapply Forall_forall in Hall; [|exact Hb].
      apply not_elem_of_cons in Hnot as [? _]. lia.
    + constructor; [split; [by left | done]|].
      eapply Forall_impl; [exact Hin|]. simpl. intros b [? Hnot].
      apply not_elem_of_cons in Hnot as [_ ?]. split; [by right | done].
Qed.

(** X25. The break points that [findNaturalBreaks] returns have strictly
    increasing positions: they are sorted and no position comes twice.
    Every position lies within the text, directly behind a whitespace
    character and not at one, so at the start of a word or at the end of
    the text; and its priority and type are those of one of the six
    patterns. *)
Theorem natural_breaks_are_ordered_word_starts (text : string) :
  StronglySorted lt (Break.position <$> findNaturalBreaks text)
  ∧ ∀ b, b ∈ findNaturalBreaks text →
      after_whitespace text (Break.position b)
      ∧ 0 < Break.position b ≤ String.length text
      ∧ ∃ pattern, pattern ∈ patterns
          ∧ Break.priority b = Pattern.priority pattern
          ∧ Break.type b = Pattern.name pattern
          ∧ 1 ≤ Break.priority b ≤ 6.
Proof.
  unfold findNaturalBreaks. cbv zeta.
  match goal with |- context [unique_breaks [] (sort_breaks ?l)] => set (breaks := l) end.
  destruct (unique_breaks_sorted [] (sort_breaks breaks) (sort_breaks_sorted breaks))
    as [Hstrict Hin].
  split.
  { eapply StronglySorted_fmap; [|exact Hstrict]. done. }
  intros b Hb. eapply Forall_forall in Hin as [Hb' _]; [|exact Hb].
  apply (proj1 (sort_breaks_elem_of _ _)) in Hb'.
  unfold breaks in Hb'. apply list_elem_of_bind in Hb' as (pattern & Hb' & Hpattern).
  apply list_elem_of_fmap in Hb' as (e & -> & He). simpl.
  assert (Hafter : after_whitespace text e)
    by (by apply (match_ends_after_whitespace pattern text text 0 0 EmptyString e)).
  split; [exact Hafter|]. split.
  - destruct Hafter as (before & c & after & -> & <- & _).
    rewrite length_append. simpl. lia.
  - exists pattern. split_and!; try done.
    all: clear -Hpattern; unfold patterns in Hpattern;
      repeat (apply elem_of_cons in Hpattern as [->|Hpattern]; [simpl; lia|]);
      by apply elem_of_nil in Hpattern.
Qed.

(** ** Selection *)

Lemma best_break_elem_of selected targetPosition breakPoints bestScore bestBreak p :
  best_break selected targetPosition breakPoints bestScore bestBreak = Some p →
  bestBreak = Some p
  ∨ (p ∈ Break.position <$> breakPoints) ∧ p ∉ selected.
Proof.
  revert bestScore bestBreak.
  induction breakPoints as [|breakPoint breakPoints IH]; intros bestScore bestBreak; simpl.
  { by left. }
  case_bool_decide as Hselected.
  - intros [?|[? ?]]%IH; [by left | right]. split; [by right | done].
  - destruct (_ <? _)%float.
    + intros [[= <-]|[? ?]]%IH; right; (split; [|done]); [by left | by right].
    + intros [?|[? ?]]%IH; [by left | right]. split; [by right | done].
Qed.

Lemma select_breaks_elem_of fuel idealInterval numBreaks breakPoints i selected result :
  select_breaks fuel idealInterval numBreaks breakPoints i selected = Some result →
  NoDup selected → selected ⊆ Break.position <$> breakPoints →
  NoDup result ∧ result ⊆ Break.position <$> breakPoints.
Proof.
  revert i selected.
  induction fuel as [|fuel IH]; intros i selected; simpl.
  { destruct (_ <=? _)%float; [done|]. by intros [= <-]. }
  destruct (_ <=? _)%float; [|by intros [= <-]].
  destruct (best_break selected _ breakPoints infinity None) as [bestBreak|] eqn:Hbest.
  - intros Hrun Hnodup Hsub.
    apply best_break_elem_of in Hbest as [?|[Hin Hnew]]; [done|].
    apply (IH _ _ Hrun).
    + apply NoDup_app. split_and!; [done | | apply NoDup_singleton].
      intros x Hx ->%list_elem_of_singleton. done.
    + intros x [Hx| ->%list_elem_of_singleton]%elem_of_app; [by apply Hsub | done].
  - apply IH.
Qed.

Lemma insert_position_elem_of p q sorted :
  q ∈ insert_position p sorted ↔ q = p ∨ q ∈ sorted.
Proof.
  induction sorted as [|h sorted IH]; simpl.
  - rewrite list_elem_of_singleton. split; [by left | by intros [?|?%elem_of_nil]].
  - destruct (_ <? _)%nat; rewrite !elem_of_cons; [|done]. rewrite IH. tauto.
Qed.

Lemma insert_position_sorted p sorted :
  p ∉ sorted → StronglySorted lt sorted → StronglySorted lt (insert_position p sorted).
Proof.
  intros Hnew Hsorted. induction Hsorted as [|h sorted Hsorted IH Hall]; simpl.
  - by repeat constructor.
  - apply not_elem_of_cons in Hnew as [Hne Hnew].
    destruct (Nat.ltb_spec h p).
    + constructor; [by apply IH|]. apply Forall_forall.
      intros x [->|Hx]%insert_position_elem_of; [lia|].
      by eapply Forall_forall in Hall.
    + constructor; [by constructor|]. constructor; [lia|].
      eapply Forall_impl; [exact Hall|]. simpl. lia.
Qed.

Lemma sort_positions_elem_of q positions : q ∈ sort_positions positions ↔ q ∈ positions.
Proof.
  induction positions as [|h positions IH]; simpl; [done|].
  by rewrite insert_position_elem_of, elem_of_cons, IH.
Qed.

Lemma sort_positions_sorted positions :
  NoDup positions → StronglySorted lt (sort_positions positions).
Proof.
  induction 1 as [|h positions Hnew Hnodup IH]; simpl; [constructor|].
  apply insert_position_sorted; [|done]. by rewrite sort_positions_elem_of.
Qed.

(** X26. For a non-empty list of break points with strictly increasing
    positions, [selectOptimalBreaks] returns (its loop ends, whatever
    [numBreaks] is), and what it returns are strictly increasing positions,
    each of them the position of one of the break points.  When there are
    at most [numBreaks] break points, it returns all their positions. *)
Theorem selected_breaks_are_ordered_natural_breaks text breakPoints numBreaks :
  breakPoints ≠ [] →
  StronglySorted lt (Break.position <$> breakPoints) →
  ∃ selectedBreaks,
    selectOptimalBreaks text breakPoints numBreaks = Some selectedBreaks
    ∧ StronglySorted lt selectedBreaks
    ∧ selectedBreaks ⊆ Break.position <$> breakPoints
    ∧ ((number (length breakPoints) <=? numBreaks)%float = true →
       selectedBreaks = Break.position <$> breakPoints).
Proof.
  intros Hne Hsorted.
  destruct (selectOptimalBreaks_total text breakPoints numBreaks Hne)
    as [selectedBreaks Hrun].
  exists selectedBreaks. split; [exact Hrun|].
  unfold selectOptimalBreaks in Hrun.
  destruct (_ <=? _)%float.
  { injection Hrun as <-. by split_and!. }
  apply fmap_Some in Hrun as (selected & Hrun & ->).
  apply select_breaks_elem_of in Hrun as [Hnodup Hsub];
    [| apply NoDup_nil_2 | apply list_subseteq_nil].
  split; [by apply sort_positions_sorted|]. split; [|done].
  intros q Hq. apply (proj1 (sort_positions_elem_of _ _)) in Hq. by apply Hsub.
Qed.

Lemma selected_breaks_are_ordered_natural_breaks_witness :
  let breakPoints := findNaturalBreaks sample_text in
  breakPoints ≠ []
  ∧ StronglySorted lt (Break.position <$> breakPoints)
  ∧ ∃ selectedBreaks,
      selectOptimalBreaks sample_text breakPoints 2 = Some selectedBreaks
      ∧ selectedBreaks = [6; 67].
Proof.
  intros breakPoints.
  assert (Hne : breakPoints ≠ []) by (vm_compute; discriminate).
  assert (Hsorted : StronglySorted lt (Break.position <$> breakPoints)).
  { vm_compute. repeat (constructor; [|repeat (constructor; [lia|]); constructor]).
    constructor. }
  split; [exact Hne|]. split; [exact Hsorted|].
  destruct (selected_breaks_are_ordered_natural_breaks sample_text breakPoints 2 Hne Hsorted)
    as (selectedBreaks & Hrun & _).
  exists selectedBreaks. split; [exact Hrun|].
  vm_compute in Hrun. by injection Hrun as <-.
Defined.

(* ================================================================== *)
(** * The context of a clicked word *)
(* ================================================================== *)

Lemma at_index_nat {A} (array : list A) (i : nat) : at_index array (Z.of_nat i) = array !! i.
Proof.
  unfold at_index. destruct (Z.ltb_spec (Z.of_nat i) 0); [lia|]. by rewrite Nat2Z.id.
Qed.

Lemma at_index_Some {A} (array : list A) (i : Z) x :
  at_index array i = Some x ↔ (0 ≤ i)%Z ∧ array !! Z.to_nat i = Some x.
Proof.
  unfold at_index. destruct (Z.ltb_spec i 0); [split; [done | lia] | split; [done | by intros [_ ?]]].
Qed.

Lemma findIndex_app {A} (p : A → bool) (l k : list A) :
  findIndex p (l ++ k)
  = match findIndex p l with
    | Some t => Some t
    | None => (λ t, length l + t) <$> findIndex p k
    end.
Proof.
  induction l as [|x l IH]; simpl.
  - by destruct (findIndex p k).
  - destruct (p x); [done|]. rewrite IH.
    destruct (findIndex p l); [done|]. by destruct (findIndex p k).
Qed.

Lemma findIndex_None {A} (p : A → bool) (l : list A) :
  Forall (λ x, p x = false) l → findIndex p l = None.
Proof. induction 1 as [|x l Hx _ IH]; simpl; [done|]. by rewrite Hx, IH. Qed.

(** The entries of one caption. *)
Lemma words_from_text cur wi i idx words :
  ContextWord.text <$> words_from cur wi i idx words = word_source <$> words.
Proof.
  revert idx. induction words as [|word words IH]; intros idx; simpl; [done|].
  by rewrite IH.
Qed.

Lemma words_from_length cur wi i idx words :
  length (words_from cur wi i idx words) = length words.
Proof.
  revert idx. induction words as [|word words IH]; intros idx; simpl; [done|].
  by rewrite IH.
Qed.

Lemma words_from_other cur wi i idx words :
  i ≠ cur → Forall (λ w, ContextWord.isTarget w = false) (words_from cur wi i idx words).
Proof.
  intros Hne. revert idx. induction words as [|word words IH]; intros idx; simpl; [done|].
  constructor; [|apply IH]. simpl. by rewrite bool_decide_eq_false_2.
Qed.

Lemma words_from_target cur wi idx words :
  findIndex ContextWord.isTarget (words_from cur wi cur idx words)
  = if bool_decide (Z.of_nat idx ≤ wi < Z.of_nat (idx + length words))%Z
    then Some (Z.to_nat wi - idx) else None.
Proof.
  revert idx. induction words as [|word words IH]; intros idx; simpl.
  { rewrite bool_decide_eq_false_2; [done | lia]. }
  rewrite bool_decide_eq_true_2 by done. simpl.
  case_bool_decide as Hhere; simpl.
  - rewrite bool_decide_eq_true_2 by lia. f_equal. lia.
  - rewrite IH. case_bool_decide as Hin.
    + rewrite bool_decide_eq_true_2 by lia. simpl. f_equal. lia.
    + rewrite bool_decide_eq_false_2 by lia. done.
Qed.

(** The loop over a range of captions that are there. *)
Lemma collect_words_range captions cur wi (a n : nat) :
  a + n ≤ length captions →
  ∃ allWords,
    collect_words captions cur wi (seqZ (Z.of_nat a) (Z.of_nat n)) = Returned allWords
    ∧ ContextWord.text <$> allWords
      = word_source <$> concat (Caption.words <$> take n (drop a captions))
    ∧ ((cur < Z.of_nat a ∨ Z.of_nat (a + n) ≤ cur)%Z →
       Forall (λ w, ContextWord.isTarget w = false) allWords).
Proof.
  revert a. induction n as [|n IH]; intros a Hle.
  { exists []. rewrite seqZ_nil by lia. by split_and!. }
  rewrite seqZ_cons by lia.
  replace (Z.succ (Z.of_nat a)) with (Z.of_nat (S a)) by lia.
  replace (Z.pred (Z.of_nat (S n))) with (Z.of_nat n) by lia.
  destruct (IH (S a)) as (rest & Hrest & Htext & Hnone); [lia|].
  destruct (lookup_lt_is_Some_2 captions a) as [caption Hcaption]; [lia|].
  simpl. rewrite at_index_nat, Hcaption, Hrest.
  eexists. split; [reflexivity|].
  rewrite (drop_S _ _ _ Hcaption). simpl. split.
  - by rewrite !fmap_app, words_from_text, Htext.
  - intros Hout. apply Forall_app. split; [apply words_from_other; lia | apply Hnone; lia].
Qed.

Lemma collect_words_app captions cur wi l k :
  collect_words captions cur wi (l ++ k)
  = match collect_words captions cur wi l with
    | Returned wl =>
        match collect_words captions cur wi k with
        | Returned wk => Returned (wl ++ wk)
        | Thrown e => Thrown e
        end
    | Thrown e => Thrown e
    end.
Proof.
  induction l as [|i l IH]; simpl.
  - by destruct (collect_words captions cur wi k).
  - destruct (at_index captions i); [|done]. rewrite IH.
    destruct (collect_words captions cur wi l); [|done].
    destruct (collect_words captions cur wi k); [|done]. by rewrite app_assoc.
Qed.

(** The slice around the target. *)
Lemma slice_window {A} (before behind : list A) (x : A) :
  slice (length before - 8) (Nat.min (length (before ++ x :: behind)) (length before + 8 + 1))
    (before ++ x :: behind)
  = drop (length before - 8) before ++ x :: take 8 behind.
Proof.
  unfold slice. rewrite drop_app_le by lia.
  rewrite length_app. simpl.
  rewrite take_app_ge by (rewrite length_drop; lia).
  f_equal. rewrite length_drop.
  replace (Nat.min (length before + S (length behind)) (length before + 8 + 1)
           - (length before - 8) - (length before - (length before - 8)))
    with (S (Nat.min (length behind) 8)) by lia.
  simpl. f_equal. destruct (Nat.le_gt_cases (length behind) 8).
  - rewrite Nat.min_l by done. by rewrite !take_ge by lia.
  - by rewrite Nat.min_r by lia.
Qed.

Lemma slice_fmap {A B} (f : A → B) (start end_ : nat) (l : list A) :
  f <$> slice start end_ l = slice start end_ (f <$> l).
Proof. unfold slice. by rewrite fmap_take, fmap_drop. Qed.

(** No caption of the range is the current one: no target. *)
Lemma getSurroundingContext_no_caption captions cur clickedWord wi :
  at_index captions cur = None →
  getSurroundingContext (Some (PlayerState.mk captions cur)) clickedWord wi = Returned None.
Proof.
  intros Hnone. unfold getSurroundingContext. simpl.
  set (first := Z.max 0 (cur - 2)).
  set (last := Z.min (Z.of_nat (length captions) - 1) (cur + 2)).
  destruct (Z.le_gt_cases (last - first + 1) 0) as [Hempty|Hsome].
  { by rewrite seqZ_nil. }
  assert (Hout : (cur < 0 ∨ Z.of_nat (length captions) ≤ cur)%Z).
  { unfold at_index in Hnone. destruct (Z.ltb_spec cur 0); [by left | right].
    apply lookup_ge_None in Hnone. lia. }
  destruct (collect_words_range captions cur wi (Z.to_nat first) (Z.to_nat (last - first + 1)))
    as (allWords & Hrun & _ & Hnotarget); [lia|].
  rewrite !Z2Nat.id in Hrun by lia. rewrite Hrun.
  rewrite findIndex_None; [done|]. apply Hnotarget. lia.
Qed.

Lemma getSurroundingContext_caption captions (c : nat) caption wi :
  captions !! c = Some caption →
  ∃ allWords,
    collect_words captions (Z.of_nat c) wi
      (seqZ (Z.max 0 (Z.of_nat c - 2))
         (Z.min (Z.of_nat (length captions) - 1) (Z.of_nat c + 2)
          - Z.max 0 (Z.of_nat c - 2) + 1))
    = Returned allWords
    ∧ ContextWord.text <$> allWords
      = word_source
        <$> concat (Caption.words <$> take (c - (c - 2)) (drop (c - 2) captions))
            ++ Caption.words caption
            ++ concat (Caption.words <$> take 2 (drop (S c) captions))
    ∧ findIndex ContextWord.isTarget allWords
      = if bool_decide (0 ≤ wi < Z.of_nat (length (Caption.words caption)))%Z
        then Some (length (concat (Caption.words
                                   <$> take (c - (c - 2)) (drop (c - 2) captions)))
                   + Z.to_nat wi)
        else None.
Proof.
  intros Hcaption. pose proof (lookup_lt_Some _ _ _ Hcaption) as Hlt.
  set (m := Nat.min 2 (length captions - S c)).
  replace (Z.max 0 (Z.of_nat c - 2)) with (Z.of_nat (c - 2)) by lia.
  replace (Z.min (Z.of_nat (length captions) - 1) (Z.of_nat c + 2) - Z.of_nat (c - 2) + 1)%Z
    with (Z.of_nat (c - (c - 2)) + (1 + Z.of_nat m))%Z by lia.
  rewrite seqZ_app, (seqZ_app _ 1) by lia.
  replace (Z.of_nat (c - 2) + Z.of_nat (c - (c - 2)))%Z with (Z.of_nat c) by lia.
  replace (Z.of_nat c + 1)%Z with (Z.of_nat (S c)) by lia.
  rewrite (seqZ_cons _ 1), (seqZ_nil _ (Z.pred 1)) by lia.
  destruct (collect_words_range captions (Z.of_nat c) wi (c - 2) (c - (c - 2)))
    as (wordsBefore & Hbefore & Htext1 & Hnone1); [lia|].
  destruct (collect_words_range captions (Z.of_nat c) wi (S c) m)
    as (wordsBehind & Hbehind & Htext2 & Hnone2); [lia|].
  rewrite !collect_words_app, Hbefore, Hbehind. simpl.
  rewrite at_index_nat, Hcaption.
  eexists. split; [reflexivity|].
  assert (Hm : take m (drop (S c) captions) = take 2 (drop (S c) captions)).
  { unfold m. destruct (Nat.le_gt_cases 2 (length captions - S c)).
    - by rewrite Nat.min_l.
    - rewrite Nat.min_r by lia. rewrite !take_ge; [done | rewrite length_drop; lia..]. }
  rewrite Hm in Htext2. split.
  - by rewrite !fmap_app, words_from_text, Htext1, Htext2, app_nil_r.
  - rewrite findIndex_app, (findIndex_None _ wordsBefore) by (apply Hnone1; lia).
    rewrite app_nil_r, findIndex_app, words_from_target. simpl.
    assert (Hlen : length wordsBefore
                   = length (concat (Caption.words
                                     <$> take (c - (c - 2)) (drop (c - 2) captions)))).
    { by rewrite <- (length_fmap ContextWord.text), Htext1, length_fmap. }
    rewrite (findIndex_None _ wordsBehind) by (apply Hnone2; lia).
    repeat case_bool_decide; simpl in *; try lia; [|done].
    rewrite Hlen. f_equal. lia.
Qed.

(** X27. [getSurroundingContext] never throws, and what it returns is the
    window around the clicked word.  It returns [null] when [this.state] is
    not set, when the current caption index is not the index of a caption,
    or when [wordIndex] is not the index of a word of that caption.
    Otherwise it returns the clicked word as it was given, the text of the
    current caption, and as context that word with up to eight words
    before it and up to eight words behind it, taken from the captions from
    two before the current one to two behind it and joined by single
    spaces. *)
Theorem word_context_is_the_window_around_the_click state clickedWord wordIndex :
  getSurroundingContext state clickedWord wordIndex
  = Returned (context_window state clickedWord wordIndex).
Proof.
  destruct state as [[captions cur]|].
  2: { reflexivity. }
  unfold context_window, clicked. simpl.
  destruct (at_index captions cur) as [caption|] eqn:Hcaption; simpl.
  2: { by apply getSurroundingContext_no_caption. }
  apply at_index_Some in Hcaption as [Hcur Hcaption].
  destruct (getSurroundingContext_caption captions (Z.to_nat cur) caption wordIndex Hcaption)
    as (allWords & Hrun & Htext & Htarget).
  rewrite Z2Nat.id in Hrun by done.
  unfold getSurroundingContext. simpl. rewrite Hrun, Htarget.
  destruct (at_index (Caption.words caption) wordIndex) as [word|] eqn:Hword; simpl.
  2: { rewrite bool_decide_eq_false_2; [done|]. intros [Hlo Hhi].
       unfold at_index in Hword. destruct (Z.ltb_spec wordIndex 0); [lia|].
       apply lookup_ge_None in Hword. lia. }
  apply at_index_Some in Hword as [Hwi Hword].
  pose proof (lookup_lt_Some _ _ _ Hword) as Hlt.
  rewrite bool_decide_eq_true_2 by lia.
  rewrite (proj2 (at_index_Some captions cur caption)) by done.
  do 3 f_equal.
  set (wordsBefore := concat (Caption.words <$> take _ (drop _ captions))) in *.
  set (wordsBehind := concat (Caption.words <$> take 2 _)) in *.
  unfold words_before, words_behind. rewrite Hcaption. simpl.
  fold wordsBefore wordsBehind.
  set (before := wordsBefore ++ take (Z.to_nat wordIndex) (Caption.words caption)).
  set (behind := drop (S (Z.to_nat wordIndex)) (Caption.words caption) ++ wordsBehind).
  assert (Hall : ContextWord.text <$> allWords
                 = (word_source <$> before) ++ word_source word :: (word_source <$> behind)).
  { rewrite Htext. unfold before, behind.
    rewrite <- (take_drop_middle _ _ _ Hword) at 1.
    rewrite !fmap_app, fmap_cons, ?fmap_app, <- ?app_assoc. done. }
  assert (Hpos : length wordsBefore + Z.to_nat wordIndex = length (word_source <$> before)).
  { unfold before. rewrite length_fmap, length_app, length_take. lia. }
  rewrite slice_fmap, <- (length_fmap ContextWord.text allWords), Hall, Hpos.
  unfold WORDS_BEFORE, WORDS_AFTER. rewrite slice_window.
  by rewrite fmap_app, fmap_cons, fmap_drop, fmap_take, length_fmap.
Qed.

(* ================================================================== *)
(** * The subtitle entries of the browser storage *)
(* ================================================================== *)

(** ** Sorting by age *)

Lemma insert_aged_Permutation a sorted : insert_aged a sorted ≡ₚ a :: sorted.
Proof.
  induction sorted as [|b sorted IH]; simpl; [done|].
  destruct (_ <? _)%Z; [|done]. rewrite IH. apply Permutation_swap.
Qed.

Lemma sort_by_age_Permutation entries : sort_by_age entries ≡ₚ entries.
Proof.
  induction entries as [|a entries IH]; simpl; [done|].
  by rewrite insert_aged_Permutation, IH.
Qed.

Lemma insert_aged_sorted a sorted :
  StronglySorted (λ x y, Aged.age y ≤ Aged.age x)%Z sorted →
  StronglySorted (λ x y, Aged.age y ≤ Aged.age x)%Z (insert_aged a sorted).
Proof.
  induction 1 as [|b sorted Hsorted IH Hall]; simpl.
  - by repeat constructor.
  - destruct (Z.ltb_spec (Aged.age a) (Aged.age b)).
    + constructor; [done|]. rewrite insert_aged_Permutation. constructor; [lia | done].
    + constructor; [by constructor|]. constructor; [done|].
      eapply Forall_impl; [exact Hall|]. simpl. lia.
Qed.

Lemma sort_by_age_sorted entries :
  StronglySorted (λ x y, Aged.age y ≤ Aged.age x)%Z (sort_by_age entries).
Proof.
  induction entries as [|a entries IH]; simpl; [constructor | by apply insert_aged_sorted].
Qed.

(** ** The keys and their ages *)

Lemma keysWithAge_keys env tick subtitleItems :
  Aged.key <$> keysWithAge env tick subtitleItems = subtitleItems.*1.
Proof.
  revert tick. induction subtitleItems as [|[key value] rest IH]; intros tick; simpl; [done|].
  by rewrite IH.
Qed.

Lemma keysWithAge_elem_of env tick subtitleItems now a :
  (∀ k, CacheEnv.Date_now env k = now) →
  a ∈ keysWithAge env tick subtitleItems →
  ∃ value, (Aged.key a, value) ∈ subtitleItems ∧ Aged.age a = (now - cached_at value)%Z.
Proof.
  intros Hclock. revert tick.
  induction subtitleItems as [|[key value] rest IH]; intros tick; simpl.
  { by intros ?%elem_of_nil. }
  intros [->|Hin]%elem_of_cons.
  - exists value. simpl. rewrite Hclock. split; [by left | done].
  - destruct (IH _ Hin) as (v & Hv & Hage). exists v. split; [by right | done].
Qed.

Lemma subtitle_keys_items s :
  subtitle_keys s = (filter (λ item, is_subtitle_key item.1) (LocalStorage.items s)).*1.
Proof.
  unfold subtitle_keys. induction (LocalStorage.items s) as [|[key value] items IH]; [done|].
  rewrite fmap_cons. cbn [fst]. destruct (is_subtitle_key key) eqn:Hkey.
  - rewrite !filter_cons_True by (cbn [fst]; by rewrite Hkey).
    rewrite fmap_cons. cbn [fst]. f_equal. exact IH.
  - rewrite !filter_cons_False by (cbn [fst]; rewrite Hkey; intros []). exact IH.
Qed.

Lemma unique_value {A} (items : list (string * A)) key v1 v2 :
  NoDup items.*1 → (key, v1) ∈ items → (key, v2) ∈ items → v1 = v2.
Proof.
  induction items as [|[k v] items IH]; [by intros _ ?%elem_of_nil|].
  rewrite fmap_cons. cbn [fst]. intros [Hnew Hnodup]%NoDup_cons H1 H2.
  apply elem_of_cons in H1 as [H1|H1]; apply elem_of_cons in H2 as [H2|H2].
  - congruence.
  - injection H1 as -> ->. destruct Hnew. by apply (list_elem_of_fmap_2 fst _ (k, v2)).
  - injection H2 as -> ->. destruct Hnew. by apply (list_elem_of_fmap_2 fst _ (k, v1)).
  - by apply IH.
Qed.

Lemma remove_keys_nil items : remove_keys [] items = items.
Proof.
  unfold remove_keys. induction items as [|item items IH]; [done|].
  rewrite filter_cons_True by apply not_elem_of_nil. by rewrite IH.
Qed.

(** What [cleanOldSubtitleCaches] does to the items, whatever the clock. *)
Lemma cleanOldSubtitleCaches_items env s :
  let subtitleItems := filter (λ item, is_subtitle_key item.1) (LocalStorage.items s) in
  let sorted := sort_by_age (keysWithAge env (S (LocalStorage.tick s)) subtitleItems) in
  let removed := Aged.key <$> drop (3 * length sorted / 4) sorted in
  ∃ out s',
    cleanOldSubtitleCaches env s = (out, s')
    ∧ (out = Returned tt ∨ out = Thrown StorageError)
    ∧ (out = Thrown StorageError → LocalStorage.items s' = LocalStorage.items s)
    ∧ (out = Returned tt →
       LocalStorage.items s' = remove_keys removed (LocalStorage.items s)).
Proof.
  intros subtitleItems sorted removed. unfold cleanOldSubtitleCaches.
  destruct (CacheEnv.chrome_storage_rejects env (LocalStorage.tick s)).
  { eexists _, _. split; [reflexivity|]. split_and!; [by right | done | done]. }
  fold subtitleItems. fold sorted.
  destruct (Nat.ltb_spec 0 (length (drop (3 * length sorted / 4) sorted))) as [Hsome|Hnone].
  - destruct (CacheEnv.chrome_storage_rejects env _).
    + eexists _, _. split; [reflexivity|]. split_and!; [by right | done | done].
    + eexists _, _. split; [reflexivity|]. split_and!; [by left | done | done].
  - eexists _, _. split; [reflexivity|]. split_and!; [by left | done |].
    intros _. simpl. unfold removed.
    destruct (drop _ sorted); [|simpl in Hnone; lia]. by rewrite remove_keys_nil.
Qed.

(** X28. Let the keys of the storage be unique and the clock stand still
    during the call.  [cleanOldSubtitleCaches] then either rejects, because
    a storage call did, and leaves the items as they were; or it removes
    subtitle keys only, namely [n - floor(3n/4)] of the [n] subtitle keys,
    which is at least one as soon as there is one.  No subtitle entry that
    it keeps was cached later than an entry that it removes: the entries
    cached last go, not the oldest. *)
Theorem eviction_removes_the_newest env s now :
  NoDup (LocalStorage.items s).*1 →
  (∀ k, CacheEnv.Date_now env k = now) →
  ∃ out s',
    cleanOldSubtitleCaches env s = (out, s')
    ∧ (out = Returned tt ∨ out = Thrown StorageError)
    ∧ (out = Thrown StorageError → LocalStorage.items s' = LocalStorage.items s)
    ∧ (out = Returned tt →
       ∃ removed,
         LocalStorage.items s' = remove_keys removed (LocalStorage.items s)
         ∧ removed ⊆ subtitle_keys s
         ∧ NoDup removed
         ∧ length removed
           = length (subtitle_keys s) - 3 * length (subtitle_keys s) / 4
         ∧ ∀ r vr k vk,
             (r, vr) ∈ LocalStorage.items s → r ∈ removed →
             (k, vk) ∈ LocalStorage.items s → k ∈ subtitle_keys s → k ∉ removed →
             (cached_at vk ≤ cached_at vr)%Z).
Proof.
  intros Hnodup Hclock.
  destruct (cleanOldSubtitleCaches_items env s) as (out & s' & Hrun & Hout & Hthrown & Hreturned).
  exists out, s'. split; [exact Hrun|]. split; [exact Hout|]. split; [exact Hthrown|].
  intros Hok. specialize (Hreturned Hok).
  set (subtitleItems := filter (λ item, is_subtitle_key item.1) (LocalStorage.items s)) in *.
  set (entries := keysWithAge env (S (LocalStorage.tick s)) subtitleItems) in *.
  set (sorted := sort_by_age entries) in *.
  set (m := 3 * length sorted / 4) in *.
  assert (Hkeys : Aged.key <$> sorted ≡ₚ subtitle_keys s).
  { unfold sorted. rewrite sort_by_age_Permutation. unfold entries.
    by rewrite keysWithAge_keys, subtitle_keys_items. }
  assert (Hlen : length sorted = length (subtitle_keys s)).
  { by rewrite <- Hkeys, length_fmap. }
  assert (Hunique : NoDup (Aged.key <$> sorted)).
  { rewrite Hkeys. unfold subtitle_keys. by apply NoDup_filter. }
  rewrite <- (take_drop m sorted), fmap_app in Hunique.
  apply NoDup_app in Hunique as (_ & Hdisjoint & Hremoved).
  assert (Hentry : ∀ a, a ∈ sorted →
            ∃ value, (Aged.key a, value) ∈ LocalStorage.items s
                     ∧ Aged.age a = (now - cached_at value)%Z).
  { intros a Ha. unfold sorted in Ha. rewrite sort_by_age_Permutation in Ha.
    destruct (keysWithAge_elem_of _ _ _ now a Hclock Ha) as (value & Hin & Hage).
    exists value. split; [|done]. by apply list_elem_of_filter in Hin as [_ ?]. }
  exists (Aged.key <$> drop m sorted). split_and!.
  - exact Hreturned.
  - intros key Hkey. rewrite <- Hkeys, <- (take_drop m sorted), fmap_app.
    apply elem_of_app. by right.
  - exact Hremoved.
  - rewrite length_fmap, length_drop. unfold m. by rewrite Hlen.
  - intros r vr k vk Hr Hrem Hk Hsub Hkept.
    apply list_elem_of_fmap in Hrem as (x & -> & Hx).
    rewrite <- Hkeys, <- (take_drop m sorted), fmap_app in Hsub.
    apply elem_of_app in Hsub as [Hsub|Hsub]; [|done].
    apply list_elem_of_fmap in Hsub as (y & -> & Hy).
    pose proof (sort_by_age_sorted entries) as Hsorted. fold sorted in Hsorted.
    rewrite <- (take_drop m sorted) in Hsorted.
    pose proof (StronglySorted_app_1_elem_of _ _ _ _ _ Hsorted Hy Hx) as Hage.
    simpl in Hage.
    destruct (Hentry x) as (vx & Hvx & Hagex).
    { rewrite <- (take_drop m sorted). apply elem_of_app. by right. }
    destruct (Hentry y) as (vy & Hvy & Hagey).
    { rewrite <- (take_drop m sorted). apply elem_of_app. by left. }
    rewrite (unique_value _ _ _ _ Hnodup Hr Hvx), (unique_value _ _ _ _ Hnodup Hk Hvy).
    lia.
Qed.

Lemma eviction_removes_the_newest_witness :
  let env := CacheEnv.mk (λ _, 1000%Z) (λ _, false) (λ _, false) in
  let s := LocalStorage.mk
             [("subtitle_a", Stored.mk (Some 10%Z)); ("settings", Stored.mk None);
              ("subtitle_b", Stored.mk (Some 40%Z)); ("subtitle_c", Stored.mk (Some 20%Z));
              ("subtitle_d", Stored.mk (Some 30%Z))] 0 in
  NoDup (LocalStorage.items s).*1
  ∧ (∀ k, CacheEnv.Date_now env k = 1000%Z)
  ∧ ∃ s',
      cleanOldSubtitleCaches env s = (Returned tt, s')
      ∧ (LocalStorage.items s').*1 = ["subtitle_a"; "settings"; "subtitle_c"; "subtitle_d"].
Proof.
  intros env s.
  assert (Hnodup : NoDup (LocalStorage.items s).*1)
    by (apply (bool_decide_unpack _); by vm_compute).
  assert (Hclock : ∀ k, CacheEnv.Date_now env k = 1000%Z) by done.
  split; [exact Hnodup|]. split; [exact Hclock|].
  destruct (eviction_removes_the_newest env s 1000%Z Hnodup Hclock) as (out & s' & Hrun & _).
  exists s'. vm_compute in Hrun. injection Hrun as <- <-. by split.
Defined.

(** ** Saving an entry *)

Lemma remove_keys_elem_of removed items k v :
  (k, v) ∈ remove_keys removed items ↔ (k, v) ∈ items ∧ k ∉ removed.
Proof. unfold remove_keys. rewrite list_elem_of_filter. simpl. tauto. Qed.

Lemma remove_keys_fst removed items :
  (remove_keys removed items).*1 = filter (λ k, k ∉ removed) items.*1.
Proof.
  unfold remove_keys. induction items as [|[k v] items IH]; [done|].
  rewrite fmap_cons. cbn [fst]. destruct (decide (k ∉ removed)).
  - rewrite !filter_cons_True by done. rewrite fmap_cons. cbn [fst]. f_equal. exact IH.
  - rewrite !filter_cons_False by done. exact IH.
Qed.

Lemma set_key_elem_of key value items k v :
  (k, v) ∈ set_key key value items →
  (k, v) ∈ items ∨ (k = key ∧ v = value).
Proof.
  induction items as [|[k' v'] items IH]; simpl.
  - intros [= -> ->]%list_elem_of_singleton. by right.
  - case_bool_decide.
    + intros [[= -> ->]|Hin]%elem_of_cons; [by right | left; by right].
    + intros [[= -> ->]|Hin]%elem_of_cons; [left; by left|].
      destruct (IH Hin) as [?|?]; [left; by right | by right].
Qed.

Lemma set_key_other key value items k v :
  k ≠ key → (k, v) ∈ set_key key value items ↔ (k, v) ∈ items.
Proof.
  intros Hne. induction items as [|[k' v'] items IH]; simpl.
  - rewrite list_elem_of_singleton. split; [by intros [= ? ?] | by intros ?%elem_of_nil].
  - case_bool_decide as Hk; rewrite !elem_of_cons.
    + split; (intros [[= ? ?]|?]; [congruence | by right]).
    + by rewrite IH.
Qed.

Lemma set_key_stored key value items : (key, value) ∈ set_key key value items.
Proof.
  induction items as [|[k' v'] items IH]; simpl; [by left|].
  case_bool_decide; [by left | by right].
Qed.

Lemma set_key_fst key value items :
  (set_key key value items).*1
  = if bool_decide (key ∈ items.*1) then items.*1 else items.*1 ++ [key].
Proof.
  induction items as [|[k' v'] items IH]; [done|].
  cbn [set_key]. rewrite (fmap_cons fst (k', v')). cbn [fst].
  destruct (decide (k' = key)) as [->|Hne].
  - rewrite !bool_decide_eq_true_2; [done | by left | done].
  - rewrite (bool_decide_eq_false_2 (k' = key)) by done.
    rewrite fmap_cons, IH. cbn [fst]. case_bool_decide as Hin.
    + rewrite bool_decide_eq_true_2 by (by right). done.
    + rewrite bool_decide_eq_false_2; [done|]. intros [?|?]%elem_of_cons; [congruence | done].
Qed.

Lemma set_key_NoDup key value items : NoDup items.*1 → NoDup (set_key key value items).*1.
Proof.
  intros Hnodup. rewrite set_key_fst. case_bool_decide as Hin; [done|].
  apply NoDup_app. split_and!; [done | | apply NoDup_singleton].
  intros k Hk ->%list_elem_of_singleton. done.
Qed.

Lemma subtitle_key_of videoId : is_subtitle_key ("subtitle_" +:+ videoId) = true.
Proof. by destruct videoId. Qed.

(** X29. [saveToBrowserCache] never rejects.  It leaves every item whose
    key does not start with [subtitle_] as it was, and every item that the
    storage holds afterwards was there before or is the new entry; unique
    keys stay unique.  When no storage call rejects, the new entry is
    stored under [subtitle_<videoId>].  When the storage is not nearly
    full, nothing is evicted: the items are those from before, with or
    without the new entry. *)
Theorem browser_cache_save_is_contained env videoId data s :
  ∃ s',
    saveToBrowserCache env videoId data s = (Returned tt, s')
    ∧ (∀ k v, is_subtitle_key k = false →
         (k, v) ∈ LocalStorage.items s' ↔ (k, v) ∈ LocalStorage.items s)
    ∧ (∀ k v, (k, v) ∈ LocalStorage.items s' →
         (k, v) ∈ LocalStorage.items s ∨ (k = "subtitle_" +:+ videoId ∧ v = data))
    ∧ (NoDup (LocalStorage.items s).*1 → NoDup (LocalStorage.items s').*1)
    ∧ ((∀ t, CacheEnv.chrome_storage_rejects env t = false) →
       ("subtitle_" +:+ videoId, data) ∈ LocalStorage.items s')
    ∧ (CacheEnv.storage_nearly_full env (S (LocalStorage.tick s)) = false →
       LocalStorage.items s' = LocalStorage.items s
       ∨ LocalStorage.items s'
         = set_key ("subtitle_" +:+ videoId) data (LocalStorage.items s)).
Proof.
  unfold saveToBrowserCache. cbv zeta.
  destruct (CacheEnv.chrome_storage_rejects env (LocalStorage.tick s)) eqn:Hbytes.
  { eexists. split; [reflexivity|]. simpl. split_and!; try done; [by left | |by left].
    intros Hnever. by rewrite Hnever in Hbytes. }
  cbn [LocalStorage.items LocalStorage.tick].
  set (s1 := LocalStorage.mk (LocalStorage.items s) (S (S (LocalStorage.tick s)))).
  assert (Hcleaned : ∃ out s2 removed,
            (if CacheEnv.storage_nearly_full env (S (LocalStorage.tick s))
             then cleanOldSubtitleCaches env s1 else (Returned tt, s1)) = (out, s2)
            ∧ LocalStorage.items s2 = remove_keys removed (LocalStorage.items s)
            ∧ Forall (λ k, is_subtitle_key k = true) removed
            ∧ (CacheEnv.storage_nearly_full env (S (LocalStorage.tick s)) = false →
               removed = [])
            ∧ ((∀ t, CacheEnv.chrome_storage_rejects env t = false) → out = Returned tt)).
  { destruct (CacheEnv.storage_nearly_full env _).
    - destruct (cleanOldSubtitleCaches_items env s1) as (out & s2 & Hrun & Hout & Hthrown & Hok).
      destruct Hout as [->| ->].
      + eexists _, _, _. split; [exact Hrun|]. split; [by apply Hok|]. split_and!; try done.
        apply Forall_forall. intros k (a & -> & Ha)%list_elem_of_fmap.
        assert (Hin : a ∈ sort_by_age
                        (keysWithAge env (S (LocalStorage.tick s1))
                           (filter (λ item, is_subtitle_key item.1) (LocalStorage.items s1)))).
        { match goal with H : a ∈ drop ?m ?l |- _ =>
            rewrite <- (take_drop m l); apply elem_of_app; by right end. }
        rewrite sort_by_age_Permutation in Hin.
        apply (list_elem_of_fmap_2 Aged.key) in Hin. rewrite keysWithAge_keys in Hin.
        apply list_elem_of_fmap in Hin as ([k v] & -> & Hitem).
        apply list_elem_of_filter in Hitem as [Hsub _]. simpl in *. by destruct (is_subtitle_key k).
      + exists (Thrown StorageError), s2, []. split; [exact Hrun|]. rewrite remove_keys_nil.
        split; [by apply Hthrown|]. split_and!; try done.
        intros Hnever. exfalso. unfold cleanOldSubtitleCaches in Hrun.
        rewrite !Hnever in Hrun. by destruct (_ <? _)%nat.
    - exists (Returned tt), s1, []. rewrite remove_keys_nil. by split_and!. }
  destruct Hcleaned as (out & s2 & removed & -> & Hitems & Hremoved & Hnone & Hnever).
  assert (Hkept : ∀ k v, is_subtitle_key k = false →
            (k, v) ∈ remove_keys removed (LocalStorage.items s) ↔ (k, v) ∈ LocalStorage.items s).
  { intros k v Hk. rewrite remove_keys_elem_of. split; [by intros [? _]|]. intros Hin.
    split; [done|]. intros Hrem. eapply Forall_forall in Hremoved; [|exact Hrem]. congruence. }
  assert (Hunique : NoDup (LocalStorage.items s).*1 →
            NoDup (remove_keys removed (LocalStorage.items s)).*1).
  { intros ?. rewrite remove_keys_fst. by apply NoDup_filter. }
  assert (Hsame : CacheEnv.storage_nearly_full env (S (LocalStorage.tick s)) = false →
            remove_keys removed (LocalStorage.items s) = LocalStorage.items s).
  { intros ->%Hnone. apply remove_keys_nil. }
  destruct out as [[]|e].
  2: { eexists. split; [reflexivity|]. rewrite Hitems. split_and!; try done.
       - intros k v [? _]%remove_keys_elem_of. by left.
       - intros Hrejects. by specialize (Hnever Hrejects).
       - intros Hfull. left. by apply Hsame. }
  destruct (CacheEnv.chrome_storage_rejects env (LocalStorage.tick s2)) eqn:Hset.
  { eexists. split; [reflexivity|]. simpl. rewrite Hitems. split_and!; try done.
    - intros k v [? _]%remove_keys_elem_of. by left.
    - intros Hrejects. by rewrite Hrejects in Hset.
    - intros Hfull. left. by apply Hsame. }
  eexists. split; [reflexivity|]. simpl. rewrite Hitems. split_and!.
  - intros k v Hk. rewrite set_key_other; [by apply Hkept|].
    intros ->. by rewrite subtitle_key_of in Hk.
  - intros k v [[? _]%remove_keys_elem_of|?]%set_key_elem_of; [by left | by right].
  - intros ?. by apply set_key_NoDup, Hunique.
  - intros _. apply set_key_stored.
  - intros Hfull. right. by rewrite Hsame.
Qed.

(** ** The video id of a URL *)

Lemma value_run_append id rest :
  free_of ["&"%char] id →
  value_run (id +:+ rest) = id +:+ value_run rest.
Proof.
  induction id as [|c id IH]; str_simpl; [done|]. intros [Hc Hid].
  destruct (Ascii.eqb_spec c "&") as [->|_]; [by destruct Hc; left|]. by rewrite IH.
Qed.

Lemma extractVideoId_skip base rest :
  free_of ["?"%char; "&"%char] base →
  extractVideoId (base +:+ rest) = extractVideoId rest.
Proof.
  induction base as [|c base IH]; str_simpl; [done|]. intros [Hc Hbase].
  destruct (Ascii.eqb_spec c "?") as [->|_]; [destruct Hc; by left|].
  destruct (Ascii.eqb_spec c "&") as [->|_]; [destruct Hc; right; by left|].
  simpl. by apply IH.
Qed.

(** X30. [extractVideoId] returns the first [v] parameter.  For a URL
    that consists of a part without [?] and [&], then [?v=] and a non-empty
    id without [&], the id is returned, whether the URL ends there or goes
    on with [&] and further parameters; everything up to the next [&]
    belongs to the id.  A string without [?] and [&] gives [null]. *)
Theorem video_id_is_the_first_v_parameter base id rest :
  free_of ["?"%char; "&"%char] base →
  id ≠ EmptyString →
  free_of ["&"%char] id →
  extractVideoId (base +:+ "?v=" +:+ id) = Some id
  ∧ extractVideoId (base +:+ "?v=" +:+ id +:+ "&" +:+ rest) = Some id
  ∧ extractVideoId base = None.
Proof.
  intros Hbase Hid Hclean.
  assert (Hfound : ∀ tail, value_run tail = EmptyString →
            extractVideoId (base +:+ "?v=" +:+ id +:+ tail) = Some id).
  { intros tail Htail. rewrite extractVideoId_skip by done.
    str_simpl. rewrite value_run_append, Htail, append_empty_r by done.
    by destruct id. }
  split_and!.
  - rewrite <- (append_empty_r id) at 1. by apply Hfound.
  - by apply Hfound.
  - rewrite <- (append_empty_r base), extractVideoId_skip by done. done.
Qed.

Lemma video_id_is_the_first_v_parameter_witness :
  free_of ["?"%char; "&"%char] "https://www.youtube.com/watch"
  ∧ "dQw4w9WgXcQ" ≠ EmptyString
  ∧ free_of ["&"%char] "dQw4w9WgXcQ"
  ∧ extractVideoId "https://www.youtube.com/watch?v=dQw4w9WgXcQ&t=42s" = Some "dQw4w9WgXcQ".
Proof.
  assert (Hbase : free_of ["?"%char; "&"%char] "https://www.youtube.com/watch")
    by (repeat split; apply (bool_decide_unpack _); by vm_compute).
  assert (Hid : free_of ["&"%char] "dQw4w9WgXcQ")
    by (repeat split; apply (bool_decide_unpack _); by vm_compute).
  assert (Hne : "dQw4w9WgXcQ" ≠ EmptyString) by discriminate.
  split; [exact Hbase|]. split; [exact Hne|]. split; [exact Hid|].
  exact (proj1 (proj2 (video_id_is_the_first_v_parameter
                         "https://www.youtube.com/watch" "dQw4w9WgXcQ" "t=42s"
                         Hbase Hne Hid))).
Defined.
